(** * crossbell.js: link operations, event-log matching and content resolution

    A shallow embedding of the link operations of the contract client
    (LinkContract), of the note operations (NoteContract), of the IPFS
    content resolver (Ipfs, in its current and its older revision) and of
    the helpers they call, with the properties of the specification and
    further properties of the code stated over it.

    Conventions of the embedding.
    - A JavaScript value that the code only moves around is a [Value].
    - An [async] method is a computation in the monad [M]: it reads the
      answers of the collaborators (chain client, content store) from an
      environment [Env], records every call it makes, and either returns
      or throws.
    - Text that gets byte-encoded (a link type) is a list of Unicode code
      points; every other string is a [string]. *)

From Stdlib Require Import ZArith String Ascii Bool List Lia.
Import ListNotations.
Open Scope string_scope.
Open Scope list_scope.
Open Scope Z_scope.

(** ** Errors *)

(** The error kinds of the specification (section 7), and [JsError] for a
    plain [throw new Error(msg)] of the source. *)
Inductive Error : Type :=
| JsError (msg : string)
| ValueTooLong
| EventNotFound
| AmbiguousEvent
| LengthMismatch
| InvalidAddress
| WrongNetwork
| SubmissionRejected
| Reverted (reason : string)
| Timeout
| PublishFailed
| ResolveFailed
| InvalidUri.

(** ** UTF-8 *)

Module Utf8.

(** Text as a sequence of Unicode code points. *)
Definition ustring : Type := list Z.

(** A Unicode scalar value: a code point that is not a surrogate. *)
Definition is_scalar (c : Z) : bool :=
  (0 <=? c) && (c <? 0x110000) && negb ((0xD800 <=? c) && (c <? 0xE000)).

Definition well_formed (s : ustring) : bool := forallb is_scalar s.

Definition encode_cp (c : Z) : list Z :=
  if c <? 0x80 then [c]
  else if c <? 0x800 then [0xC0 + c / 64; 0x80 + c mod 64]
  else if c <? 0x10000 then
    [0xE0 + c / 4096; 0x80 + (c / 64) mod 64; 0x80 + c mod 64]
  else
    [0xF0 + c / 262144; 0x80 + (c / 4096) mod 64;
     0x80 + (c / 64) mod 64; 0x80 + c mod 64].

Definition encode (s : ustring) : list Z := flat_map encode_cp s.

Definition is_cont (b : Z) : bool := (0x80 <=? b) && (b <? 0xC0).

(** A strict decoder: [None] on a truncated, overlong or out-of-range
    sequence. *)
Fixpoint decode (bs : list Z) : option ustring :=
  match bs with
  | [] => Some []
  | b0 :: r0 =>
    if (0 <=? b0) && (b0 <? 0x80) then option_map (cons b0) (decode r0)
    else if (0xC0 <=? b0) && (b0 <? 0xE0) then
      match r0 with
      | b1 :: r1 =>
        let c := (b0 - 0xC0) * 64 + (b1 - 0x80) in
        if is_cont b1 && (0x80 <=? c)
        then option_map (cons c) (decode r1) else None
      | _ => None
      end
    else if (0xE0 <=? b0) && (b0 <? 0xF0) then
      match r0 with
      | b1 :: b2 :: r2 =>
        let c := (b0 - 0xE0) * 4096 + (b1 - 0x80) * 64 + (b2 - 0x80) in
        if is_cont b1 && is_cont b2 && (0x800 <=? c) && is_scalar c
        then option_map (cons c) (decode r2) else None
      | _ => None
      end
    else if (0xF0 <=? b0) && (b0 <? 0xF8) then
      match r0 with
      | b1 :: b2 :: b3 :: r3 =>
        let c := (b0 - 0xF0) * 262144 + (b1 - 0x80) * 4096
                 + (b2 - 0x80) * 64 + (b3 - 0x80) in
        if is_cont b1 && is_cont b2 && is_cont b3
           && (0x10000 <=? c) && is_scalar c
        then option_map (cons c) (decode r3) else None
      | _ => None
      end
    else None
  end.

(** The code points of a [string] literal, one per character. *)
Definition of_string (s : string) : ustring :=
  map (fun a => Z.of_N (N_of_ascii a)) (list_ascii_of_string s).

End Utf8.

(** ** AddressCodec: the fixed-width link-type tag *)

Module AddressCodec.
Import Utf8.

(** A byte string (viem's [Hex], ethers's [BytesLike]): its bytes. *)
Definition Hex : Type := list Z.

(** Modelled from the spec: viem's [toHex] on a string is not under
    src/; the specification takes the UTF-8 bytes of the string. *)
Definition toHex (s : ustring) : Hex := Utf8.encode s.

(** Modelled from the spec: viem's [pad] is not under src/.  With
    [{ dir: 'right' }] and the protocol width it right-pads with zero
    bytes, and a value longer than the width is [ValueTooLong]. *)
Definition pad (bs : Hex) (size : nat) : Error + Hex :=
  if (size <? length bs)%nat then inl ValueTooLong
  else inr (bs ++ repeat 0 (size - length bs)).

Definition width : nat := 32.

(** [pad(toHex(linkType), { dir: 'right' })], as every link operation
    writes it. *)
Definition encodeLinkType (s : ustring) : Error + Hex := pad (toHex s) width.

Definition strip_trailing_zeros (bs : Hex) : Hex :=
  fold_right
    (fun b acc =>
       match acc with
       | [] => if b =? 0 then [] else [b]
       | _ :: _ => b :: acc
       end) [] bs.

(** Modelled from the spec: ethers's [parseBytes32String] (called by
    [NoteContract.getNote]) is not under src/; the specification strips
    the trailing zero bytes and decodes UTF-8.  The library function
    takes the tag as a zero-terminated string: it throws ([None]) on a
    value that is not 32 bytes long or whose last byte is not zero, and
    otherwise drops the zero bytes that end the first 31 bytes and
    decodes the rest. *)
Definition decodeLinkType (b : Hex) : option ustring :=
  if negb (length b =? width)%nat then None
  else if negb (nth 31 b 0 =? 0) then None
  else Utf8.decode (strip_trailing_zeros (firstn 31 b)).

(** The last character of [s] is U+0000. *)
Definition endsWithNul (s : ustring) : bool :=
  match rev s with
  | c :: _ => c =? 0
  | [] => false
  end.

End AddressCodec.

(** ** JavaScript values, receipts and results *)

Definition Address : Type := string.

#[local] Unset Elimination Schemes.
Inductive Value : Type :=
| VUndefined
| VNull
| VBool (b : bool)
| VBigInt (z : Z)                  (* a bigint or an integral number *)
| VString (s : string)
| VHex (b : AddressCodec.Hex)      (* a byte string, such as a bytes32 *)
| VArray (items : list Value)
| VObject (fields : list (string * Value)).
#[local] Set Elimination Schemes.

(** [o.k]: the value of property [k], [undefined] when [o] has none. *)
Fixpoint lookup_field (k : string) (fields : list (string * Value)) : Value :=
  match fields with
  | [] => VUndefined
  | (k', v) :: rest => if String.eqb k k' then v else lookup_field k rest
  end.

Definition get (k : string) (o : Value) : Value :=
  match o with
  | VObject fields => lookup_field k fields
  | _ => VUndefined
  end.

(** [o.k = v] *)
Fixpoint assign_field (k : string) (v : Value) (fields : list (string * Value))
  : list (string * Value) :=
  match fields with
  | [] => [(k, v)]
  | (k', v') :: rest =>
    if String.eqb k k' then (k, v) :: rest
    else (k', v') :: assign_field k v rest
  end.

Definition set (k : string) (v : Value) (o : Value) : Value :=
  match o with
  | VObject fields => VObject (assign_field k v fields)
  | _ => o
  end.

(** JavaScript truthiness, as [!x] and [x ? a : b] test it. *)
Definition truthy (v : Value) : bool :=
  match v with
  | VUndefined | VNull => false
  | VBool b => b
  | VBigInt z => negb (z =? 0)
  | VString s => negb (String.eqb s "")
  | VHex _ | VArray _ | VObject _ => true
  end.

Definition BigInt (n : Z) : Value := VBigInt n.

(** EventRecord: one decoded event of a receipt, its name and arguments. *)
Record EventRecord : Type := mkEvent {
  eventName : string;
  args : list (string * Value)
}.

Module Receipt.
(** TransactionReceipt: the hash and the ordered events. *)
Record t : Type := mk {
  transactionHash : string;
  logs : list EventRecord
}.
End Receipt.

(** [Result<T, HasTxHash>]: [{ data: T }], with [transactionHash] when
    [HasTxHash] is [true]; [None] is an object without that property. *)
Record Result : Type := mkResult {
  data : Value;
  transactionHash : option string
}.

(** ** EventLogMatcher *)

Module EventLogMatcher.

Inductive Matched : Type :=
| Single (e : EventRecord)
| Multiple (es : list EventRecord).

Definition named (name : string) (e : EventRecord) : bool :=
  String.eqb (eventName e) name.

(** Modelled from the spec: the matcher ([parseLog] of ../../utils) is not
    under src/.  Section 4.2: filter by exact name; no match is
    [EventNotFound]; more than one match without [allowMultiple] is
    [AmbiguousEvent]; the result is the single match, or the whole
    filtered sequence when [allowMultiple] is set. *)
Definition matchEvents (events : list EventRecord) (name : string)
           (allowMultiple : bool) : Error + Matched :=
  match filter (named name) events with
  | [] => inl EventNotFound
  | e :: rest =>
    if allowMultiple then inr (Multiple (e :: rest))
    else match rest with
         | [] => inr (Single e)
         | _ :: _ => inl AmbiguousEvent
         end
  end.

(** Modelled from the spec: the selection rule that goes with
    [allowMultiple], "taking the first result" (section 9). *)
Definition first_match (m : Matched) : option EventRecord :=
  match m with
  | Single e => Some e
  | Multiple es => hd_error es
  end.

(** Modelled from the spec: [parseLog(logs, name, options)] as its callers
    under src/ use it: they read [.args] off what it returns, one event.
    [throwOnMultipleLogsFound] (default [true]) is the negation of
    [allowMultiple]. *)
Definition parseLog (logs : list EventRecord) (name : string)
           (throwOnMultipleLogsFound : bool) : Error + EventRecord :=
  match matchEvents logs name (negb throwOnMultipleLogsFound) with
  | inl err => inl err
  | inr m =>
    match first_match m with
    | Some e => inr e
    | None => inl EventNotFound
    end
  end.

(** How many events of the receipt carry the requested name. *)
Fixpoint countNamed (name : string) (events : list EventRecord) : nat :=
  match events with
  | [] => O
  | e :: rest =>
    if named name e then S (countNamed name rest) else countNamed name rest
  end.

(** The first event carrying the requested name, in the receipt's order. *)
Fixpoint firstNamed (name : string) (events : list EventRecord)
  : option EventRecord :=
  match events with
  | [] => None
  | e :: rest => if named name e then Some e else firstNamed name rest
  end.

End EventLogMatcher.

(** ** Collaborators, effects and the monad of asynchronous methods *)

Inductive ContractName : Type := Entry | Periphery.

(** A contract call: target contract, function, arguments, overrides. *)
Record CallSpec : Type := mkCall {
  contract : ContractName;
  functionName : string;
  callArgs : list Value;
  overrides : Value
}.

(** One call made to a collaborator. *)
Inductive Effect : Type :=
| CurrentNetworkId
| SwitchNetwork (id : Z)
| Submit (c : CallSpec)                       (* contract.write.f(args) *)
| WaitForReceipt (hash : string)
| GetReceipt (hash : string)
| ReadContract (c : CallSpec)                 (* contract.read.f(args) *)
| CharacterGet (id : Value)                   (* base.character.get(id) *)
| Fetch (url method body : string)            (* fetch(url, init) *)
| IpfsFetch (uri : string)                    (* ipfsFetch(uri) *)
| LoggerError (msg : string).                 (* Logger.error(msg) *)

(** The calls made so far, oldest first. *)
Definition History : Type := list Effect.

(** The collaborators.  Every answer may depend on the calls made before
    it, so that a failure can be transient.  The constants and predicates
    that the source imports from files that are not under src/ are fields
    too. *)
Record Env : Type := mkEnv {
  NIL_ADDRESS : Address;
  isAddress : string -> bool;
  deploymentNetworkId : Z;
  currentNetworkId : History -> Z;
  switchNetwork : History -> Z -> bool;
  submit : History -> CallSpec -> Error + string;
  waitForReceipt : History -> string -> Error + Receipt.t;
  getReceipt : History -> string -> Error + Receipt.t;
  readContract : History -> CallSpec -> Error + Value;
  characterGet : History -> Value -> Error + Result;
  httpFetch : History -> string -> string -> string -> Error + string;
  ipfsFetch : History -> string -> Error + string;
  isIpfsUrl : string -> bool;                 (* @crossbell/ipfs-fetch *)
  isIpfs_url : string -> bool;                (* isIpfs.url of is-ipfs *)
  JSON_parse : string -> option Value;
  JSON_stringify : Value -> string
}.

(** An asynchronous method: from the collaborators and the calls made
    before it, its outcome and the calls it made itself, oldest first. *)
Definition M (A : Type) : Type := Env -> History -> (Error + A) * list Effect.

Definition ret {A} (a : A) : M A := fun _ _ => (inr a, []).

Definition throw {A} (e : Error) : M A := fun _ _ => (inl e, []).

Definition bind {A B} (m : M A) (k : A -> M B) : M B :=
  fun env h =>
    match m env h with
    | (inl e, es) => (inl e, es)
    | (inr a, es) =>
      match k a env (h ++ es) with
      | (r, es') => (r, es ++ es')
      end
    end.

Notation "x <- m ;; k" := (bind m (fun x => k))
  (at level 61, m at next level, right associativity).
Notation "m ;;; k" := (bind m (fun _ => k))
  (at level 61, right associativity).

(** [try { m } catch (e) { handler e }] *)
Definition try_catch {A} (m : M A) (handler : Error -> M A) : M A :=
  fun env h =>
    match m env h with
    | (inl e, es) =>
      match handler e env (h ++ es) with
      | (r, es') => (r, es ++ es')
      end
    | (inr a, es) => (inr a, es)
    end.

Definition liftE {A} (r : Error + A) : M A := fun _ _ => (r, []).

Definition ask {A} (f : Env -> A) : M A := fun env _ => (inr (f env), []).

(** Make the call [e] and take the collaborator's answer to it. *)
Definition perform {A} (e : Effect) (answer : Env -> History -> Error + A)
  : M A :=
  fun env h => (answer env h, [e]).

(** [await Promise.all(l.map(f))]: every call is started, in the order of
    the list, whether an earlier one fails or not; the result holds every
    answer when all of them return, and is the error of the first call
    that failed otherwise. *)
Fixpoint promiseAll {A B} (f : A -> M B) (l : list A) : M (list B) :=
  match l with
  | [] => ret []
  | a :: rest =>
    fun env h =>
      match f a env h with
      | (r, es) =>
        match promiseAll f rest env (h ++ es) with
        | (rs, es') =>
          (match r, rs with
           | inl e, _ => inl e
           | inr _, inl e => inl e
           | inr b, inr bs => inr (b :: bs)
           end, es ++ es')
        end
      end
  end.

Fixpoint forEachM {A} (f : A -> M unit) (l : list A) : M unit :=
  match l with
  | [] => ret tt
  | a :: rest => f a ;;; forEachM f rest
  end.

(** A [TypeError], as reading a property of [undefined] raises. *)
Definition TypeError {A} : M A := throw (JsError "TypeError").

Definition asArray (v : Value) : M (list Value) :=
  match v with
  | VArray items => ret items
  | _ => TypeError
  end.

(** ** Ipfs: the content resolver (src/src/ipfs/index.ts) *)

(** [retry(fn, { retries })] of async-retry, a dependency of the package:
    [fn] is run, and run again each time it throws, at most [retries] more
    times; when the last run throws, its error is thrown.  The delays between
    the runs are not modelled. *)
Fixpoint retry {A} (fn : M A) (retries : nat) : M A :=
  match retries with
  | O => fn
  | S n => try_catch fn (fun _ => retry fn n)
  end.

(** The global [fetch(url, { method, body })], awaited for its body text. *)
Definition fetch (url method body : string) : M string :=
  perform (Fetch url method body)
          (fun env h => httpFetch env h url method body).

(** [JSON.parse(text)], a [SyntaxError] on malformed text. *)
Definition JSONparse (text : string) : M Value :=
  parsed <- ask (fun env => JSON_parse env text) ;;
  match parsed with
  | Some v => ret v
  | None => throw (JsError "SyntaxError")
  end.

Module Ipfs.

(** [metadataOrUri: T | string] *)
Inductive MetadataOrUri : Type :=
| Uri (uri : string)
| Metadata (metadata : Value).

Record Parsed : Type := mkParsed {
  metadata : Value;
  uri : string
}.

Definition uploadJson (json : Value) : M Value :=
  retry
    (body <- ask (fun env => JSON_stringify env json) ;;
     text <- fetch "https://ipfs-relay.crossbell.io/json" "POST" body ;;
     res <- JSONparse text ;;
     ret res)
    3.

Definition metadataToUri (metadata : Value) : M string :=
  res <- uploadJson metadata ;;
  match get "url" res with
  | VString url =>
    if prefix "ipfs://" url then ret url
    else throw (JsError "upload to IPFS failed")
  | VUndefined | VNull => throw (JsError "upload to IPFS failed")
  | _ => TypeError
  end.

Definition uriToMetadata (uri : string) : M Value :=
  ipfs <- ask (fun env => isIpfsUrl env uri) ;;
  if ipfs then
    valid <- ask (fun env => isIpfs_url env uri) ;;
    if negb valid then
      perform (LoggerError ("Wrong IPFS url: " ++ uri)) (fun _ _ => inr tt) ;;;
      ret VUndefined
    else
      res <- perform (IpfsFetch uri) (fun env h => ipfsFetch env h uri) ;;
      try_catch (JSONparse res)
        (fun _ => throw (JsError ("Failed to parse metadata from uri: "
                                  ++ uri)))
  else
    (* [res] is still [undefined] in the handler when [fetch] threw *)
    res <- try_catch (fetch uri "GET" "")
             (fun _ => throw (JsError ("Failed to fetch metadata from uri: "
                                       ++ uri ++ " . Response: undefined"))) ;;
    try_catch (JSONparse res)
      (fun _ => throw (JsError ("Failed to fetch metadata from uri: "
                                ++ uri ++ " . Response: " ++ res))).

Definition parseMetadataOrUri (type : string) (metadataOrUri : MetadataOrUri)
           (retrieveMetadataIfNeeded : bool) : M Parsed :=
  match metadataOrUri with
  | Uri "" => ret {| uri := ""; metadata := VUndefined |}
  | Uri uri =>
    metadata <- (if retrieveMetadataIfNeeded then uriToMetadata uri
                 else ret VUndefined) ;;
    ret {| metadata := metadata; uri := uri |}
  | Metadata metadata =>
    let metadata :=
      if negb (truthy (get "type" metadata))
      then set "type" (VString type) metadata else metadata in
    uri <- metadataToUri metadata ;;
    ret {| metadata := metadata; uri := uri |}
  end.

End Ipfs.

(** ** The chain client, as the contract methods call it *)

(** [contract.write.f(args, overrides)], the hash of the submitted call. *)
Definition write (c : ContractName) (f : string) (a : list Value)
           (ov : Value) : M string :=
  perform (Submit (mkCall c f a ov))
          (fun env h => submit env h (mkCall c f a ov)).

(** [contract.read.f(args, overrides)] *)
Definition read (c : ContractName) (f : string) (a : list Value)
           (ov : Value) : M Value :=
  perform (ReadContract (mkCall c f a ov))
          (fun env h => readContract env h (mkCall c f a ov)).

Definition waitForTransactionReceipt (hash : string) : M Receipt.t :=
  perform (WaitForReceipt hash) (fun env h => waitForReceipt env h hash).

Definition getTransactionReceipt (hash : string) : M Receipt.t :=
  perform (GetReceipt hash) (fun env h => getReceipt env h hash).

Definition parseLog (logs : list EventRecord) (name : string)
           (throwOnMultipleLogsFound : bool) : M EventRecord :=
  liftE (EventLogMatcher.parseLog logs name throwOnMultipleLogsFound).

(** [pad(toHex(linkType), { dir: 'right' })] *)
Definition padToHex (linkType : Utf8.ustring) : M Value :=
  b <- liftE (AddressCodec.encodeLinkType linkType) ;; ret (VHex b).

(** Modelled from the spec: [validateAddress] of ../../utils is not under
    src/; an address that is not well formed is [InvalidAddress]. *)
Definition validateAddress (address : Address) : M unit :=
  ok <- ask (fun env => isAddress env address) ;;
  if ok then ret tt else throw InvalidAddress.

(** Modelled from the spec: the decorator [autoSwitchMainnet] of
    ../decorators is not under src/.  Section 4.4: when the active network
    is not the deployment network a switch is triggered, the method runs
    once the switch succeeds, and a rejected switch is [WrongNetwork]. *)
Definition autoSwitchMainnet {A} (method : M A) : M A :=
  current <- perform CurrentNetworkId
                     (fun env h => inr (currentNetworkId env h)) ;;
  expected <- ask deploymentNetworkId ;;
  if current =? expected then method
  else
    ok <- perform (SwitchNetwork expected)
                  (fun env h => inr (switchNetwork env h expected)) ;;
    if ok then method else throw WrongNetwork.

(** [v ?? d] *)
Definition coalesce (v d : Value) : Value :=
  match v with
  | VUndefined | VNull => d
  | _ => v
  end.

(** A parameter [v = d] with a default. *)
Definition defaultTo (v d : Value) : Value :=
  match v with
  | VUndefined => d
  | _ => v
  end.

(** ** LinkContract (src/unnamed/part_003, the revision on the viem client)

    A [Numberish] argument is taken as the integer it denotes, so
    [BigInt(x)] does not throw.  An optional or defaulted argument is a
    [Value], [VUndefined] when the caller leaves it out. *)

Module LinkContract.

Definition linkCharacter (fromCharacterId : Z) (toCharacterId : Z)
           (linkType : Utf8.ustring) (data : Value)
           (overrides : Value) : M Result :=
  autoSwitchMainnet
    (linkType' <- padToHex linkType ;;
     NIL <- ask NIL_ADDRESS ;;
     hash <- write Entry "linkCharacter"
       [VObject
          [("fromCharacterId", BigInt fromCharacterId);
           ("toCharacterId", BigInt toCharacterId);
           ("linkType", linkType');
           ("data", coalesce data (VString NIL))]]
       overrides ;;
     receipt <- waitForTransactionReceipt hash ;;
     parser <- parseLog (Receipt.logs receipt) "LinkCharacter" true ;;
     ret {| data := lookup_field "linklistId" (args parser);
            transactionHash := Some (Receipt.transactionHash receipt) |}).

Definition linkCharactersInBatch (fromCharacterId : Z) (toCharacterIds : list Z)
           (toAddresses : list Address) (linkType : Utf8.ustring) (data : Value)
           (overrides : Value) : M Result :=
  autoSwitchMainnet
    (forEachM (fun address => validateAddress address) toAddresses ;;;
     linkType' <- padToHex linkType ;;
     NIL <- ask NIL_ADDRESS ;;
     hash <- write Periphery "linkCharactersInBatch"
       [VObject
          [("fromCharacterId", BigInt fromCharacterId);
           ("toCharacterIds", VArray (map (fun id => BigInt id) toCharacterIds));
           ("toAddresses", VArray (map VString toAddresses));
           ("linkType", linkType');
           ("data", coalesce data
                      (VArray (map (fun _ => VString NIL) toCharacterIds)))]]
       overrides ;;
     receipt <- waitForTransactionReceipt hash ;;
     log <- parseLog (Receipt.logs receipt) "LinkCharacter" false ;;
     ret {| data := lookup_field "linklistId" (args log);
            transactionHash := Some (Receipt.transactionHash receipt) |}).

Definition getLinklistIdByTransaction (hash : string) : M Result :=
  receipt <- getTransactionReceipt hash ;;
  parser <- parseLog (Receipt.logs receipt) "LinkCharacter" true ;;
  ret {| data := lookup_field "linklistId" (args parser);
         transactionHash := None |}.

Definition createThenLinkCharacter (fromCharacterId : Z) (toAddress : Address)
           (linkType : Utf8.ustring) (overrides : Value) : M Result :=
  autoSwitchMainnet
    (validateAddress toAddress ;;;
     linkType' <- padToHex linkType ;;
     hash <- write Entry "createThenLinkCharacter"
       [VObject
          [("fromCharacterId", BigInt fromCharacterId);
           ("to", VString toAddress);
           ("linkType", linkType')]]
       overrides ;;
     receipt <- waitForTransactionReceipt hash ;;
     createCharacterParser <-
       parseLog (Receipt.logs receipt) "CharacterCreated" true ;;
     linkCharacterParser <-
       parseLog (Receipt.logs receipt) "LinkCharacter" true ;;
     ret {| data :=
              VObject
                [("toCharacterId",
                  lookup_field "characterId" (args createCharacterParser));
           ("linklistId",
                  lookup_field "linklistId" (args linkCharacterParser))];
            transactionHash := Some (Receipt.transactionHash receipt) |}).

Definition unlinkCharacter (fromCharacterId : Z) (toCharacterId : Z)
           (linkType : Utf8.ustring)
           (overrides : Value) : M Result :=
  autoSwitchMainnet
    (linkType' <- padToHex linkType ;;
     hash <- write Entry "unlinkCharacter"
       [VObject
          [("fromCharacterId", BigInt fromCharacterId);
           ("toCharacterId", BigInt toCharacterId);
           ("linkType", linkType')]]
       overrides ;;
     receipt <- waitForTransactionReceipt hash ;;
     ret {| data := VUndefined;
            transactionHash := Some (Receipt.transactionHash receipt) |}).

Definition getLinkingCharacterIds (fromCharacterId : Z)
           (linkType : Utf8.ustring) (overrides : Value) : M Result :=
  linkType' <- padToHex linkType ;;
  linkList <- read Periphery "getLinkingCharacterIds"
                [BigInt fromCharacterId; linkType'] overrides ;;
  links <- asArray linkList ;;
  ret {| data := VArray (map (fun link => link) links);
         transactionHash := None |}.

Definition getLinkingCharacters (fromCharacterId : Z)
           (linkType : Utf8.ustring) (overrides : Value) : M Result :=
  linkType' <- padToHex linkType ;;
  ids <- read Periphery "getLinkingCharacterIds"
           [BigInt fromCharacterId; linkType'] overrides ;;
  ids' <- asArray ids ;;
  characters <-
    promiseAll (fun id => perform (CharacterGet id)
                                  (fun env h => characterGet env h id)) ids' ;;
  ret {| data := VArray (map (fun character => data character) characters);
         transactionHash := None |}.

Definition linkAddress (fromCharacterId : Z) (toAddress : Address)
           (linkType : Utf8.ustring) (data : Value)
           (overrides : Value) : M Result :=
  autoSwitchMainnet
    (linkType' <- padToHex linkType ;;
     NIL <- ask NIL_ADDRESS ;;
     hash <- write Entry "linkAddress"
       [VObject
          [("fromCharacterId", BigInt fromCharacterId);
           ("ethAddress", VString toAddress);
           ("linkType", linkType');
           ("data", defaultTo data (VString NIL))]]
       overrides ;;
     receipt <- waitForTransactionReceipt hash ;;
     parser <- parseLog (Receipt.logs receipt) "LinkAddress" true ;;
     ret {| data := lookup_field "linklistId" (args parser);
            transactionHash := Some (Receipt.transactionHash receipt) |}).

Definition unlinkAddress (fromCharacterId : Z) (toAddress : Address)
           (linkType : Utf8.ustring)
           (overrides : Value) : M Result :=
  autoSwitchMainnet
    (linkType' <- padToHex linkType ;;
     hash <- write Entry "unlinkAddress"
       [VObject
          [("fromCharacterId", BigInt fromCharacterId);
           ("ethAddress", VString toAddress);
           ("linkType", linkType')]]
       overrides ;;
     receipt <- waitForTransactionReceipt hash ;;
     ret {| data := VUndefined;
            transactionHash := Some (Receipt.transactionHash receipt) |}).

Definition linkAnyUri (fromCharacterId : Z) (toUri : string)
           (linkType : Utf8.ustring) (data : Value)
           (overrides : Value) : M Result :=
  autoSwitchMainnet
    (linkType' <- padToHex linkType ;;
     NIL <- ask NIL_ADDRESS ;;
     hash <- write Entry "linkAnyUri"
       [VObject
          [("fromCharacterId", BigInt fromCharacterId);
           ("toUri", VString toUri);
           ("linkType", linkType');
           ("data", defaultTo data (VString NIL))]]
       overrides ;;
     receipt <- waitForTransactionReceipt hash ;;
     parser <- parseLog (Receipt.logs receipt) "LinkAnyUri" true ;;
     ret {| data := lookup_field "linklistId" (args parser);
            transactionHash := Some (Receipt.transactionHash receipt) |}).

Definition unlinkAnyUri (fromCharacterId : Z) (toUri : string)
           (linkType : Utf8.ustring)
           (overrides : Value) : M Result :=
  autoSwitchMainnet
    (linkType' <- padToHex linkType ;;
     hash <- write Entry "unlinkAnyUri"
       [VObject
          [("fromCharacterId", BigInt fromCharacterId);
           ("toUri", VString toUri);
           ("linkType", linkType')]]
       overrides ;;
     receipt <- waitForTransactionReceipt hash ;;
     ret {| data := VUndefined;
            transactionHash := Some (Receipt.transactionHash receipt) |}).

Definition linkErc721 (fromCharacterId : Z) (toContractAddress : Address)
           (toTokenId : Z) (linkType : Utf8.ustring) (data : Value)
           (overrides : Value) : M Result :=
  autoSwitchMainnet
    (linkType' <- padToHex linkType ;;
     NIL <- ask NIL_ADDRESS ;;
     hash <- write Entry "linkERC721"
       [VObject
          [("fromCharacterId", BigInt fromCharacterId);
           ("tokenAddress", VString toContractAddress);
           ("tokenId", BigInt toTokenId);
           ("linkType", linkType');
           ("data", defaultTo data (VString NIL))]]
       overrides ;;
     receipt <- waitForTransactionReceipt hash ;;
     parser <- parseLog (Receipt.logs receipt) "LinkAnyUri" true ;;
     ret {| data := lookup_field "linklistId" (args parser);
            transactionHash := Some (Receipt.transactionHash receipt) |}).

Definition unlinkErc721 (fromCharacterId : Z) (toContractAddress : Address)
           (toTokenId : Z) (linkType : Utf8.ustring)
           (overrides : Value) : M Result :=
  autoSwitchMainnet
    (linkType' <- padToHex linkType ;;
     hash <- write Entry "unlinkERC721"
       [VObject
          [("fromCharacterId", BigInt fromCharacterId);
           ("tokenAddress", VString toContractAddress);
           ("tokenId", BigInt toTokenId);
           ("linkType", linkType')]]
       overrides ;;
     receipt <- waitForTransactionReceipt hash ;;
     ret {| data := VUndefined;
            transactionHash := Some (Receipt.transactionHash receipt) |}).

Definition linkNote (fromCharacterId : Z) (toCharacterId : Z) (toNoteId : Z)
           (linkType : Utf8.ustring) (data : Value)
           (overrides : Value) : M Result :=
  autoSwitchMainnet
    (linkType' <- padToHex linkType ;;
     NIL <- ask NIL_ADDRESS ;;
     hash <- write Entry "linkNote"
       [VObject
          [("fromCharacterId", BigInt fromCharacterId);
           ("toCharacterId", BigInt toCharacterId);
           ("toNoteId", BigInt toNoteId);
           ("linkType", linkType');
           ("data", coalesce data (VString NIL))]]
       overrides ;;
     receipt <- waitForTransactionReceipt hash ;;
     parser <- parseLog (Receipt.logs receipt) "LinkNote" true ;;
     ret {| data := lookup_field "linklistId" (args parser);
            transactionHash := Some (Receipt.transactionHash receipt) |}).

Definition unlinkNote (fromCharacterId : Z) (toCharacterId : Z) (toNoteId : Z)
           (linkType : Utf8.ustring)
           (overrides : Value) : M Result :=
  autoSwitchMainnet
    (linkType' <- padToHex linkType ;;
     hash <- write Entry "unlinkNote"
       [VObject
          [("fromCharacterId", BigInt fromCharacterId);
           ("toCharacterId", BigInt toCharacterId);
           ("toNoteId", BigInt toNoteId);
           ("linkType", linkType')]]
       overrides ;;
     receipt <- waitForTransactionReceipt hash ;;
     ret {| data := VUndefined;
            transactionHash := Some (Receipt.transactionHash receipt) |}).

Definition linkLinklist (fromCharacterId : Z) (toLinkListId : Z)
           (linkType : Utf8.ustring) (data : Value)
           (overrides : Value) : M Result :=
  autoSwitchMainnet
    (linkType' <- padToHex linkType ;;
     NIL <- ask NIL_ADDRESS ;;
     hash <- write Entry "linkLinklist"
       [VObject
          [("fromCharacterId", BigInt fromCharacterId);
           ("toLinkListId", BigInt toLinkListId);
           ("linkType", linkType');
           ("data", defaultTo data (VString NIL))]]
       overrides ;;
     receipt <- waitForTransactionReceipt hash ;;
     parser <- parseLog (Receipt.logs receipt) "LinkNote" true ;;
     ret {| data := lookup_field "linklistId" (args parser);
            transactionHash := Some (Receipt.transactionHash receipt) |}).

Definition unlinkLinklist (fromCharacterId : Z) (toLinklistId : Z)
           (linkType : Utf8.ustring)
           (overrides : Value) : M Result :=
  autoSwitchMainnet
    (linkType' <- padToHex linkType ;;
     hash <- write Entry "unlinkLinklist"
       [VObject
          [("fromCharacterId", BigInt fromCharacterId);
           ("toLinkListId", BigInt toLinklistId);
           ("linkType", linkType')]]
       overrides ;;
     receipt <- waitForTransactionReceipt hash ;;
     ret {| data := VUndefined;
            transactionHash := Some (Receipt.transactionHash receipt) |}).

Definition setLinklistUri (fromCharacterId : Z) (uri : string) : M Result :=
  tx <- write Entry "setLinklistUri"
          [BigInt fromCharacterId; VString uri] VUndefined ;;
  receipt <- waitForTransactionReceipt tx ;;
  ret {| data := VUndefined;
         transactionHash := Some (Receipt.transactionHash receipt) |}.

Definition getLinklistUri (fromCharacterId : Z) : M Result :=
  uri <- read Entry "getLinklistUri" [BigInt fromCharacterId] VUndefined ;;
  ret {| data := uri; transactionHash := None |}.

End LinkContract.

(** ** Runs of a method *)

Definition isWait (e : Effect) : bool :=
  match e with
  | WaitForReceipt _ => true
  | _ => false
  end.

Definition isSubmit (e : Effect) : bool :=
  match e with
  | Submit _ => true
  | _ => false
  end.

(** The last call of the run [es], started after [h], was to wait for a
    receipt, and the chain client answered it with [receipt]. *)
Definition awaited (env : Env) (h : History) (es : list Effect)
           (receipt : Receipt.t) : Prop :=
  exists es1 hash,
    es = es1 ++ [WaitForReceipt hash] /\
    waitForReceipt env (h ++ es1) hash = inr receipt.

(** [m] never waits for a receipt. *)
Definition noWait {A} (m : M A) : Prop :=
  forall env h, existsb isWait (snd (m env h)) = false.

(** [m] never submits a call. *)
Definition noSubmit {A} (m : M A) : Prop :=
  forall env h, existsb isSubmit (snd (m env h)) = false.

(** [m] makes no call at all and returns or throws [r]. *)
Definition pureOutcome {A} (m : M A) (r : Error + A) : Prop :=
  forall env h, m env h = (r, []).

(** A run of [m] either ends by obtaining a receipt, and its outcome is then
    [post] of that receipt, or it throws without having obtained one. *)
Definition writesThen (m : M Result) (post : Receipt.t -> Error + Result)
  : Prop :=
  forall env h outcome es,
    m env h = (outcome, es) ->
    (exists receipt, awaited env h es receipt /\ outcome = post receipt) \/
    ((forall receipt, ~ awaited env h es receipt) /\
     exists err, outcome = inl err).

(** A run of [m] that returns has submitted a call. *)
Definition submits {A} (m : M A) : Prop :=
  forall env h a es, m env h = (inr a, es) -> existsb isSubmit es = true.

(** The envelope of a mutating operation: a run that returns has submitted
    a call and obtained a receipt, and the result carries the hash of that
    receipt. *)
Definition carriesReceiptHash (m : M Result) : Prop :=
  forall env h r es,
    m env h = (inr r, es) ->
    existsb isSubmit es = true /\
    exists receipt,
      awaited env h es receipt /\
      transactionHash r = Some (Receipt.transactionHash receipt).

(** The envelope of a read-only operation: a run that returns has submitted
    nothing, and the result has no [transactionHash]. *)
Definition carriesNoHash (m : M Result) : Prop :=
  forall env h r es,
    m env h = (inr r, es) ->
    existsb isSubmit es = false /\ transactionHash r = None.

(** A run of [m] that returns gives [undefined] as its data. *)
Definition dataUndefined (m : M Result) : Prop :=
  forall env h r es, m env h = (inr r, es) -> data r = VUndefined.

(** What a link operation makes of the receipt: the [linklistId] argument of
    the event that [parseLog] gives for [name], with the receipt's hash. *)
Definition linklistIdOf (name : string) (throwOnMultipleLogsFound : bool)
           (receipt : Receipt.t) : Error + Result :=
  match EventLogMatcher.parseLog (Receipt.logs receipt) name
                                 throwOnMultipleLogsFound with
  | inl err => inl err
  | inr parser =>
    inr {| data := lookup_field "linklistId" (args parser);
           transactionHash := Some (Receipt.transactionHash receipt) |}
  end.

(** The chain client [env] is on the deployment network, accepts every
    call that is submitted to it and answers every wait with a receipt. *)
Definition accepting (env : Env) : Prop :=
  (forall h, currentNetworkId env h = deploymentNetworkId env) /\
  (forall h c, exists hash, submit env h c = inr hash) /\
  (forall h hash, exists receipt, waitForReceipt env h hash = inr receipt).

(** Every receipt that [env] answers a wait with holds exactly [n] events
    named [name]. *)
Definition emits (env : Env) (name : string) (n : nat) : Prop :=
  forall h hash receipt,
    waitForReceipt env h hash = inr receipt ->
    EventLogMatcher.countNamed name (Receipt.logs receipt) = n.

(** Every receipt that [env] answers a wait with holds an event named
    [name]. *)
Definition emitsSome (env : Env) (name : string) : Prop :=
  forall h hash receipt,
    waitForReceipt env h hash = inr receipt ->
    (1 <= EventLogMatcher.countNamed name (Receipt.logs receipt))%nat.

(** The chain client [env] answers every read of a contract with an array,
    every request for a character with one, and every request for the
    receipt of a transaction with a receipt that holds one [LinkCharacter]
    event. *)
Definition answering (env : Env) : Prop :=
  (forall h c, exists items, readContract env h c = inr (VArray items)) /\
  (forall h id, exists character, characterGet env h id = inr character) /\
  (forall h hash, exists receipt,
      getReceipt env h hash = inr receipt /\
      EventLogMatcher.countNamed "LinkCharacter" (Receipt.logs receipt)
      = 1%nat).

(** Started after [h] on [env], [m] submits a call, ends by obtaining a
    receipt and returns a result that carries the hash of that receipt. *)
Definition returnsReceiptHash (env : Env) (h : History) (m : M Result)
  : Prop :=
  exists r es receipt,
    m env h = (inr r, es) /\
    existsb isSubmit es = true /\
    awaited env h es receipt /\
    transactionHash r = Some (Receipt.transactionHash receipt).

(** Started after [h] on [env], [m] returns a result without a
    [transactionHash], and has submitted nothing. *)
Definition returnsNoHash (env : Env) (h : History) (m : M Result) : Prop :=
  exists r es,
    m env h = (inr r, es) /\
    existsb isSubmit es = false /\
    transactionHash r = None.

(** Started after [h] on [env], [m] submits a call, ends by obtaining a
    receipt and then gives what [post] makes of that receipt. *)
Definition submitsThen (env : Env) (h : History) (m : M Result)
           (post : Receipt.t -> Error + Result) : Prop :=
  exists es receipt,
    m env h = (post receipt, es) /\
    existsb isSubmit es = true /\
    awaited env h es receipt.

(** What an unlink operation and [setLinklistUri] make of the receipt: no
    data, with the receipt's hash. *)
Definition receiptOnly (receipt : Receipt.t) : Error + Result :=
  inr {| data := VUndefined;
         transactionHash := Some (Receipt.transactionHash receipt) |}.

(** ** Concrete collaborators, for the examples *)

Module Scenario.

Definition follow : Utf8.ustring := Utf8.of_string "follow".

(** The letter a followed by the character U+0000. *)
Definition a_nul : Utf8.ustring := [97; 0].

Definition linkEvent (name : string) (linklistId : Z) : EventRecord :=
  {| eventName := name; args := [("linklistId", VBigInt linklistId)] |}.

(** A chain client on the deployment network that accepts every call and
    answers every receipt request with the events [logs]; a content store
    whose every request fails. *)
Definition chain (logs : list EventRecord) : Env :=
  {| NIL_ADDRESS := "0x0000000000000000000000000000000000000000";
     isAddress := fun a => (String.length a =? 42)%nat && prefix "0x" a;
     deploymentNetworkId := 3737;
     currentNetworkId := fun _ => 3737;
     switchNetwork := fun _ _ => true;
     submit := fun _ _ => inr "0xabc";
     waitForReceipt := fun _ hash => inr (Receipt.mk hash logs);
     getReceipt := fun _ hash => inr (Receipt.mk hash logs);
     readContract := fun _ _ => inr (VArray []);
     characterGet :=
       fun _ _ => inr {| data := VUndefined; transactionHash := None |};
     httpFetch := fun _ _ _ _ => inl (JsError "fetch failed");
     ipfsFetch := fun _ _ => inl (JsError "fetch failed");
     isIpfsUrl := fun u => prefix "ipfs://" u;
     isIpfs_url := fun u => prefix "ipfs://Qm" u;
     JSON_parse := fun _ => None;
     JSON_stringify := fun _ => "{}" |}.

(** A receipt of a batch call that linked two characters. *)
Definition twoLinks : list EventRecord :=
  [linkEvent "LinkCharacter" 7; linkEvent "LinkCharacter" 9].

(** Three target characters and a [data] list of two entries. *)
Definition threeTargets : list Z := [2; 3; 4].

Definition twoData : Value :=
  VArray [VString "0x0000000000000000000000000000000000000001";
          VString "0x0000000000000000000000000000000000000002"].

Definition noOverrides : Value := VObject [].

(** A receipt with one event of every name that a link operation looks
    for. *)
Definition everyLink : list EventRecord :=
  [{| eventName := "CharacterCreated"; args := [("characterId", VBigInt 4)] |};
   linkEvent "LinkCharacter" 5; linkEvent "LinkAddress" 6;
   linkEvent "LinkAnyUri" 7; linkEvent "LinkNote" 8].

(** An address of forty hexadecimal digits. *)
Definition someAddress : Address :=
  "0x00000000000000000000000000000000000000aa".

End Scenario.

(** ** Strings, as the older revision of the resolver handles them *)

Fixpoint dropString (n : nat) (s : string) : string :=
  match n, s with
  | O, _ => s
  | S _, EmptyString => EmptyString
  | S n', String _ s' => dropString n' s'
  end.

(** [s.replace(pattern, replacement)] with a string pattern: the first
    occurrence of [pattern] is replaced.  (A replacement without the
    character $ stands for itself.) *)
Fixpoint replace (pattern replacement s : string) : string :=
  if prefix pattern s
  then replacement ++ dropString (String.length pattern) s
  else match s with
       | EmptyString => EmptyString
       | String c s' => String c (replace pattern replacement s')
       end.

(** ** Ipfs, the older revision (src/unnamed/part_005, lines 134 to 230) *)

Module IpfsLegacy.

Definition uploadJson (json : Value) : M Value :=
  body <- ask (fun env => JSON_stringify env json) ;;
  text <- fetch "https://ipfs-relay.crossbell.io/json" "POST" body ;;
  res <- JSONparse text ;;
  ret res.

Definition metadataToUri (metadata : Value) : M string :=
  res <- uploadJson metadata ;;
  match get "url" res with
  | VString url =>
    if prefix "ipfs://" url then ret url
    else throw (JsError "upload to IPFS failed")
  | VUndefined | VNull => throw (JsError "upload to IPFS failed")
  | _ => TypeError
  end.

(** The URL that is fetched: [uri], with a leading ipfs:// rewritten to the
    gateway. *)
Definition gatewayUrl (uri : string) : string :=
  if prefix "ipfs://" uri
  then replace "ipfs://" "https://cf-ipfs.com/ipfs/" uri
  else uri.

Definition uriToMetadata (uri : string) : M Value :=
  let uri := gatewayUrl uri in
  (* [res] is still [undefined] in the handler when [fetch] threw *)
  res <- try_catch (fetch uri "GET" "")
           (fun _ => throw (JsError ("Failed to fetch metadata from uri: "
                                     ++ uri ++ ". Response: undefined"))) ;;
  try_catch (JSONparse res)
    (fun _ => throw (JsError ("Failed to fetch metadata from uri: "
                              ++ uri ++ ". Response: " ++ res))).

Definition parseMetadataOrUri (type : string)
           (metadataOrUri : Ipfs.MetadataOrUri)
           (retrieveMetadataIfNeeded : bool) : M Ipfs.Parsed :=
  match metadataOrUri with
  | Ipfs.Uri "" => ret {| Ipfs.uri := ""; Ipfs.metadata := VUndefined |}
  | Ipfs.Uri uri =>
    metadata <- (if retrieveMetadataIfNeeded then uriToMetadata uri
                 else ret VUndefined) ;;
    ret {| Ipfs.metadata := metadata; Ipfs.uri := uri |}
  | Ipfs.Metadata metadata =>
    let metadata :=
      if negb (truthy (get "type" metadata))
      then set "type" (VString type) metadata else metadata in
    uri <- metadataToUri metadata ;;
    ret {| Ipfs.metadata := metadata; Ipfs.uri := uri |}
  end.

End IpfsLegacy.

(** ** NoteContract (src/src/contract/subcontracts/note.ts, on the ethers
    client)

    [this.contract.f(args)] submits the call and gives the transaction,
    held here as its hash; [tx.wait()] waits for its receipt.  The ids are
    strings.  [getNote] is not modelled. *)

Module NoteContract.

Section BigNumber.

(** [x.toNumber().toString()] on an event argument, a method of the ethers
    library: what it gives, or the error it throws. *)
Variable toNumberToString : Value -> Error + Value.

Definition postNote (profileId : string)
           (metadataOrUri : Ipfs.MetadataOrUri) : M Result :=
  parsed <- Ipfs.parseMetadataOrUri "note" metadataOrUri false ;;
  NIL <- ask NIL_ADDRESS ;;
  tx <- write Entry "postNote"
    [VObject
       [("profileId", VString profileId);
        ("contentUri", VString (Ipfs.uri parsed));
        ("linkModule", VString NIL);
        ("linkModuleInitData", VString NIL);
        ("mintModule", VString NIL);
        ("mintModuleInitData", VString NIL)]]
    VUndefined ;;
  receipt <- waitForTransactionReceipt tx ;;
  log <- parseLog (Receipt.logs receipt) "postNote" true ;;
  noteId <- liftE (toNumberToString (lookup_field "noteId" (args log))) ;;
  ret {| data := VObject [("noteId", noteId)];
         transactionHash := Some (Receipt.transactionHash receipt) |}.

End BigNumber.

Definition mintNote (profileId noteId : string) (toAddress : Address)
  : M Result :=
  NIL <- ask NIL_ADDRESS ;;
  tx <- write Entry "mintNote"
    [VObject
       [("profileId", VString profileId);
        ("noteId", VString noteId);
        ("to", VString toAddress);
        ("mintModuleData", VString NIL)]]
    VUndefined ;;
  receipt <- waitForTransactionReceipt tx ;;
  ret {| data := VUndefined;
         transactionHash := Some (Receipt.transactionHash receipt) |}.

End NoteContract.

(** The call that [postNote] submits for the content URI [uri]. *)
Definition postNoteCall (env : Env) (profileId uri : string) : CallSpec :=
  mkCall Entry "postNote"
    [VObject
       [("profileId", VString profileId);
        ("contentUri", VString uri);
        ("linkModule", VString (NIL_ADDRESS env));
        ("linkModuleInitData", VString (NIL_ADDRESS env));
        ("mintModule", VString (NIL_ADDRESS env));
        ("mintModuleInitData", VString (NIL_ADDRESS env))]]
    VUndefined.

(** ** More about runs *)

(** A call of the network guard. *)
Definition isNetwork (e : Effect) : bool :=
  match e with
  | CurrentNetworkId | SwitchNetwork _ => true
  | _ => false
  end.

(** A call to a contract, to write or to read. *)
Definition isContractCall (e : Effect) : bool :=
  match e with
  | Submit _ | ReadContract _ => true
  | _ => false
  end.

(** A request to the content store. *)
Definition isStoreRequest (e : Effect) : bool :=
  match e with
  | Fetch _ _ _ | IpfsFetch _ => true
  | _ => false
  end.

(** No run of [m] makes a call that [p] holds of. *)
Definition never {A} (p : Effect -> bool) (m : M A) : Prop :=
  forall env h, existsb p (snd (m env h)) = false.

(** No run of [m] makes a call. *)
Definition callsNothing {A} (m : M A) : Prop :=
  forall env h, snd (m env h) = [].

(** Every run of [m] throws without having made a call. *)
Definition throwsAtOnce {A} (m : M A) : Prop :=
  forall env h, exists err, m env h = (inl err, []).

(** Every run of [m] starts with the network guard. *)
Definition guarded {A} (m : M A) : Prop :=
  forall env h, hd_error (snd (m env h)) = Some CurrentNetworkId.

(** Every run of [m] throws, and calls nothing but the network guard. *)
Definition rejectedBeforeCalls {A} (m : M A) : Prop :=
  forall env h,
    (exists err, fst (m env h) = inl err) /\
    forallb isNetwork (snd (m env h)) = true.

(** No run of [m] submits more than one call or waits for more than one
    receipt. *)
Definition submitsAtMostOnce {A} (m : M A) : Prop :=
  forall env h,
    (length (filter isSubmit (snd (m env h))) <= 1)%nat /\
    (length (filter isWait (snd (m env h))) <= 1)%nat.

(** What [createThenLinkCharacter] makes of the receipt: the character id
    of the [CharacterCreated] event and the linklist id of the
    [LinkCharacter] event, matched in that order. *)
Definition createdAndLinkedOf (receipt : Receipt.t) : Error + Result :=
  match EventLogMatcher.parseLog (Receipt.logs receipt)
                                 "CharacterCreated" true with
  | inl err => inl err
  | inr created =>
    match EventLogMatcher.parseLog (Receipt.logs receipt)
                                   "LinkCharacter" true with
    | inl err => inl err
    | inr linked =>
      inr {| data :=
               VObject
                 [("toCharacterId", lookup_field "characterId" (args created));
                  ("linklistId", lookup_field "linklistId" (args linked))];
             transactionHash := Some (Receipt.transactionHash receipt) |}
    end
  end.

(** The answers of [env] to [character.get] of each of [ids], asked in
    that order after [h]. *)
Fixpoint charactersOf (env : Env) (h : History) (ids : list Value)
  : list (Error + Result) :=
  match ids with
  | [] => []
  | id :: rest =>
    characterGet env h id :: charactersOf env (h ++ [CharacterGet id]) rest
  end.

(** Every answer when none is an error, the first error otherwise. *)
Fixpoint firstError {A} (answers : list (Error + A)) : Error + list A :=
  match answers with
  | [] => inr []
  | inl e :: _ => inl e
  | inr a :: rest =>
    match firstError rest with
    | inl e => inl e
    | inr others => inr (a :: others)
    end
  end.


(** ** Concrete content stores, for the examples *)

Module Stores.

(** [env] with the content store replaced. *)
Definition withStore (env : Env)
           (http : History -> string -> string -> string -> Error + string)
           (parse : string -> option Value) : Env :=
  {| NIL_ADDRESS := NIL_ADDRESS env;
     isAddress := isAddress env;
     deploymentNetworkId := deploymentNetworkId env;
     currentNetworkId := currentNetworkId env;
     switchNetwork := switchNetwork env;
     submit := submit env;
     waitForReceipt := waitForReceipt env;
     getReceipt := getReceipt env;
     readContract := readContract env;
     characterGet := characterGet env;
     httpFetch := http;
     ipfsFetch := ipfsFetch env;
     isIpfsUrl := isIpfsUrl env;
     isIpfs_url := isIpfs_url env;
     JSON_parse := parse;
     JSON_stringify := JSON_stringify env |}.

Definition pinned : string :=
  "ipfs://QmTMD6sLA7M4iegKDhbdMPBZ4HLi5fjW27w2J16gqc5Cb7".

(** The JSON texts that the examples parse. *)
Definition parse (text : string) : option Value :=
  if String.eqb text "{url}" then Some (VObject [("url", VString pinned)])
  else if String.eqb text "{http}"
  then Some (VObject [("url", VString "https://example.com/1.json")])
  else if String.eqb text "{}" then Some (VObject [])
  else None.

(** A relay that answers every request with the pinned URL. *)
Definition relay (logs : list EventRecord) : Env :=
  withStore (Scenario.chain logs) (fun _ _ _ _ => inr "{url}") parse.

(** A relay whose first answer is not JSON and whose later answers are. *)
Definition flaky : Env :=
  withStore (Scenario.chain [])
            (fun h _ _ _ =>
               match h with
               | [] => inr "<html>"
               | _ => inr "{url}"
               end)
            parse.

(** A relay that answers with JSON holding a URL that is not an IPFS one. *)
Definition misdirecting : Env :=
  withStore (Scenario.chain []) (fun _ _ _ _ => inr "{http}") parse.

(** A server that answers every request with text that is not JSON. *)
Definition garbled : Env :=
  withStore (Scenario.chain []) (fun _ _ _ _ => inr "<html>") parse.

(** A chain client that is on another network and refuses to switch. *)
Definition elsewhere : Env :=
  {| NIL_ADDRESS := NIL_ADDRESS (Scenario.chain []);
     isAddress := isAddress (Scenario.chain []);
     deploymentNetworkId := 3737;
     currentNetworkId := fun _ => 1;
     switchNetwork := fun _ _ => false;
     submit := submit (Scenario.chain []);
     waitForReceipt := waitForReceipt (Scenario.chain []);
     getReceipt := getReceipt (Scenario.chain []);
     readContract := readContract (Scenario.chain []);
     characterGet := characterGet (Scenario.chain []);
     httpFetch := httpFetch (Scenario.chain []);
     ipfsFetch := ipfsFetch (Scenario.chain []);
     isIpfsUrl := isIpfsUrl (Scenario.chain []);
     isIpfs_url := isIpfs_url (Scenario.chain []);
     JSON_parse := JSON_parse (Scenario.chain []);
     JSON_stringify := JSON_stringify (Scenario.chain []) |}.

(** A URL of an HTTP gateway to IPFS: [http(s)://host/ipfs/...]. *)
Definition isGatewayUrl (u : string) : bool :=
  (prefix "https://" u || prefix "http://" u)
  && match index 0 "/ipfs/" u with
     | Some _ => true
     | None => false
     end.

(** A content store behind an HTTP gateway, which answers every request
    with [answer].  [isIpfs.url] takes the URLs of a gateway only, so that a
    native [ipfs://] URL is a wrong one to it; [isIpfsUrl] takes both a
    native URL that names something and a gateway URL. *)
Definition gateway (answer : Error + string) : Env :=
  {| NIL_ADDRESS := NIL_ADDRESS (Scenario.chain []);
     isAddress := isAddress (Scenario.chain []);
     deploymentNetworkId := 3737;
     currentNetworkId := fun _ => 3737;
     switchNetwork := fun _ _ => true;
     submit := submit (Scenario.chain []);
     waitForReceipt := waitForReceipt (Scenario.chain []);
     getReceipt := getReceipt (Scenario.chain []);
     readContract := readContract (Scenario.chain []);
     characterGet := characterGet (Scenario.chain []);
     httpFetch := fun _ _ _ _ => answer;
     ipfsFetch := fun _ _ => answer;
     isIpfsUrl :=
       fun u => (prefix "ipfs://" u && (7 <? String.length u)%nat)
                || isGatewayUrl u;
     isIpfs_url := isGatewayUrl;
     JSON_parse := parse;
     JSON_stringify := JSON_stringify (Scenario.chain []) |}.

Definition onGateway : string :=
  "https://ipfs.io/ipfs/QmTMD6sLA7M4iegKDhbdMPBZ4HLi5fjW27w2J16gqc5Cb7/1.json".

(** A chain client whose character 1 is linked to the characters 2 and 3,
    and which answers a request for a character with its id as data. *)
Definition linked : Env :=
  {| NIL_ADDRESS := NIL_ADDRESS (Scenario.chain []);
     isAddress := isAddress (Scenario.chain []);
     deploymentNetworkId := 3737;
     currentNetworkId := fun _ => 3737;
     switchNetwork := fun _ _ => true;
     submit := submit (Scenario.chain []);
     waitForReceipt := waitForReceipt (Scenario.chain []);
     getReceipt :=
       fun _ hash =>
         inr (Receipt.mk hash [Scenario.linkEvent "LinkCharacter" 5]);
     readContract := fun _ _ => inr (VArray [VBigInt 2; VBigInt 3]);
     characterGet :=
       fun _ id =>
         inr {| data := VObject [("characterId", id)];
                transactionHash := None |};
     httpFetch := httpFetch (Scenario.chain []);
     ipfsFetch := ipfsFetch (Scenario.chain []);
     isIpfsUrl := isIpfsUrl (Scenario.chain []);
     isIpfs_url := isIpfs_url (Scenario.chain []);
     JSON_parse := JSON_parse (Scenario.chain []);
     JSON_stringify := JSON_stringify (Scenario.chain []) |}.

(** A string of thirty-three letters a. *)
Definition tooLong : Utf8.ustring := repeat 97 33.

(** The decimal text of a small event argument; anything else overflows. *)
Definition toNumberToString (v : Value) : Error + Value :=
  match v with
  | VBigInt 1 => inr (VString "1")
  | VBigInt 2 => inr (VString "2")
  | VBigInt 3 => inr (VString "3")
  | _ => inl (JsError "overflow")
  end.

End Stores.

(** * Properties *)

Module Utf8Facts.
Import Utf8.

Lemma decode_encode_cp (c : Z) (rest : list Z) :
  is_scalar c = true ->
  decode (encode_cp c ++ rest) = option_map (cons c) (decode rest).
Proof.
  unfold is_scalar, encode_cp. intros Hc.
  apply andb_prop in Hc as [Hr Hs]. apply andb_prop in Hr as [H0 H1].
  apply Z.leb_le in H0. apply Z.ltb_lt in H1.
  assert (Hsur : c < 0xD800 \/ 0xE000 <= c).
  { apply negb_true_iff, andb_false_iff in Hs as [Hs | Hs];
      [ apply Z.leb_gt in Hs | apply Z.ltb_ge in Hs ]; lia. }
  clear Hs.
  destruct (Z.ltb_spec c 0x80) as [L1 | L1].
  { cbn [app decode].
    replace ((0 <=? c) && (c <? 0x80)) with true; [reflexivity |].
    symmetry. apply andb_true_intro. split; [apply Z.leb_le | apply Z.ltb_lt]; lia. }
  destruct (Z.ltb_spec c 0x800) as [L2 | L2].
  { pose proof (Z.div_mod c 64 ltac:(lia)) as E.
    pose proof (Z.mod_pos_bound c 64 ltac:(lia)) as B.
    assert (2 <= c / 64 < 32) by lia.
    cbn [app decode]. unfold is_cont.
    repeat match goal with
           | |- context [?a <=? ?b] => destruct (Z.leb_spec a b); try lia
           | |- context [?a <? ?b] => destruct (Z.ltb_spec a b); try lia
           end.
    cbn [andb]. do 2 f_equal. lia. }
  destruct (Z.ltb_spec c 0x10000) as [L3 | L3].
  { pose proof (Z.div_mod c 64 ltac:(lia)) as E.
    pose proof (Z.mod_pos_bound c 64 ltac:(lia)) as B.
    pose proof (Z.div_mod (c / 64) 64 ltac:(lia)) as E'.
    pose proof (Z.mod_pos_bound (c / 64) 64 ltac:(lia)) as B'.
    assert (Hd : c / 4096 = c / 64 / 64)
      by (rewrite Z.div_div by lia; reflexivity).
    assert (0 <= c / 4096 < 16) by lia.
    cbn [app decode]. unfold is_cont, is_scalar.
    repeat match goal with
           | |- context [?a <=? ?b] => destruct (Z.leb_spec a b); try lia
           | |- context [?a <? ?b] => destruct (Z.ltb_spec a b); try lia
           end;
    cbn [andb negb]; try (do 2 f_equal; lia). }
  { pose proof (Z.div_mod c 64 ltac:(lia)) as E.
    pose proof (Z.mod_pos_bound c 64 ltac:(lia)) as B.
    pose proof (Z.div_mod (c / 64) 64 ltac:(lia)) as E'.
    pose proof (Z.mod_pos_bound (c / 64) 64 ltac:(lia)) as B'.
    pose proof (Z.div_mod (c / 4096) 64 ltac:(lia)) as E''.
    pose proof (Z.mod_pos_bound (c / 4096) 64 ltac:(lia)) as B''.
    assert (Hd : c / 4096 = c / 64 / 64)
      by (rewrite Z.div_div by lia; reflexivity).
    assert (Hd' : c / 262144 = c / 4096 / 64)
      by (rewrite Z.div_div by lia; reflexivity).
    assert (0 <= c / 262144 < 8) by lia.
    cbn [app decode]. unfold is_cont, is_scalar.
    repeat match goal with
           | |- context [?a <=? ?b] => destruct (Z.leb_spec a b); try lia
           | |- context [?a <? ?b] => destruct (Z.ltb_spec a b); try lia
           end;
    cbn [andb negb]; try (do 2 f_equal; lia). }
Qed.

End Utf8Facts.

Module CodecFacts.
Import Utf8 AddressCodec.

Lemma decode_encode (s : ustring) :
  well_formed s = true -> decode (encode s) = Some s.
Proof.
  induction s as [| c s IH]; intros Hs; [reflexivity |].
  cbn [well_formed forallb] in Hs. apply andb_prop in Hs as [Hc Hs].
  cbn [encode flat_map]. rewrite Utf8Facts.decode_encode_cp by exact Hc.
  fold (encode s). rewrite (IH Hs). reflexivity.
Qed.

Lemma strip_zeros (n : nat) : strip_trailing_zeros (repeat 0 n) = [].
Proof.
  induction n as [| n IH]; [reflexivity |].
  cbn [repeat]. unfold strip_trailing_zeros in *. cbn [fold_right].
  rewrite IH. reflexivity.
Qed.

Lemma strip_app_zeros (bs : Hex) (n : nat) :
  strip_trailing_zeros (bs ++ repeat 0 n) = strip_trailing_zeros bs.
Proof.
  induction bs as [| b bs IH]; [apply strip_zeros |].
  unfold strip_trailing_zeros in *. cbn [app fold_right]. rewrite IH.
  reflexivity.
Qed.

Lemma strip_id (bs : Hex) :
  last bs 1 <> 0 -> strip_trailing_zeros bs = bs.
Proof.
  induction bs as [| b bs IH]; [reflexivity |].
  intros Hl. unfold strip_trailing_zeros in *. cbn [fold_right].
  destruct bs as [| b' bs'].
  - cbn in *. destruct (Z.eqb_spec b 0); [contradiction | reflexivity].
  - rewrite IH by exact Hl. reflexivity.
Qed.

Lemma encode_cp_last (c : Z) :
  is_scalar c = true -> c <> 0 ->
  encode_cp c <> [] /\ last (encode_cp c) 1 <> 0.
Proof.
  unfold is_scalar, encode_cp. intros Hc Hnz.
  apply andb_prop in Hc as [Hr _]. apply andb_prop in Hr as [H0 _].
  apply Z.leb_le in H0.
  pose proof (Z.mod_pos_bound c 64 ltac:(lia)) as B.
  repeat match goal with
         | |- context [?a <? ?b] => destruct (Z.ltb_spec a b)
         end; cbn [last]; split; try discriminate; lia.
Qed.

Lemma last_app_nonempty (l1 l2 : list Z) (d : Z) :
  l2 <> [] -> last (l1 ++ l2) d = last l2 d.
Proof.
  intros Hne. induction l1 as [| a l1 IH]; [reflexivity |].
  cbn [app]. destruct (l1 ++ l2) eqn:E.
  - apply app_eq_nil in E as [_ E]. contradiction.
  - rewrite <- E in *. cbn [last]. rewrite E at 1. exact IH.
Qed.

Lemma encode_last (s : ustring) :
  well_formed s = true -> endsWithNul s = false -> last (encode s) 1 <> 0.
Proof.
  unfold endsWithNul. intros Hs Hn.
  destruct (rev s) as [| c r] eqn:E.
  - apply (f_equal (@rev Z)) in E. rewrite rev_involutive in E. subst s.
    cbn. lia.
  - apply (f_equal (@rev Z)) in E. rewrite rev_involutive in E. subst s.
    cbn [rev] in *. unfold well_formed in Hs. rewrite forallb_app in Hs.
    apply andb_prop in Hs as [_ Hc]. cbn in Hc. rewrite andb_true_r in Hc.
    apply Z.eqb_neq in Hn.
    destruct (encode_cp_last c Hc Hn) as [Hne Hl].
    unfold encode. rewrite flat_map_app. cbn [flat_map]. rewrite app_nil_r.
    rewrite last_app_nonempty by exact Hne. exact Hl.
Qed.

Lemma pad_ok (bs : Hex) (size : nat) :
  (length bs <= size)%nat ->
  pad bs size = inr (bs ++ repeat 0 (size - length bs)).
Proof.
  intros Hle. unfold pad.
  destruct (Nat.ltb_spec size (length bs)); [lia | reflexivity].
Qed.

Lemma firstn_zeros (k n : nat) :
  firstn k (repeat 0 n) = repeat 0 (Nat.min k n).
Proof.
  revert n. induction k as [| k IH]; intros [| n]; try reflexivity.
  cbn [firstn repeat Nat.min]. rewrite IH. reflexivity.
Qed.

Lemma nth_last_nonempty (bs : Hex) (d d' : Z) :
  bs <> [] -> nth (length bs - 1) bs d = last bs d'.
Proof.
  induction bs as [| b bs IH]; [congruence |]. intros _.
  destruct bs as [| b' bs']; [reflexivity |].
  cbn [length last] in *. rewrite <- IH by discriminate.
  replace (S (S (length bs')) - 1)%nat with (S (S (length bs') - 1)) by lia.
  reflexivity.
Qed.

(** A value of at most 31 bytes, padded to the width, is a zero-terminated
    tag. *)
Lemma decode_tag (bs : Hex) :
  (length bs <= 31)%nat ->
  decodeLinkType (bs ++ repeat 0 (32 - length bs))
  = decode (strip_trailing_zeros bs).
Proof.
  intros Hle. unfold decodeLinkType, width.
  rewrite length_app, repeat_length.
  replace (length bs + (32 - length bs))%nat with 32%nat by lia.
  cbn [Nat.eqb negb].
  rewrite app_nth2 by lia. rewrite nth_repeat. cbn [Z.eqb negb].
  rewrite firstn_app, firstn_all2 by lia. rewrite firstn_zeros.
  rewrite strip_app_zeros. reflexivity.
Qed.

(** A value of 32 bytes whose last byte is not zero has no room for the
    terminator. *)
Lemma decode_full (bs : Hex) :
  length bs = 32%nat -> last bs 1 <> 0 ->
  decodeLinkType (bs ++ repeat 0 (32 - length bs)) = None.
Proof.
  intros Hlen Hl. unfold decodeLinkType, width.
  rewrite Hlen. cbn [Nat.sub repeat]. rewrite app_nil_r, Hlen.
  cbn [Nat.eqb negb].
  assert (Hn : nth 31 bs 0 = last bs 1).
  { replace 31%nat with (length bs - 1)%nat by lia.
    apply nth_last_nonempty. intros ->. discriminate. }
  rewrite Hn. destruct (Z.eqb_spec (last bs 1) 0); [contradiction | reflexivity].
Qed.

End CodecFacts.

(** C3 as the specification states it fails on a string that ends with the
    character U+0000: "a" followed by U+0000 has two UTF-8 bytes, encodes to
    0x61 and thirty-one zero bytes, and decodes to "a". *)
Lemma roundtrip_loses_trailing_nul :
  Utf8.well_formed Scenario.a_nul = true /\
  (length (AddressCodec.toHex Scenario.a_nul) <= 32)%nat /\
  AddressCodec.encodeLinkType Scenario.a_nul = inr (97 :: repeat 0 31) /\
  AddressCodec.decodeLinkType (97 :: repeat 0 31) = Some [97] /\
  AddressCodec.decodeLinkType (97 :: repeat 0 31) <> Some Scenario.a_nul.
Proof.
  repeat split; try reflexivity.
  - cbn. lia.
  - discriminate.
Qed.

(** C3 (amended): for every string [s] of Unicode scalar values that does
    not end with the character U+0000: when its UTF-8 byte length is at most
    31, encoding [s] as a link type succeeds and decoding the 32 bytes yields
    [s] back; when it is exactly 32, [s] still encodes, but the tag has no
    zero terminator and the decoder refuses it. *)
Theorem decodeLinkType_encodeLinkType (s : Utf8.ustring) :
  Utf8.well_formed s = true ->
  AddressCodec.endsWithNul s = false ->
  ((length (AddressCodec.toHex s) <= 31)%nat ->
   exists b, AddressCodec.encodeLinkType s = inr b /\
             AddressCodec.decodeLinkType b = Some s) /\
  (length (AddressCodec.toHex s) = 32%nat ->
   exists b, AddressCodec.encodeLinkType s = inr b /\
             AddressCodec.decodeLinkType b = None).
Proof.
  intros Hs Hnul. split; intros Hlen;
    exists (AddressCodec.toHex s ++ repeat 0 (32 - length (AddressCodec.toHex s)));
    (split; [apply CodecFacts.pad_ok; unfold AddressCodec.width; lia |]).
  - rewrite CodecFacts.decode_tag by exact Hlen.
    rewrite CodecFacts.strip_id by (apply CodecFacts.encode_last; assumption).
    apply CodecFacts.decode_encode. exact Hs.
  - apply CodecFacts.decode_full; [exact Hlen |].
    apply CodecFacts.encode_last; assumption.
Qed.

Lemma decodeLinkType_encodeLinkType_follow :
  (exists b, AddressCodec.encodeLinkType Scenario.follow = inr b /\
             AddressCodec.decodeLinkType b = Some Scenario.follow) /\
  (exists b, AddressCodec.encodeLinkType (repeat 97 32) = inr b /\
             AddressCodec.decodeLinkType b = None).
Proof.
  split.
  - apply (decodeLinkType_encodeLinkType Scenario.follow);
      [reflexivity | reflexivity | vm_compute; lia].
  - apply (decodeLinkType_encodeLinkType (repeat 97 32)); reflexivity.
Defined.

(** C4: encoding a link type fails with [ValueTooLong] exactly when the
    UTF-8 byte length of the string exceeds 32; a string of at most 32 bytes
    encodes to 32 bytes that start with all of its UTF-8 bytes, none cut
    off, followed by zero bytes only. *)
Theorem encodeLinkType_ValueTooLong (s : Utf8.ustring) :
  ((32 < length (AddressCodec.toHex s))%nat ->
   AddressCodec.encodeLinkType s = inl ValueTooLong) /\
  ((length (AddressCodec.toHex s) <= 32)%nat ->
   exists b, AddressCodec.encodeLinkType s = inr b /\
             length b = 32%nat /\
             firstn (length (AddressCodec.toHex s)) b = AddressCodec.toHex s /\
             skipn (length (AddressCodec.toHex s)) b
             = repeat 0 (32 - length (AddressCodec.toHex s))).
Proof.
  unfold AddressCodec.encodeLinkType, AddressCodec.pad, AddressCodec.width.
  split; intros Hlen.
  - destruct (Nat.ltb_spec 32 (length (AddressCodec.toHex s))); [reflexivity | lia].
  - destruct (Nat.ltb_spec 32 (length (AddressCodec.toHex s))); [lia |].
    eexists. split; [reflexivity |]. repeat split.
    + rewrite length_app, repeat_length. lia.
    + rewrite firstn_app, Nat.sub_diag, firstn_all. cbn [firstn].
      apply app_nil_r.
    + rewrite skipn_app, Nat.sub_diag, skipn_all. reflexivity.
Qed.

Lemma encodeLinkType_ValueTooLong_examples :
  AddressCodec.encodeLinkType (repeat 97 33) = inl ValueTooLong /\
  exists b, AddressCodec.encodeLinkType Scenario.follow = inr b /\
            length b = 32%nat /\
            firstn 6 b = AddressCodec.toHex Scenario.follow /\
            skipn 6 b = repeat 0 26.
Proof.
  split.
  - apply (encodeLinkType_ValueTooLong (repeat 97 33)). vm_compute. lia.
  - apply (encodeLinkType_ValueTooLong Scenario.follow).
    vm_compute. lia.
Defined.

(** ** Facts about runs *)

Module RunFacts.

Lemma awaited_inj env h es receipt receipt' :
  awaited env h es receipt -> awaited env h es receipt' -> receipt = receipt'.
Proof.
  intros (es1 & hash & E & A) (es1' & hash' & E' & A').
  rewrite E in E'. apply app_inj_tail in E' as [<- Eh].
  injection Eh as <-. rewrite A in A'. injection A' as <-. reflexivity.
Qed.

Lemma awaited_has_wait env h es receipt :
  awaited env h es receipt -> existsb isWait es = true.
Proof.
  intros (es1 & hash & -> & _). rewrite existsb_app. cbn.
  apply orb_true_r.
Qed.

Lemma not_awaited_nil env h receipt : ~ awaited env h [] receipt.
Proof.
  intros (es1 & hash & E & _). destruct es1; discriminate E.
Qed.

Lemma awaited_app env h es es' receipt :
  awaited env (h ++ es) es' receipt -> awaited env h (es ++ es') receipt.
Proof.
  intros (es1 & hash & -> & A). exists (es ++ es1), hash.
  rewrite !app_assoc in *. split; [reflexivity | exact A].
Qed.

Lemma awaited_app_inv env h es es' receipt :
  existsb isWait es = false ->
  awaited env h (es ++ es') receipt -> awaited env (h ++ es) es' receipt.
Proof.
  intros Hq (es1 & hash & E & A).
  destruct (exists_last (l := es')) as (es'' & x & ->).
  - intros ->. rewrite app_nil_r in E. subst es.
    rewrite existsb_app in Hq. cbn in Hq. rewrite orb_true_r in Hq.
    discriminate Hq.
  - rewrite app_assoc in E. apply app_inj_tail in E as [<- ->].
    exists es'', hash. rewrite <- app_assoc. split; [reflexivity | exact A].
Qed.

(** *** Methods that do not wait for a receipt *)

Lemma noWait_ret {A} (a : A) : noWait (ret a).
Proof. intros env h. reflexivity. Qed.

Lemma noWait_throw {A} (e : Error) : noWait (@throw A e).
Proof. intros env h. reflexivity. Qed.

Lemma noWait_liftE {A} (r : Error + A) : noWait (liftE r).
Proof. intros env h. reflexivity. Qed.

Lemma noWait_ask {A} (f : Env -> A) : noWait (ask f).
Proof. intros env h. reflexivity. Qed.

Lemma noWait_perform {A} (e : Effect) (answer : Env -> History -> Error + A) :
  isWait e = false -> noWait (perform e answer).
Proof. intros He env h. cbn. rewrite He. reflexivity. Qed.

Lemma noWait_bind {A B} (m : M A) (k : A -> M B) :
  noWait m -> (forall a, noWait (k a)) -> noWait (bind m k).
Proof.
  intros Hm Hk env h. unfold bind. specialize (Hm env h).
  destruct (m env h) as [[e | a] es]; cbn in *; [exact Hm |].
  specialize (Hk a env (h ++ es)).
  destruct (k a env (h ++ es)) as [r es']. cbn in *.
  rewrite existsb_app, Hm, Hk. reflexivity.
Qed.

Lemma noWait_forEachM {A} (f : A -> M unit) (l : list A) :
  (forall a, noWait (f a)) -> noWait (forEachM f l).
Proof.
  intros Hf. induction l as [| a l IH]; cbn [forEachM].
  - apply noWait_ret.
  - apply noWait_bind; [apply Hf | intros _; exact IH].
Qed.

Lemma noWait_validateAddress (address : Address) :
  noWait (validateAddress address).
Proof.
  unfold validateAddress. apply noWait_bind; [apply noWait_ask |].
  intros [|]; [apply noWait_ret | apply noWait_throw].
Qed.

Lemma noWait_padToHex (linkType : Utf8.ustring) : noWait (padToHex linkType).
Proof.
  unfold padToHex. apply noWait_bind; [apply noWait_liftE |].
  intros b. apply noWait_ret.
Qed.

Lemma noWait_write c f a ov : noWait (write c f a ov).
Proof. apply noWait_perform. reflexivity. Qed.

(** *** Methods that end by obtaining a receipt *)

Lemma writesThen_throw (e : Error) post : writesThen (throw e) post.
Proof.
  intros env h outcome es E. injection E as <- <-. right. split.
  - intros receipt. apply not_awaited_nil.
  - exists e. reflexivity.
Qed.

Lemma writesThen_bind {A} (m : M A) (k : A -> M Result) post :
  noWait m -> (forall a, writesThen (k a) post) -> writesThen (bind m k) post.
Proof.
  intros Hm Hk env h outcome es E. unfold bind in E.
  specialize (Hm env h).
  destruct (m env h) as [[e | a] es_m] eqn:Em; cbn in Hm.
  - injection E as <- <-. right. split.
    + intros receipt Ha. apply awaited_has_wait in Ha. congruence.
    + exists e. reflexivity.
  - destruct (k a env (h ++ es_m)) as [r es_k] eqn:Ek.
    injection E as <- <-.
    destruct (Hk a env (h ++ es_m) r es_k Ek) as [(receipt & Ha & Hr) | [Hn He]].
    + left. exists receipt. split; [apply awaited_app; exact Ha | exact Hr].
    + right. split; [| exact He].
      intros receipt Ha. apply (Hn receipt).
      apply awaited_app_inv; assumption.
Qed.

Lemma writesThen_wait (hash : string) (tail : Receipt.t -> M Result) post :
  (forall receipt, pureOutcome (tail receipt) (post receipt)) ->
  writesThen (bind (waitForTransactionReceipt hash) tail) post.
Proof.
  intros Ht env h outcome es E.
  unfold bind, waitForTransactionReceipt, perform in E.
  destruct (waitForReceipt env h hash) as [e | receipt] eqn:Ew.
  - injection E as <- <-. right. split.
    + intros receipt (es1 & hash' & E' & A).
      symmetry in E'. apply (app_inj_tail es1 []) in E' as [-> Eh].
      injection Eh as ->. rewrite app_nil_r in A. congruence.
    + exists e. reflexivity.
  - rewrite (Ht receipt env) in E. injection E as <- <-.
    left. exists receipt. split; [| reflexivity].
    exists [], hash. rewrite app_nil_r. split; [reflexivity | exact Ew].
Qed.

Lemma writesThen_autoSwitchMainnet (m : M Result) post :
  writesThen m post -> writesThen (autoSwitchMainnet m) post.
Proof.
  intros Hm. unfold autoSwitchMainnet.
  apply writesThen_bind; [apply noWait_perform; reflexivity |].
  intros current. apply writesThen_bind; [apply noWait_ask |].
  intros expected. destruct (current =? expected); [exact Hm |].
  apply writesThen_bind; [apply noWait_perform; reflexivity |].
  intros [|]; [exact Hm | apply writesThen_throw].
Qed.

(** The outcome of a run that obtained a receipt. *)
Lemma writesThen_outcome (m : M Result) post env h outcome es receipt :
  writesThen m post ->
  m env h = (outcome, es) -> awaited env h es receipt ->
  outcome = post receipt.
Proof.
  intros Hm E Ha.
  destruct (Hm env h outcome es E) as [(receipt' & Ha' & ->) | [Hn _]].
  - rewrite (awaited_inj _ _ _ _ _ Ha Ha'). reflexivity.
  - destruct (Hn receipt Ha).
Qed.

(** *** Methods that submit a call *)

Lemma submits_bind_l {A B} (m : M A) (k : A -> M B) :
  submits m -> submits (bind m k).
Proof.
  intros Hm env h b es E. unfold bind in E.
  destruct (m env h) as [[e | a] es_m] eqn:Em; [discriminate E |].
  destruct (k a env (h ++ es_m)) as [r es_k]. injection E as -> <-.
  rewrite existsb_app, (Hm env h a es_m Em). reflexivity.
Qed.

Lemma submits_bind_r {A B} (m : M A) (k : A -> M B) :
  (forall a, submits (k a)) -> submits (bind m k).
Proof.
  intros Hk env h b es E. unfold bind in E.
  destruct (m env h) as [[e | a] es_m] eqn:Em; [discriminate E |].
  destruct (k a env (h ++ es_m)) as [r es_k] eqn:Ek. injection E as -> <-.
  rewrite existsb_app, (Hk a env _ b es_k Ek). apply orb_true_r.
Qed.

Lemma submits_throw {A} (e : Error) : submits (@throw A e).
Proof. intros env h a es E. discriminate E. Qed.

Lemma submits_write c f a ov : submits (write c f a ov).
Proof.
  intros env h x es E. unfold write, perform in E. injection E as _ <-.
  reflexivity.
Qed.

Lemma submits_autoSwitchMainnet {A} (m : M A) :
  submits m -> submits (autoSwitchMainnet m).
Proof.
  intros Hm. unfold autoSwitchMainnet.
  apply submits_bind_r. intros current. apply submits_bind_r.
  intros expected. destruct (current =? expected); [exact Hm |].
  apply submits_bind_r. intros [|]; [exact Hm | apply submits_throw].
Qed.

(** *** Methods that submit nothing *)

Lemma noSubmit_ret {A} (a : A) : noSubmit (ret a).
Proof. intros env h. reflexivity. Qed.

Lemma noSubmit_throw {A} (e : Error) : noSubmit (@throw A e).
Proof. intros env h. reflexivity. Qed.

Lemma noSubmit_liftE {A} (r : Error + A) : noSubmit (liftE r).
Proof. intros env h. reflexivity. Qed.

Lemma noSubmit_perform {A} (e : Effect) (answer : Env -> History -> Error + A) :
  isSubmit e = false -> noSubmit (perform e answer).
Proof. intros He env h. cbn. rewrite He. reflexivity. Qed.

Lemma noSubmit_bind {A B} (m : M A) (k : A -> M B) :
  noSubmit m -> (forall a, noSubmit (k a)) -> noSubmit (bind m k).
Proof.
  intros Hm Hk env h. unfold bind. specialize (Hm env h).
  destruct (m env h) as [[e | a] es]; cbn in *; [exact Hm |].
  specialize (Hk a env (h ++ es)).
  destruct (k a env (h ++ es)) as [r es']. cbn in *.
  rewrite existsb_app, Hm, Hk. reflexivity.
Qed.

Lemma noSubmit_promiseAll {A B} (f : A -> M B) (l : list A) :
  (forall a, noSubmit (f a)) -> noSubmit (promiseAll f l).
Proof.
  intros Hf. induction l as [| a l IH]; cbn [promiseAll].
  - apply noSubmit_ret.
  - intros env h. pose proof (Hf a env h) as Ha.
    destruct (f a env h) as [r es]. pose proof (IH env (h ++ es)) as Hl.
    destruct (promiseAll f l env (h ++ es)) as [rs es'].
    cbn [snd] in *. rewrite existsb_app, Ha, Hl. reflexivity.
Qed.

Lemma noSubmit_asArray (v : Value) : noSubmit (asArray v).
Proof. destruct v; first [apply noSubmit_ret | apply noSubmit_throw]. Qed.

Lemma noSubmit_padToHex (linkType : Utf8.ustring) :
  noSubmit (padToHex linkType).
Proof.
  unfold padToHex. apply noSubmit_bind; [apply noSubmit_liftE |].
  intros b. apply noSubmit_ret.
Qed.

(** *** Envelopes *)

Lemma carriesReceiptHash_intro (m : M Result) post :
  writesThen m post -> submits m ->
  (forall receipt r, post receipt = inr r ->
     transactionHash r = Some (Receipt.transactionHash receipt)) ->
  carriesReceiptHash m.
Proof.
  intros Hw Hs Hp env h r es E. split; [exact (Hs env h r es E) |].
  destruct (Hw env h (inr r) es E) as [(receipt & Ha & Hr) | [_ [err He]]];
    [| discriminate He].
  exists receipt. split; [exact Ha |]. apply Hp. symmetry. exact Hr.
Qed.

Lemma carriesNoHash_intro (m : M Result) :
  noSubmit m ->
  (forall env h r es, m env h = (inr r, es) -> transactionHash r = None) ->
  carriesNoHash m.
Proof.
  intros Hn Hh env h r es E. split; [| exact (Hh env h r es E)].
  specialize (Hn env h). rewrite E in Hn. exact Hn.
Qed.

Lemma bind_returns {A B} (m : M A) (k : A -> M B) env h b es :
  bind m k env h = (inr b, es) ->
  exists a es1 es2,
    m env h = (inr a, es1) /\ k a env (h ++ es1) = (inr b, es2) /\
    es = es1 ++ es2.
Proof.
  unfold bind. intros E.
  destruct (m env h) as [[e | a] es1]; [discriminate E |].
  destruct (k a env (h ++ es1)) as [r es2] eqn:Ek. injection E as -> <-.
  exists a, es1, es2. split; [reflexivity |]. split; [exact Ek | reflexivity].
Qed.

End RunFacts.

Module MatcherFacts.
Import EventLogMatcher.

Lemma countNamed_filter (name : string) (events : list EventRecord) :
  countNamed name events = length (filter (named name) events).
Proof.
  induction events as [| e events IH]; [reflexivity |].
  cbn [countNamed filter]. destruct (named name e); cbn [length]; congruence.
Qed.

Lemma firstNamed_filter (name : string) (events : list EventRecord) :
  firstNamed name events = hd_error (filter (named name) events).
Proof.
  induction events as [| e events IH]; [reflexivity |].
  cbn [firstNamed filter]. destruct (named name e); [reflexivity | exact IH].
Qed.

(** The first event of a name splits the receipt's events around it. *)
Lemma firstNamed_split (name : string) (events : list EventRecord) :
  (1 <= countNamed name events)%nat ->
  exists pre first post,
    events = pre ++ first :: post /\
    countNamed name pre = 0%nat /\
    eventName first = name /\
    firstNamed name events = Some first.
Proof.
  induction events as [| e events IH]; cbn [countNamed firstNamed].
  - intros H. inversion H.
  - destruct (named name e) eqn:En; intros H.
    + exists [], e, events. repeat split. apply String.eqb_eq. exact En.
    + destruct (IH H) as (pre & first & post & -> & Hpre & Hn & Hf).
      exists (e :: pre), first, post. cbn [countNamed]. rewrite En.
      repeat split; assumption.
Qed.

(** With several matches allowed, [parseLog] gives the first match. *)
Lemma parseLog_lenient (name : string) (events : list EventRecord) :
  parseLog events name false =
  match firstNamed name events with
  | Some e => inr e
  | None => inl EventNotFound
  end.
Proof.
  unfold parseLog, matchEvents. rewrite firstNamed_filter. cbn [negb].
  destruct (filter (named name) events); reflexivity.
Qed.

Lemma parseLog_none (name : string) (events : list EventRecord) strict :
  countNamed name events = 0%nat ->
  parseLog events name strict = inl EventNotFound.
Proof.
  rewrite countNamed_filter. unfold parseLog, matchEvents.
  destruct (filter (named name) events); [reflexivity | discriminate].
Qed.

End MatcherFacts.

(** C1: in strict mode (several matches not allowed, the default) the
    matcher fails with [EventNotFound] when no event carries the requested
    name, returns the one event that carries it when exactly one does, and
    fails with [AmbiguousEvent] when more than one does. *)
Theorem matchEvents_strict (events : list EventRecord) (name : string) :
  (EventLogMatcher.countNamed name events = 0%nat ->
   EventLogMatcher.matchEvents events name false = inl EventNotFound /\
   EventLogMatcher.parseLog events name true = inl EventNotFound) /\
  (EventLogMatcher.countNamed name events = 1%nat ->
   exists e,
     In e events /\ eventName e = name /\
     (forall e', In e' events -> eventName e' = name -> e' = e) /\
     EventLogMatcher.matchEvents events name false
     = inr (EventLogMatcher.Single e) /\
     EventLogMatcher.parseLog events name true = inr e) /\
  ((1 < EventLogMatcher.countNamed name events)%nat ->
   EventLogMatcher.matchEvents events name false = inl AmbiguousEvent /\
   EventLogMatcher.parseLog events name true = inl AmbiguousEvent).
Proof.
  rewrite MatcherFacts.countNamed_filter.
  unfold EventLogMatcher.parseLog, EventLogMatcher.matchEvents. cbn [negb].
  destruct (filter (EventLogMatcher.named name) events) as [| e [| e2 rest]] eqn:F;
    cbn [length]; (split; [| split]); intros Hc; try discriminate Hc;
    try (exfalso; lia).
  - split; reflexivity.
  - exists e.
    assert (He : In e (filter (EventLogMatcher.named name) events))
      by (rewrite F; left; reflexivity).
    apply filter_In in He as [Hin Hn]. apply String.eqb_eq in Hn.
    repeat split; try assumption.
    intros e' Hin' Hn'.
    assert (He' : In e' (filter (EventLogMatcher.named name) events)).
    { apply filter_In. split; [exact Hin' |]. apply String.eqb_eq. exact Hn'. }
    rewrite F in He'. destruct He' as [-> | []]. reflexivity.
  - split; reflexivity.
Qed.

Lemma matchEvents_strict_examples :
  EventLogMatcher.matchEvents [Scenario.linkEvent "LinkAddress" 1] "LinkCharacter" false
  = inl EventNotFound /\
  EventLogMatcher.parseLog
    [Scenario.linkEvent "LinkAddress" 1; Scenario.linkEvent "LinkCharacter" 42]
    "LinkCharacter" true
  = inr (Scenario.linkEvent "LinkCharacter" 42) /\
  EventLogMatcher.matchEvents
    [Scenario.linkEvent "LinkCharacter" 7; Scenario.linkEvent "LinkCharacter" 9]
    "LinkCharacter" false
  = inl AmbiguousEvent.
Proof.
  split; [| split].
  - apply (matchEvents_strict [Scenario.linkEvent "LinkAddress" 1] "LinkCharacter").
    reflexivity.
  - destruct (matchEvents_strict
                [Scenario.linkEvent "LinkAddress" 1;
                 Scenario.linkEvent "LinkCharacter" 42] "LinkCharacter")
      as (_ & H1 & _).
    destruct (H1 eq_refl) as (e & _ & _ & Hu & _ & Hp).
    rewrite Hp. f_equal. symmetry. apply Hu; [right; left |]; reflexivity.
  - apply (matchEvents_strict
             [Scenario.linkEvent "LinkCharacter" 7;
              Scenario.linkEvent "LinkCharacter" 9] "LinkCharacter").
    cbn. lia.
Defined.

(** C5: [parseMetadataOrUri] on the empty string returns
    [{ uri: '', metadata: undefined }] and makes no call at all, whatever
    the type tag, the flag, the collaborators and the calls made before. *)
Theorem parseMetadataOrUri_empty (type : string)
        (retrieveMetadataIfNeeded : bool) (env : Env) (h : History) :
  Ipfs.parseMetadataOrUri type (Ipfs.Uri "") retrieveMetadataIfNeeded env h
  = (inr {| Ipfs.metadata := VUndefined; Ipfs.uri := "" |}, []).
Proof. reflexivity. Qed.

(** ** The link operations, run *)

Module LinkFacts.
Import RunFacts LinkContract.

Ltac no_wait :=
  solve [ repeat first
            [ apply noWait_ret | apply noWait_throw | apply noWait_liftE
            | apply noWait_ask | apply noWait_padToHex | apply noWait_write
            | apply noWait_validateAddress
            | apply noWait_forEachM; intros ?
            | apply noWait_bind; [| intros ?] ] ].

(** Up to the receipt: the decorator, the steps before the call, the call. *)
Ltac to_receipt :=
  try apply writesThen_autoSwitchMainnet;
  repeat (apply writesThen_bind; [no_wait | intros ?]);
  apply writesThen_wait; intros receipt env h.

Ltac link_writesThen :=
  to_receipt;
  unfold bind, parseLog, liftE, ret, linklistIdOf;
  destruct (EventLogMatcher.parseLog _ _ _); reflexivity.

Ltac does_submit :=
  try apply submits_autoSwitchMainnet;
  repeat first [ apply submits_bind_l; apply submits_write
               | apply submits_bind_r; intros ? ].

Lemma linkCharacter_writesThen f t lt d ov :
  writesThen (linkCharacter f t lt d ov) (linklistIdOf "LinkCharacter" true).
Proof. unfold linkCharacter. link_writesThen. Qed.

Lemma linkCharactersInBatch_writesThen f ids addrs lt d ov :
  writesThen (linkCharactersInBatch f ids addrs lt d ov)
             (linklistIdOf "LinkCharacter" false).
Proof. unfold linkCharactersInBatch. link_writesThen. Qed.

Lemma linkAddress_writesThen f a lt d ov :
  writesThen (linkAddress f a lt d ov) (linklistIdOf "LinkAddress" true).
Proof. unfold linkAddress. link_writesThen. Qed.

Lemma linkAnyUri_writesThen f u lt d ov :
  writesThen (linkAnyUri f u lt d ov) (linklistIdOf "LinkAnyUri" true).
Proof. unfold linkAnyUri. link_writesThen. Qed.

Lemma linkErc721_writesThen f a t lt d ov :
  writesThen (linkErc721 f a t lt d ov) (linklistIdOf "LinkAnyUri" true).
Proof. unfold linkErc721. link_writesThen. Qed.

Lemma linkNote_writesThen f t n lt d ov :
  writesThen (linkNote f t n lt d ov) (linklistIdOf "LinkNote" true).
Proof. unfold linkNote. link_writesThen. Qed.

Lemma linkLinklist_writesThen f l lt d ov :
  writesThen (linkLinklist f l lt d ov) (linklistIdOf "LinkNote" true).
Proof. unfold linkLinklist. link_writesThen. Qed.

Lemma linklistIdOf_hash name strict receipt r :
  linklistIdOf name strict receipt = inr r ->
  transactionHash r = Some (Receipt.transactionHash receipt).
Proof.
  unfold linklistIdOf.
  destruct (EventLogMatcher.parseLog _ _ _); intros E;
    [discriminate E | injection E as <-; reflexivity].
Qed.

Lemma link_carries (m : M Result) name strict :
  writesThen m (linklistIdOf name strict) -> submits m ->
  carriesReceiptHash m.
Proof.
  intros Hw Hs. apply (carriesReceiptHash_intro m _ Hw Hs).
  intros receipt r. apply linklistIdOf_hash.
Qed.

Lemma linkCharacter_carries f t lt d ov : carriesReceiptHash (linkCharacter f t lt d ov).
Proof.
  apply (link_carries _ _ _ (linkCharacter_writesThen f t lt d ov)).
  unfold linkCharacter. does_submit.
Qed.

Lemma linkCharactersInBatch_carries f ids addrs lt d ov : carriesReceiptHash (linkCharactersInBatch f ids addrs lt d ov).
Proof.
  apply (link_carries _ _ _ (linkCharactersInBatch_writesThen f ids addrs lt d ov)).
  unfold linkCharactersInBatch. does_submit.
Qed.

Lemma linkAddress_carries f a lt d ov : carriesReceiptHash (linkAddress f a lt d ov).
Proof.
  apply (link_carries _ _ _ (linkAddress_writesThen f a lt d ov)).
  unfold linkAddress. does_submit.
Qed.

Lemma linkAnyUri_carries f u lt d ov : carriesReceiptHash (linkAnyUri f u lt d ov).
Proof.
  apply (link_carries _ _ _ (linkAnyUri_writesThen f u lt d ov)).
  unfold linkAnyUri. does_submit.
Qed.

Lemma linkErc721_carries f a t lt d ov : carriesReceiptHash (linkErc721 f a t lt d ov).
Proof.
  apply (link_carries _ _ _ (linkErc721_writesThen f a t lt d ov)).
  unfold linkErc721. does_submit.
Qed.

Lemma linkNote_carries f t n lt d ov : carriesReceiptHash (linkNote f t n lt d ov).
Proof.
  apply (link_carries _ _ _ (linkNote_writesThen f t n lt d ov)).
  unfold linkNote. does_submit.
Qed.

Lemma linkLinklist_carries f l lt d ov : carriesReceiptHash (linkLinklist f l lt d ov).
Proof.
  apply (link_carries _ _ _ (linkLinklist_writesThen f l lt d ov)).
  unfold linkLinklist. does_submit.
Qed.

(** What an unlink operation makes of the receipt. *)
Lemma unlink_envelope (m : M Result) :
  writesThen m (fun receipt =>
                  inr {| data := VUndefined;
                         transactionHash :=
                           Some (Receipt.transactionHash receipt) |}) ->
  submits m ->
  carriesReceiptHash m /\ dataUndefined m.
Proof.
  intros Hw Hs. split.
  - apply (carriesReceiptHash_intro m _ Hw Hs).
    intros receipt r E. injection E as <-. reflexivity.
  - intros env h r es E.
    destruct (Hw env h (inr r) es E) as [(receipt & _ & Hr) | [_ [err He]]];
      [| discriminate He].
    injection Hr as ->. reflexivity.
Qed.

Ltac solve_unlink :=
  apply unlink_envelope;
  [ to_receipt; reflexivity | does_submit ].

Lemma unlinkCharacter_envelope f t lt ov :
  carriesReceiptHash (unlinkCharacter f t lt ov) /\ dataUndefined (unlinkCharacter f t lt ov).
Proof. unfold unlinkCharacter. solve_unlink. Qed.

Lemma unlinkAddress_envelope f a lt ov :
  carriesReceiptHash (unlinkAddress f a lt ov) /\ dataUndefined (unlinkAddress f a lt ov).
Proof. unfold unlinkAddress. solve_unlink. Qed.

Lemma unlinkAnyUri_envelope f u lt ov :
  carriesReceiptHash (unlinkAnyUri f u lt ov) /\ dataUndefined (unlinkAnyUri f u lt ov).
Proof. unfold unlinkAnyUri. solve_unlink. Qed.

Lemma unlinkErc721_envelope f a t lt ov :
  carriesReceiptHash (unlinkErc721 f a t lt ov) /\ dataUndefined (unlinkErc721 f a t lt ov).
Proof. unfold unlinkErc721. solve_unlink. Qed.

Lemma unlinkNote_envelope f t n lt ov :
  carriesReceiptHash (unlinkNote f t n lt ov) /\ dataUndefined (unlinkNote f t n lt ov).
Proof. unfold unlinkNote. solve_unlink. Qed.

Lemma unlinkLinklist_envelope f l lt ov :
  carriesReceiptHash (unlinkLinklist f l lt ov) /\ dataUndefined (unlinkLinklist f l lt ov).
Proof. unfold unlinkLinklist. solve_unlink. Qed.

Lemma setLinklistUri_envelope f uri :
  carriesReceiptHash (setLinklistUri f uri) /\ dataUndefined (setLinklistUri f uri).
Proof. unfold setLinklistUri. solve_unlink. Qed.

Lemma createThenLinkCharacter_carries f a lt ov :
  carriesReceiptHash (createThenLinkCharacter f a lt ov).
Proof.
  apply carriesReceiptHash_intro with
    (post := fun receipt =>
       match EventLogMatcher.parseLog (Receipt.logs receipt)
                                      "CharacterCreated" true with
       | inl err => inl err
       | inr c =>
         match EventLogMatcher.parseLog (Receipt.logs receipt)
                                        "LinkCharacter" true with
         | inl err => inl err
         | inr l =>
           inr {| data :=
                    VObject
                      [("toCharacterId", lookup_field "characterId" (args c));
                       ("linklistId", lookup_field "linklistId" (args l))];
                  transactionHash := Some (Receipt.transactionHash receipt) |}
         end
       end).
  - unfold createThenLinkCharacter. to_receipt.
    unfold bind, parseLog, liftE, ret.
    destruct (EventLogMatcher.parseLog _ "CharacterCreated" _); [reflexivity |].
    destruct (EventLogMatcher.parseLog _ "LinkCharacter" _); reflexivity.
  - unfold createThenLinkCharacter. does_submit.
  - intros receipt r.
    destruct (EventLogMatcher.parseLog _ "CharacterCreated" _);
      [intros E; discriminate E |].
    destruct (EventLogMatcher.parseLog _ "LinkCharacter" _); intros E;
      [discriminate E | injection E as <-; reflexivity].
Qed.

Ltac no_submit :=
  solve [ repeat first
            [ apply noSubmit_ret | apply noSubmit_throw | apply noSubmit_liftE
            | apply noSubmit_padToHex | apply noSubmit_asArray
            | apply noSubmit_perform; reflexivity
            | apply noSubmit_promiseAll; intros ?
            | apply noSubmit_bind; [| intros ?] ] ].

(** A read-only operation: every step is followed to the result. *)
Ltac no_hash :=
  apply carriesNoHash_intro;
  [ no_submit
  | intros env h r es E;
    repeat (apply bind_returns in E as (? & ? & ? & _ & E & _));
    injection E as <- _; reflexivity ].

Lemma getLinklistIdByTransaction_noHash hash :
  carriesNoHash (getLinklistIdByTransaction hash).
Proof. unfold getLinklistIdByTransaction, getTransactionReceipt, parseLog. no_hash. Qed.

Lemma getLinkingCharacterIds_noHash f lt ov :
  carriesNoHash (getLinkingCharacterIds f lt ov).
Proof. unfold getLinkingCharacterIds, read. no_hash. Qed.

Lemma getLinkingCharacters_noHash f lt ov :
  carriesNoHash (getLinkingCharacters f lt ov).
Proof. unfold getLinkingCharacters, read. no_hash. Qed.

Lemma getLinklistUri_noHash f : carriesNoHash (getLinklistUri f).
Proof. unfold getLinklistUri, read. no_hash. Qed.

End LinkFacts.

(** C2: when the receipt of a batch link call holds one or more
    [LinkCharacter] events, [linkCharactersInBatch] matches with several
    matches allowed and returns the linklist id of the first [LinkCharacter]
    event in the receipt's order, together with the receipt's hash. *)
Theorem linkCharactersInBatch_first_wins
        (env : Env) (h : History) (fromCharacterId : Z)
        (toCharacterIds : list Z) (toAddresses : list Address)
        (linkType : Utf8.ustring) (data overrides : Value)
        (outcome : Error + Result) (es : list Effect) (receipt : Receipt.t) :
  LinkContract.linkCharactersInBatch fromCharacterId toCharacterIds
    toAddresses linkType data overrides env h = (outcome, es) ->
  awaited env h es receipt ->
  (1 <= EventLogMatcher.countNamed "LinkCharacter" (Receipt.logs receipt))%nat ->
  exists pre first post,
    Receipt.logs receipt = pre ++ first :: post /\
    EventLogMatcher.countNamed "LinkCharacter" pre = 0%nat /\
    eventName first = "LinkCharacter" /\
    EventLogMatcher.parseLog (Receipt.logs receipt) "LinkCharacter" false
    = inr first /\
    outcome = linklistIdOf "LinkCharacter" false receipt /\
    outcome = inr {| data := lookup_field "linklistId" (args first);
                     transactionHash :=
                       Some (Receipt.transactionHash receipt) |}.
Proof.
  intros E Ha Hc.
  destruct (MatcherFacts.firstNamed_split _ _ Hc)
    as (pre & first & post & Hl & Hp & Hn & Hf).
  exists pre, first, post.
  assert (Hparse : EventLogMatcher.parseLog (Receipt.logs receipt)
                                            "LinkCharacter" false = inr first)
    by (rewrite MatcherFacts.parseLog_lenient, Hf; reflexivity).
  pose proof (RunFacts.writesThen_outcome _ _ _ _ _ _ _
                (LinkFacts.linkCharactersInBatch_writesThen _ _ _ _ _ _) E Ha)
    as Ho.
  repeat split; try assumption.
  rewrite Ho. unfold linklistIdOf. rewrite Hparse. reflexivity.
Qed.

Lemma linkCharactersInBatch_first_wins_7_9 :
  exists pre first post,
    Scenario.twoLinks = pre ++ first :: post /\
    EventLogMatcher.countNamed "LinkCharacter" pre = 0%nat /\
    eventName first = "LinkCharacter" /\
    EventLogMatcher.parseLog Scenario.twoLinks "LinkCharacter" false
    = inr first /\
    @inr Error Result {| data := VBigInt 7; transactionHash := Some "0xabc" |}
    = linklistIdOf "LinkCharacter" false (Receipt.mk "0xabc" Scenario.twoLinks) /\
    @inr Error Result {| data := VBigInt 7; transactionHash := Some "0xabc" |}
    = inr {| data := lookup_field "linklistId" (args first);
             transactionHash := Some "0xabc" |}.
Proof.
  refine (linkCharactersInBatch_first_wins
            (Scenario.chain Scenario.twoLinks) [] 1 [2; 3] [] Scenario.follow
            VUndefined Scenario.noOverrides
            (inr {| data := VBigInt 7; transactionHash := Some "0xabc" |})
            _ (Receipt.mk "0xabc" Scenario.twoLinks) _ _ _).
  - reflexivity.
  - match goal with
    | |- awaited _ _ ?es _ => exists (removelast es), "0xabc"
    end.
    split; reflexivity.
  - cbn. lia.
Defined.

Module BatchFacts.

Lemma forEachM_validateAddress (addresses : list Address) env h :
  forallb (isAddress env) addresses = true ->
  forEachM (fun address => validateAddress address) addresses env h
  = (inr tt, []).
Proof.
  revert h. induction addresses as [| a l IH]; intros h Hv; [reflexivity |].
  cbn [forallb] in Hv. apply andb_prop in Hv as [Ha Hl].
  cbn [forEachM]. unfold bind at 1.
  unfold validateAddress at 1. unfold bind at 1, ask at 1. rewrite Ha.
  cbn [ret app]. rewrite app_nil_r. rewrite (IH h Hl). reflexivity.
Qed.

End BatchFacts.

(** C6 as the specification states it fails: on a call with three target
    characters and a [data] list of two entries the call is submitted to the
    chain client, and the operation returns the linklist id. *)
Lemma linkCharactersInBatch_submits_mismatched_data :
  LinkContract.linkCharactersInBatch 1 Scenario.threeTargets [] Scenario.follow
    Scenario.twoData Scenario.noOverrides
    (Scenario.chain [Scenario.linkEvent "LinkCharacter" 5]) []
  = (inr {| data := VBigInt 5; transactionHash := Some "0xabc" |},
     [CurrentNetworkId;
      Submit
        (mkCall Periphery "linkCharactersInBatch"
           [VObject
              [("fromCharacterId", VBigInt 1);
               ("toCharacterIds", VArray [VBigInt 2; VBigInt 3; VBigInt 4]);
               ("toAddresses", VArray []);
               ("linkType", VHex ([102; 111; 108; 108; 111; 119] ++ repeat 0 26));
               ("data", Scenario.twoData)]]
           Scenario.noOverrides);
      WaitForReceipt "0xabc"]).
Proof. reflexivity. Qed.

(** C6 (amended): [linkCharactersInBatch] does not compare the length of
    [data] with the length of the targets.  On the deployment network, with
    well-formed addresses and a link type that fits the width, the call is
    submitted with [data] as the caller gave it, whatever its length; when
    [data] is left out, it is one [NIL_ADDRESS] per target character. *)
Theorem linkCharactersInBatch_forwards_data
        (env : Env) (h : History) (fromCharacterId : Z)
        (toCharacterIds : list Z) (toAddresses : list Address)
        (linkType : Utf8.ustring) (data overrides : Value)
        (linkType' : AddressCodec.Hex) :
  currentNetworkId env h = deploymentNetworkId env ->
  forallb (isAddress env) toAddresses = true ->
  AddressCodec.encodeLinkType linkType = inr linkType' ->
  exists outcome rest,
    LinkContract.linkCharactersInBatch fromCharacterId toCharacterIds
      toAddresses linkType data overrides env h
    = (outcome,
       CurrentNetworkId
       :: Submit
            (mkCall Periphery "linkCharactersInBatch"
               [VObject
                  [("fromCharacterId", VBigInt fromCharacterId);
                   ("toCharacterIds", VArray (map VBigInt toCharacterIds));
                   ("toAddresses", VArray (map VString toAddresses));
                   ("linkType", VHex linkType');
                   ("data",
                    match data with
                    | VUndefined | VNull =>
                      VArray (map (fun _ => VString (NIL_ADDRESS env))
                                  toCharacterIds)
                    | _ => data
                    end)]]
               overrides)
       :: rest).
Proof.
  intros Hnet Haddr Henc.
  unfold LinkContract.linkCharactersInBatch, autoSwitchMainnet.
  unfold bind at 1, perform at 1. unfold bind at 1, ask at 1.
  rewrite Hnet, Z.eqb_refl.
  unfold bind at 1. rewrite BatchFacts.forEachM_validateAddress by exact Haddr.
  unfold bind at 1, padToHex, bind at 1, liftE. rewrite Henc. cbn [ret].
  unfold bind at 1, ask at 1.
  unfold bind at 1, write at 1, perform at 1.
  match goal with
  | |- context [submit env ?hh ?c] => destruct (submit env hh c) as [e | hash]
  end.
  - eexists _, _. cbn [app]. reflexivity.
  - match goal with
    | |- context [bind ?m ?k env ?hh] => destruct (bind m k env hh) as [r es']
    end.
    eexists _, _. cbn [app]. reflexivity.
Qed.

Lemma linkCharactersInBatch_forwards_two_for_three :
  exists outcome rest,
    LinkContract.linkCharactersInBatch 1 Scenario.threeTargets [] Scenario.follow
      Scenario.twoData Scenario.noOverrides (Scenario.chain []) []
    = (outcome,
       CurrentNetworkId
       :: Submit
            (mkCall Periphery "linkCharactersInBatch"
               [VObject
                  [("fromCharacterId", VBigInt 1);
                   ("toCharacterIds", VArray (map VBigInt Scenario.threeTargets));
                   ("toAddresses", VArray (map VString []));
                   ("linkType", VHex ([102; 111; 108; 108; 111; 119] ++ repeat 0 26));
                   ("data", Scenario.twoData)]]
               Scenario.noOverrides)
       :: rest).
Proof.
  apply (linkCharactersInBatch_forwards_data
           (Scenario.chain []) [] 1 Scenario.threeTargets [] Scenario.follow
           Scenario.twoData Scenario.noOverrides
           ([102; 111; 108; 108; 111; 119] ++ repeat 0 26));
    reflexivity.
Defined.

Module IpfsFacts.
Import Ipfs.

(** One run of the function that [uploadJson] retries is one POST. *)
Lemma upload_attempt (json : Value) env h :
  snd ((body <- ask (fun env => JSON_stringify env json) ;;
        text <- fetch "https://ipfs-relay.crossbell.io/json" "POST" body ;;
        res <- JSONparse text ;;
        ret res) env h)
  = [Fetch "https://ipfs-relay.crossbell.io/json" "POST"
           (JSON_stringify env json)].
Proof.
  unfold JSONparse, fetch, bind, ask, perform, ret, throw. cbn [app].
  destruct (httpFetch env _ _ _ _) as [e | text]; [reflexivity |].
  destruct (JSON_parse env text); reflexivity.
Qed.

(** [retry] runs the function once more than it retries, at most. *)
Lemma retry_runs {A} (fn : M A) (retries : nat) (e : Effect) (env : Env) :
  (forall h, snd (fn env h) = [e]) ->
  forall h,
  exists n, (1 <= n <= S retries)%nat /\
            snd (retry fn retries env h) = repeat e n.
Proof.
  intros Hfn. induction retries as [| k IH]; intros h; cbn [retry].
  - exists 1%nat. split; [lia | apply Hfn].
  - unfold try_catch. specialize (Hfn h).
    destruct (fn env h) as [[err | a] es]; cbn [snd] in *; subst es.
    + destruct (IH (h ++ [e])) as (n & Hn & Hr).
      destruct (retry fn k env (h ++ [e])) as [r es']. cbn [snd] in *.
      subst es'. exists (S n). split; [lia | reflexivity].
    + exists 1%nat. split; [lia | reflexivity].
Qed.

(** [retry] stops at the first run that returns. *)
Lemma retry_returns_at_once {A} (fn : M A) (retries : nat) env h a es :
  fn env h = (inr a, es) -> retry fn retries env h = (inr a, es).
Proof.
  intros E. destruct retries; cbn [retry]; [exact E |].
  unfold try_catch. rewrite E. reflexivity.
Qed.

(** When every run throws, [retry] makes them all and throws. *)
Lemma retry_exhausted {A} (fn : M A) (retries : nat) (e : Effect) (env : Env) :
  (forall h, exists err, fn env h = (inl err, [e])) ->
  forall h, exists err,
    retry fn retries env h = (inl err, repeat e (S retries)).
Proof.
  intros Hfn. induction retries as [| k IH]; intros h; cbn [retry].
  - destruct (Hfn h) as [err E]. exists err. exact E.
  - unfold try_catch. destruct (Hfn h) as [err E]. rewrite E.
    destruct (IH (h ++ [e])) as [err' E']. rewrite E'.
    exists err'. reflexivity.
Qed.

(** [uriToMetadata], run: by the two tests of the URI and the answer of the
    store to the single request. *)
Lemma uriToMetadata_run (uri : string) env h :
  uriToMetadata uri env h
  = if isIpfsUrl env uri then
      if isIpfs_url env uri then
        (match ipfsFetch env h uri with
         | inl err => inl err
         | inr text =>
           match JSON_parse env text with
           | Some v => inr v
           | None =>
             inl (JsError ("Failed to parse metadata from uri: " ++ uri))
           end
         end, [IpfsFetch uri])
      else (inr VUndefined, [LoggerError ("Wrong IPFS url: " ++ uri)])
    else
      (match httpFetch env h uri "GET" "" with
       | inl _ =>
         inl (JsError ("Failed to fetch metadata from uri: " ++ uri
                       ++ " . Response: undefined"))
       | inr text =>
         match JSON_parse env text with
         | Some v => inr v
         | None =>
           inl (JsError ("Failed to fetch metadata from uri: " ++ uri
                         ++ " . Response: " ++ text))
         end
       end, [Fetch uri "GET" ""]).
Proof.
  unfold uriToMetadata. unfold bind at 1, ask at 1. cbn [app].
  rewrite (app_nil_r h).
  destruct (isIpfsUrl env uri).
  - unfold bind at 1, ask at 1. cbn [app]. rewrite (app_nil_r h).
    destruct (isIpfs_url env uri); cbn [negb]; [| reflexivity].
    unfold JSONparse, try_catch, bind, perform, ask, ret, throw.
    destruct (ipfsFetch env h uri) as [e | text]; [reflexivity |].
    destruct (JSON_parse env text); reflexivity.
  - unfold JSONparse, fetch, try_catch, bind, perform, ask, ret, throw.
    destruct (httpFetch env h uri "GET" "") as [e | text]; [reflexivity |].
    destruct (JSON_parse env text); reflexivity.
Qed.

End IpfsFacts.

(** C7 as the specification states it fails for the fetch of [resolve]:
    against a content store whose every request fails, [uploadJson] makes
    four requests, the first one and three retries, while [uriToMetadata]
    makes a single request and raises. *)
Lemma uriToMetadata_fetches_once :
  snd (Ipfs.uploadJson (VObject []) (Scenario.chain []) [])
  = repeat (Fetch "https://ipfs-relay.crossbell.io/json" "POST" "{}") 4 /\
  Ipfs.uriToMetadata "https://example.com/1.json" (Scenario.chain []) []
  = (inl (JsError "Failed to fetch metadata from uri: https://example.com/1.json . Response: undefined"),
     [Fetch "https://example.com/1.json" "GET" ""]).
Proof. repeat split. Qed.

(** C7 (amended): only the upload is retried.  [uploadJson] makes between
    one and four POST requests to the relay and nothing else: one when the
    first request is answered with JSON, four, the first and three retries,
    when the store fails every request.  [uriToMetadata] does not retry: a
    run makes at most one request to the store, a single [fetch] for a URL
    that [isIpfsUrl] does not recognise, a single [ipfsFetch] for an IPFS URL
    that [isIpfs.url] accepts, and none for one that it rejects, which is
    only logged; and when that request fails, or its body is not JSON, the
    run raises at once, having made that single request. *)
Theorem uploadJson_retried_uriToMetadata_not (env : Env) (h : History) :
  (forall json,
     exists n, (1 <= n <= 1 + 3)%nat /\
       snd (Ipfs.uploadJson json env h)
       = repeat (Fetch "https://ipfs-relay.crossbell.io/json" "POST"
                       (JSON_stringify env json)) n) /\
  (forall json text res,
     httpFetch env h "https://ipfs-relay.crossbell.io/json" "POST"
               (JSON_stringify env json) = inr text ->
     JSON_parse env text = Some res ->
     Ipfs.uploadJson json env h
     = (inr res,
        [Fetch "https://ipfs-relay.crossbell.io/json" "POST"
               (JSON_stringify env json)])) /\
  (forall json,
     (forall h' url method body,
        exists err, httpFetch env h' url method body = inl err) ->
     exists err,
       Ipfs.uploadJson json env h
       = (inl err,
          repeat (Fetch "https://ipfs-relay.crossbell.io/json" "POST"
                        (JSON_stringify env json)) 4)) /\
  (forall uri,
     (isIpfsUrl env uri = false /\
      snd (Ipfs.uriToMetadata uri env h) = [Fetch uri "GET" ""]) \/
     (isIpfsUrl env uri = true /\ isIpfs_url env uri = true /\
      snd (Ipfs.uriToMetadata uri env h) = [IpfsFetch uri]) \/
     (isIpfsUrl env uri = true /\ isIpfs_url env uri = false /\
      snd (Ipfs.uriToMetadata uri env h)
      = [LoggerError ("Wrong IPFS url: " ++ uri)])) /\
  (forall uri,
     (length (filter isStoreRequest (snd (Ipfs.uriToMetadata uri env h)))
      <= 1)%nat) /\
  (forall uri err,
     isIpfsUrl env uri = false ->
     httpFetch env h uri "GET" "" = inl err ->
     exists msg,
       Ipfs.uriToMetadata uri env h
       = (inl (JsError msg), [Fetch uri "GET" ""])) /\
  (forall uri text,
     isIpfsUrl env uri = false ->
     httpFetch env h uri "GET" "" = inr text ->
     JSON_parse env text = None ->
     exists msg,
       Ipfs.uriToMetadata uri env h
       = (inl (JsError msg), [Fetch uri "GET" ""])) /\
  (forall uri err,
     isIpfsUrl env uri = true -> isIpfs_url env uri = true ->
     ipfsFetch env h uri = inl err ->
     Ipfs.uriToMetadata uri env h = (inl err, [IpfsFetch uri])) /\
  (forall uri text,
     isIpfsUrl env uri = true -> isIpfs_url env uri = true ->
     ipfsFetch env h uri = inr text ->
     JSON_parse env text = None ->
     exists msg,
       Ipfs.uriToMetadata uri env h
       = (inl (JsError msg), [IpfsFetch uri])).
Proof.
  repeat match goal with |- _ /\ _ => split end.
  - intros json. unfold Ipfs.uploadJson.
    apply IpfsFacts.retry_runs. intros h'.
    apply IpfsFacts.upload_attempt.
  - intros json text res Hf Hp. unfold Ipfs.uploadJson.
    apply IpfsFacts.retry_returns_at_once.
    unfold JSONparse, fetch, bind, ask, perform, ret. cbn [app].
    rewrite app_nil_r, Hf, Hp. reflexivity.
  - intros json Hfail. unfold Ipfs.uploadJson.
    apply IpfsFacts.retry_exhausted. intros h'.
    unfold JSONparse, fetch, bind, ask, perform, ret. cbn [app].
    destruct (Hfail (h' ++ []) "https://ipfs-relay.crossbell.io/json" "POST"
                    (JSON_stringify env json)) as [err ->].
    exists err. reflexivity.
  - intros uri. rewrite IpfsFacts.uriToMetadata_run.
    destruct (isIpfsUrl env uri); [destruct (isIpfs_url env uri) |].
    + right. left. repeat split.
    + right. right. repeat split.
    + left. repeat split.
  - intros uri. rewrite IpfsFacts.uriToMetadata_run.
    destruct (isIpfsUrl env uri); [destruct (isIpfs_url env uri) |];
      cbn; lia.
  - intros uri err H1 Hf. rewrite IpfsFacts.uriToMetadata_run, H1, Hf.
    eexists. reflexivity.
  - intros uri text H1 Hf Hp.
    rewrite IpfsFacts.uriToMetadata_run, H1, Hf, Hp.
    eexists. reflexivity.
  - intros uri err H1 H2 Hf.
    rewrite IpfsFacts.uriToMetadata_run, H1, H2, Hf. reflexivity.
  - intros uri text H1 H2 Hf Hp.
    rewrite IpfsFacts.uriToMetadata_run, H1, H2, Hf, Hp.
    eexists. reflexivity.
Qed.

Lemma uploadJson_exhausts_three_retries :
  (exists err,
     Ipfs.uploadJson (VObject []) (Scenario.chain []) []
     = (inl err,
        repeat (Fetch "https://ipfs-relay.crossbell.io/json" "POST" "{}") 4)) /\
  Ipfs.uploadJson (VObject []) (Stores.relay []) []
  = (inr (VObject [("url", VString Stores.pinned)]),
     [Fetch "https://ipfs-relay.crossbell.io/json" "POST" "{}"]) /\
  (exists msg,
     Ipfs.uriToMetadata "https://example.com/1.json" (Scenario.chain []) []
     = (inl (JsError msg), [Fetch "https://example.com/1.json" "GET" ""])) /\
  (exists msg,
     Ipfs.uriToMetadata "https://example.com/1.json" Stores.garbled []
     = (inl (JsError msg), [Fetch "https://example.com/1.json" "GET" ""])) /\
  Ipfs.uriToMetadata Stores.onGateway
    (Stores.gateway (inl (JsError "fetch failed"))) []
  = (inl (JsError "fetch failed"), [IpfsFetch Stores.onGateway]) /\
  (exists msg,
     Ipfs.uriToMetadata Stores.onGateway (Stores.gateway (inr "<html>")) []
     = (inl (JsError msg), [IpfsFetch Stores.onGateway])).
Proof.
  repeat match goal with |- _ /\ _ => split end.
  - apply (uploadJson_retried_uriToMetadata_not (Scenario.chain []) []).
    intros h' url method body. exists (JsError "fetch failed"). reflexivity.
  - apply (proj1 (proj2 (uploadJson_retried_uriToMetadata_not
                           (Stores.relay []) []))
                 (VObject []) "{url}"); reflexivity.
  - apply (proj1 (proj2 (proj2 (proj2 (proj2 (proj2
             (uploadJson_retried_uriToMetadata_not (Scenario.chain []) []))))))
             "https://example.com/1.json" (JsError "fetch failed"));
      reflexivity.
  - apply (proj1 (proj2 (proj2 (proj2 (proj2 (proj2 (proj2
             (uploadJson_retried_uriToMetadata_not Stores.garbled [])))))))
             "https://example.com/1.json" "<html>");
      reflexivity.
  - apply (proj1 (proj2 (proj2 (proj2 (proj2 (proj2 (proj2 (proj2
             (uploadJson_retried_uriToMetadata_not
                (Stores.gateway (inl (JsError "fetch failed"))) []))))))))
             Stores.onGateway (JsError "fetch failed"));
      reflexivity.
  - apply (proj2 (proj2 (proj2 (proj2 (proj2 (proj2 (proj2 (proj2
             (uploadJson_retried_uriToMetadata_not
                (Stores.gateway (inr "<html>")) []))))))))
             Stores.onGateway "<html>");
      reflexivity.
Defined.

(** C8 as the specification states it fails: on a URI that begins with
    [ipfs://] and that the code's own test, [isIpfs.url], rejects,
    [uriToMetadata] logs the URI and returns [undefined]; no error reaches
    the caller. *)
Lemma uriToMetadata_wrong_ipfs_url_is_silent :
  prefix "ipfs://" (Stores.pinned ++ "/1.json") = true /\
  isIpfsUrl (Stores.gateway (inr "{}")) (Stores.pinned ++ "/1.json") = true /\
  isIpfs_url (Stores.gateway (inr "{}")) (Stores.pinned ++ "/1.json") = false /\
  Ipfs.uriToMetadata (Stores.pinned ++ "/1.json") (Stores.gateway (inr "{}")) []
  = (inr VUndefined,
     [LoggerError
        "Wrong IPFS url: ipfs://QmTMD6sLA7M4iegKDhbdMPBZ4HLi5fjW27w2J16gqc5Cb7/1.json"]).
Proof. repeat split. Qed.

(** C8 (amended): for every URI that [isIpfsUrl] recognises and [isIpfs.url]
    rejects, [uriToMetadata] logs "Wrong IPFS url: " followed by the URI,
    fetches nothing and returns [undefined] without raising.  On every
    other URI it makes one request, a [fetch] for a URL that [isIpfsUrl]
    does not recognise and an [ipfsFetch] otherwise, and returns what
    [JSON.parse] makes of the body that this request returned; it raises an
    [Error] when the request fails or when that body is not JSON. *)
Theorem uriToMetadata_wrong_ipfs_url (env : Env) (h : History) (uri : string) :
  (isIpfsUrl env uri = true -> isIpfs_url env uri = false ->
   Ipfs.uriToMetadata uri env h
   = (inr VUndefined, [LoggerError ("Wrong IPFS url: " ++ uri)])) /\
  (isIpfsUrl env uri = false ->
   Ipfs.uriToMetadata uri env h
   = (match httpFetch env h uri "GET" "" with
      | inl _ =>
        inl (JsError ("Failed to fetch metadata from uri: " ++ uri
                      ++ " . Response: undefined"))
      | inr text =>
        match JSON_parse env text with
        | Some v => inr v
        | None =>
          inl (JsError ("Failed to fetch metadata from uri: " ++ uri
                        ++ " . Response: " ++ text))
        end
      end, [Fetch uri "GET" ""])) /\
  (isIpfsUrl env uri = true -> isIpfs_url env uri = true ->
   Ipfs.uriToMetadata uri env h
   = (match ipfsFetch env h uri with
      | inl err => inl err
      | inr text =>
        match JSON_parse env text with
        | Some v => inr v
        | None => inl (JsError ("Failed to parse metadata from uri: " ++ uri))
        end
      end, [IpfsFetch uri])).
Proof.
  rewrite IpfsFacts.uriToMetadata_run.
  split; [| split].
  - intros -> ->. reflexivity.
  - intros ->. reflexivity.
  - intros -> ->. reflexivity.
Qed.

Lemma uriToMetadata_wrong_ipfs_url_example :
  Ipfs.uriToMetadata (Stores.pinned ++ "/1.json") (Stores.gateway (inr "{}")) []
  = (inr VUndefined,
     [LoggerError
        "Wrong IPFS url: ipfs://QmTMD6sLA7M4iegKDhbdMPBZ4HLi5fjW27w2J16gqc5Cb7/1.json"]) /\
  Ipfs.uriToMetadata "https://example.com/1.json" (Stores.gateway (inr "{}")) []
  = (inr (VObject []), [Fetch "https://example.com/1.json" "GET" ""]) /\
  Ipfs.uriToMetadata "https://example.com/1.json"
    (Stores.gateway (inr "<html>")) []
  = (inl (JsError "Failed to fetch metadata from uri: https://example.com/1.json . Response: <html>"),
     [Fetch "https://example.com/1.json" "GET" ""]) /\
  Ipfs.uriToMetadata Stores.onGateway (Stores.gateway (inr "{}")) []
  = (inr (VObject []), [IpfsFetch Stores.onGateway]) /\
  Ipfs.uriToMetadata Stores.onGateway
    (Stores.gateway (inl (JsError "fetch failed"))) []
  = (inl (JsError "fetch failed"), [IpfsFetch Stores.onGateway]).
Proof.
  repeat match goal with |- _ /\ _ => split end.
  - apply (proj1 (uriToMetadata_wrong_ipfs_url
                    (Stores.gateway (inr "{}")) []
                    (Stores.pinned ++ "/1.json")));
      reflexivity.
  - apply (proj1 (proj2 (uriToMetadata_wrong_ipfs_url
                           (Stores.gateway (inr "{}")) []
                           "https://example.com/1.json"))).
    reflexivity.
  - apply (proj1 (proj2 (uriToMetadata_wrong_ipfs_url
                           (Stores.gateway (inr "<html>")) []
                           "https://example.com/1.json"))).
    reflexivity.
  - apply (proj2 (proj2 (uriToMetadata_wrong_ipfs_url
                           (Stores.gateway (inr "{}")) []
                           Stores.onGateway)));
      reflexivity.
  - apply (proj2 (proj2 (uriToMetadata_wrong_ipfs_url
                           (Stores.gateway (inl (JsError "fetch failed"))) []
                           Stores.onGateway)));
      reflexivity.
Defined.

(** ** The link operations on a chain client that accepts *)

Module ProgressFacts.
Import RunFacts LinkContract.

Lemma submitsThen_pure_bind {A} env h (m : M A) (a : A) (k : A -> M Result)
      post :
  m env h = (inr a, []) ->
  submitsThen env h (k a) post -> submitsThen env h (bind m k) post.
Proof.
  intros Em (es & receipt & Ek & Hs & Ha). exists es, receipt.
  unfold bind. rewrite Em, (app_nil_r h), Ek. cbn [app].
  repeat split; assumption.
Qed.

Lemma submitsThen_write_wait env h c f a ov (tail : Receipt.t -> M Result)
      post :
  accepting env ->
  (forall receipt, pureOutcome (tail receipt) (post receipt)) ->
  submitsThen env h
    (hash <- write c f a ov ;;
     receipt <- waitForTransactionReceipt hash ;; tail receipt) post.
Proof.
  intros (_ & Hsub & Hwait) Ht.
  destruct (Hsub h (mkCall c f a ov)) as [hash Eh].
  destruct (Hwait (h ++ [Submit (mkCall c f a ov)]) hash) as [receipt Er].
  exists [Submit (mkCall c f a ov); WaitForReceipt hash], receipt.
  unfold bind, write, waitForTransactionReceipt, perform.
  rewrite Eh, Er, (Ht receipt env). cbn [app].
  repeat split.
  exists [Submit (mkCall c f a ov)], hash. split; [reflexivity | exact Er].
Qed.

Lemma submitsThen_guard env h (m : M Result) post :
  accepting env ->
  submitsThen env (h ++ [CurrentNetworkId]) m post ->
  submitsThen env h (autoSwitchMainnet m) post.
Proof.
  intros (Hnet & _) (es & receipt & Em & Hs & Ha).
  exists (CurrentNetworkId :: es), receipt.
  unfold autoSwitchMainnet, bind, perform, ask.
  rewrite Hnet, Z.eqb_refl, (app_nil_r (h ++ _)), Em. cbn [app].
  repeat split; [exact Hs |].
  apply (awaited_app env h [CurrentNetworkId]). exact Ha.
Qed.

Lemma padToHex_fits (linkType : Utf8.ustring) env h :
  (length (AddressCodec.toHex linkType) <= 32)%nat ->
  padToHex linkType env h
  = (inr (VHex (AddressCodec.toHex linkType
                ++ repeat 0 (32 - length (AddressCodec.toHex linkType)))), []).
Proof.
  intros Hfit. unfold padToHex, bind, liftE, AddressCodec.encodeLinkType.
  rewrite CodecFacts.pad_ok by exact Hfit. reflexivity.
Qed.

Lemma validateAddress_valid (address : Address) env h :
  isAddress env address = true -> validateAddress address env h = (inr tt, []).
Proof.
  intros Hv. unfold validateAddress, bind, ask. rewrite Hv. reflexivity.
Qed.

Lemma forEachM_validateAddress_valid (addresses : list Address) env h :
  forallb (isAddress env) addresses = true ->
  forEachM (fun address => validateAddress address) addresses env h
  = (inr tt, []).
Proof.
  revert h. induction addresses as [| a l IH]; intros h; [reflexivity |].
  cbn [forallb forEachM]. intros Hv. apply andb_prop in Hv as [Ha Hl].
  unfold bind. rewrite (validateAddress_valid a env h Ha), (app_nil_r h).
  rewrite (IH h Hl). reflexivity.
Qed.

(** The match of a name that the receipt holds once. *)
Lemma parseLog_one (name : string) (strict : bool)
      (events : list EventRecord) :
  EventLogMatcher.countNamed name events = 1%nat ->
  exists e,
    In e events /\ eventName e = name /\
    EventLogMatcher.parseLog events name strict = inr e.
Proof.
  rewrite MatcherFacts.countNamed_filter.
  unfold EventLogMatcher.parseLog, EventLogMatcher.matchEvents.
  destruct (filter (EventLogMatcher.named name) events) as [| e [| e2 rest]] eqn:F;
    cbn [length]; intros Hc; try discriminate Hc.
  exists e.
  assert (He : In e (filter (EventLogMatcher.named name) events))
    by (rewrite F; left; reflexivity).
  apply filter_In in He as [Hin Hn]. apply String.eqb_eq in Hn.
  destruct strict; repeat split; assumption.
Qed.

(** The lenient match of a name that the receipt holds. *)
Lemma parseLog_some (name : string) (events : list EventRecord) :
  (1 <= EventLogMatcher.countNamed name events)%nat ->
  exists e,
    In e events /\ eventName e = name /\
    EventLogMatcher.parseLog events name false = inr e.
Proof.
  rewrite MatcherFacts.countNamed_filter.
  unfold EventLogMatcher.parseLog, EventLogMatcher.matchEvents.
  destruct (filter (EventLogMatcher.named name) events) as [| e rest] eqn:F;
    cbn [length]; intros Hc; [lia |].
  exists e.
  assert (He : In e (filter (EventLogMatcher.named name) events))
    by (rewrite F; left; reflexivity).
  apply filter_In in He as [Hin Hn]. apply String.eqb_eq in Hn.
  cbn [negb EventLogMatcher.first_match hd_error]. repeat split; assumption.
Qed.

Lemma awaited_answer env h es receipt :
  awaited env h es receipt ->
  exists h' hash, waitForReceipt env h' hash = inr receipt.
Proof. intros (es1 & hash & _ & A). exists (h ++ es1), hash. exact A. Qed.

Ltac pure_step :=
  first [ apply padToHex_fits; assumption
        | apply validateAddress_valid; assumption
        | apply forEachM_validateAddress_valid; assumption
        | reflexivity ].

(** Down to the receipt: the decorator, the steps before the call, the
    call and the wait. *)
Ltac proceed :=
  try (apply submitsThen_guard; [assumption |]);
  repeat (eapply submitsThen_pure_bind; [solve [pure_step] |]);
  apply submitsThen_write_wait; [assumption |]; intros receipt env' h'.

Ltac link_proceeds :=
  proceed;
  unfold bind, parseLog, liftE, ret, linklistIdOf;
  destruct (EventLogMatcher.parseLog _ _ _); reflexivity.

Section Accepting.
Variable env : Env.
Variable h : History.
Hypothesis Hacc : accepting env.

Lemma linkCharacter_proceeds f t lt d ov :
  (length (AddressCodec.toHex lt) <= 32)%nat ->
  submitsThen env h (linkCharacter f t lt d ov)
              (linklistIdOf "LinkCharacter" true).
Proof. intros Hfit. unfold linkCharacter. link_proceeds. Qed.

Lemma linkCharactersInBatch_proceeds f ids addrs lt d ov :
  forallb (isAddress env) addrs = true ->
  (length (AddressCodec.toHex lt) <= 32)%nat ->
  submitsThen env h (linkCharactersInBatch f ids addrs lt d ov)
              (linklistIdOf "LinkCharacter" false).
Proof. intros Hv Hfit. unfold linkCharactersInBatch. link_proceeds. Qed.

Lemma createThenLinkCharacter_proceeds f a lt ov :
  isAddress env a = true ->
  (length (AddressCodec.toHex lt) <= 32)%nat ->
  submitsThen env h (createThenLinkCharacter f a lt ov) createdAndLinkedOf.
Proof.
  intros Hv Hfit. unfold createThenLinkCharacter. proceed.
  unfold bind, parseLog, liftE, ret, createdAndLinkedOf.
  destruct (EventLogMatcher.parseLog _ "CharacterCreated" _); [reflexivity |].
  destruct (EventLogMatcher.parseLog _ "LinkCharacter" _); reflexivity.
Qed.

Lemma linkAddress_proceeds f a lt d ov :
  (length (AddressCodec.toHex lt) <= 32)%nat ->
  submitsThen env h (linkAddress f a lt d ov) (linklistIdOf "LinkAddress" true).
Proof. intros Hfit. unfold linkAddress. link_proceeds. Qed.

Lemma linkAnyUri_proceeds f u lt d ov :
  (length (AddressCodec.toHex lt) <= 32)%nat ->
  submitsThen env h (linkAnyUri f u lt d ov) (linklistIdOf "LinkAnyUri" true).
Proof. intros Hfit. unfold linkAnyUri. link_proceeds. Qed.

Lemma linkErc721_proceeds f a t lt d ov :
  (length (AddressCodec.toHex lt) <= 32)%nat ->
  submitsThen env h (linkErc721 f a t lt d ov) (linklistIdOf "LinkAnyUri" true).
Proof. intros Hfit. unfold linkErc721. link_proceeds. Qed.

Lemma linkNote_proceeds f t n lt d ov :
  (length (AddressCodec.toHex lt) <= 32)%nat ->
  submitsThen env h (linkNote f t n lt d ov) (linklistIdOf "LinkNote" true).
Proof. intros Hfit. unfold linkNote. link_proceeds. Qed.

Lemma linkLinklist_proceeds f l lt d ov :
  (length (AddressCodec.toHex lt) <= 32)%nat ->
  submitsThen env h (linkLinklist f l lt d ov) (linklistIdOf "LinkNote" true).
Proof. intros Hfit. unfold linkLinklist. link_proceeds. Qed.

Lemma unlinkCharacter_proceeds f t lt ov :
  (length (AddressCodec.toHex lt) <= 32)%nat ->
  submitsThen env h (unlinkCharacter f t lt ov) receiptOnly.
Proof. intros Hfit. unfold unlinkCharacter. proceed. reflexivity. Qed.

Lemma unlinkAddress_proceeds f a lt ov :
  (length (AddressCodec.toHex lt) <= 32)%nat ->
  submitsThen env h (unlinkAddress f a lt ov) receiptOnly.
Proof. intros Hfit. unfold unlinkAddress. proceed. reflexivity. Qed.

Lemma unlinkAnyUri_proceeds f u lt ov :
  (length (AddressCodec.toHex lt) <= 32)%nat ->
  submitsThen env h (unlinkAnyUri f u lt ov) receiptOnly.
Proof. intros Hfit. unfold unlinkAnyUri. proceed. reflexivity. Qed.

Lemma unlinkErc721_proceeds f a t lt ov :
  (length (AddressCodec.toHex lt) <= 32)%nat ->
  submitsThen env h (unlinkErc721 f a t lt ov) receiptOnly.
Proof. intros Hfit. unfold unlinkErc721. proceed. reflexivity. Qed.

Lemma unlinkNote_proceeds f t n lt ov :
  (length (AddressCodec.toHex lt) <= 32)%nat ->
  submitsThen env h (unlinkNote f t n lt ov) receiptOnly.
Proof. intros Hfit. unfold unlinkNote. proceed. reflexivity. Qed.

Lemma unlinkLinklist_proceeds f l lt ov :
  (length (AddressCodec.toHex lt) <= 32)%nat ->
  submitsThen env h (unlinkLinklist f l lt ov) receiptOnly.
Proof. intros Hfit. unfold unlinkLinklist. proceed. reflexivity. Qed.

Lemma setLinklistUri_proceeds f uri :
  submitsThen env h (setLinklistUri f uri) receiptOnly.
Proof. unfold setLinklistUri. proceed. reflexivity. Qed.

End Accepting.

(** *** From the receipt to the result *)

Lemma returns_receiptOnly env h (m : M Result) :
  submitsThen env h m receiptOnly -> returnsReceiptHash env h m.
Proof.
  intros (es & receipt & E & Hs & Ha). unfold receiptOnly in E.
  eexists _, es, receipt.
  split; [exact E | split; [exact Hs | split; [exact Ha | reflexivity]]].
Qed.

Lemma returns_linklistId env h (m : M Result) name strict :
  submitsThen env h m (linklistIdOf name strict) ->
  emits env name 1 -> returnsReceiptHash env h m.
Proof.
  intros (es & receipt & E & Hs & Ha) Hem.
  destruct (awaited_answer _ _ _ _ Ha) as (h' & hash & Hw).
  destruct (parseLog_one name strict _ (Hem _ _ _ Hw)) as (e & _ & _ & Hp).
  unfold linklistIdOf in E. rewrite Hp in E.
  eexists _, es, receipt.
  split; [exact E | split; [exact Hs | split; [exact Ha | reflexivity]]].
Qed.

Lemma returns_first_linklistId env h (m : M Result) name :
  submitsThen env h m (linklistIdOf name false) ->
  emitsSome env name -> returnsReceiptHash env h m.
Proof.
  intros (es & receipt & E & Hs & Ha) Hem.
  destruct (awaited_answer _ _ _ _ Ha) as (h' & hash & Hw).
  destruct (parseLog_some name _ (Hem _ _ _ Hw)) as (e & _ & _ & Hp).
  unfold linklistIdOf in E. rewrite Hp in E.
  eexists _, es, receipt.
  split; [exact E | split; [exact Hs | split; [exact Ha | reflexivity]]].
Qed.

Lemma returns_createdAndLinked env h (m : M Result) :
  submitsThen env h m createdAndLinkedOf ->
  emits env "CharacterCreated" 1 -> emits env "LinkCharacter" 1 ->
  returnsReceiptHash env h m.
Proof.
  intros (es & receipt & E & Hs & Ha) Hc Hl.
  destruct (awaited_answer _ _ _ _ Ha) as (h' & hash & Hw).
  destruct (parseLog_one "CharacterCreated" true _ (Hc _ _ _ Hw))
    as (c & _ & _ & Hpc).
  destruct (parseLog_one "LinkCharacter" true _ (Hl _ _ _ Hw))
    as (l & _ & _ & Hpl).
  unfold createdAndLinkedOf in E. rewrite Hpc, Hpl in E.
  eexists _, es, receipt.
  split; [exact E | split; [exact Hs | split; [exact Ha | reflexivity]]].
Qed.

(** *** The reads *)

(** One [character.get] per id, in the order of the ids, whatever the
    answers are. *)
Lemma promiseAll_characterGet (ids : list Value) env h :
  promiseAll (fun id => perform (CharacterGet id)
                                (fun env h => characterGet env h id)) ids env h
  = (firstError (charactersOf env h ids), map CharacterGet ids).
Proof.
  revert h.
  induction ids as [| id ids IH]; intros h;
    cbn [promiseAll charactersOf firstError map]; [reflexivity |].
  unfold perform at 1. rewrite IH.
  destruct (characterGet env h id) as [e | c]; [reflexivity |].
  destruct (firstError _) as [e | cs]; reflexivity.
Qed.

Lemma firstError_charactersOf env h (ids : list Value) :
  (forall h id, exists character, characterGet env h id = inr character) ->
  exists characters, firstError (charactersOf env h ids) = inr characters.
Proof.
  intros Hget. revert h.
  induction ids as [| id ids IH]; intros h; cbn [charactersOf firstError].
  - exists []. reflexivity.
  - destruct (Hget h id) as [c ->].
    destruct (IH (h ++ [CharacterGet id])) as [cs ->].
    exists (c :: cs). reflexivity.
Qed.

Lemma no_submit_in_gets (ids : list Value) :
  existsb isSubmit (map CharacterGet ids) = false.
Proof. induction ids as [| id ids IH]; [reflexivity | exact IH]. Qed.

Section Answering.
Variable env : Env.
Variable h : History.
Hypothesis Hans : answering env.

Lemma getLinklistIdByTransaction_returns hash :
  returnsNoHash env h (getLinklistIdByTransaction hash).
Proof.
  destruct Hans as (_ & _ & Hget).
  destruct (Hget h hash) as (receipt & Er & Hc).
  destruct (parseLog_one "LinkCharacter" true _ Hc) as (e & _ & _ & Hp).
  eexists _, [GetReceipt hash].
  unfold getLinklistIdByTransaction, getTransactionReceipt, parseLog, bind,
    perform, liftE, ret.
  rewrite Er, Hp. cbn [app]. repeat split.
Qed.

Lemma getLinkingCharacterIds_returns f lt ov :
  (length (AddressCodec.toHex lt) <= 32)%nat ->
  returnsNoHash env h (getLinkingCharacterIds f lt ov).
Proof.
  intros Hfit. destruct Hans as (Hread & _ & _).
  unfold returnsNoHash, getLinkingCharacterIds.
  unfold bind at 1. rewrite padToHex_fits by exact Hfit.
  rewrite (app_nil_r h). unfold bind at 1, read, perform.
  match goal with
  | |- context [readContract env h ?c] => destruct (Hread h c) as [items ->]
  end.
  unfold bind, asArray, ret. cbn [app].
  eexists _, _. repeat split.
Qed.

Lemma getLinkingCharacters_returns f lt ov :
  (length (AddressCodec.toHex lt) <= 32)%nat ->
  returnsNoHash env h (getLinkingCharacters f lt ov).
Proof.
  intros Hfit. destruct Hans as (Hread & Hget & _).
  unfold returnsNoHash, getLinkingCharacters.
  unfold bind at 1. rewrite padToHex_fits by exact Hfit.
  rewrite (app_nil_r h). unfold bind at 1, read, perform.
  match goal with
  | |- context [readContract env h ?c] => destruct (Hread h c) as [items ->]
  end.
  unfold bind at 1, asArray, ret at 1. rewrite (app_nil_r (h ++ _)).
  unfold bind. rewrite promiseAll_characterGet.
  destruct (firstError_charactersOf env (h ++ [ReadContract
     (mkCall Periphery "getLinkingCharacterIds"
        [BigInt f; VHex (AddressCodec.toHex lt
                         ++ repeat 0 (32 - length (AddressCodec.toHex lt)))] ov)])
     items Hget) as [cs ->].
  cbn [ret app]. eexists _, _. split; [reflexivity |].
  split; [| reflexivity].
  rewrite app_nil_r. cbn [existsb isSubmit orb]. apply no_submit_in_gets.
Qed.

Lemma getLinklistUri_returns f : returnsNoHash env h (getLinklistUri f).
Proof.
  destruct Hans as (Hread & _ & _).
  unfold returnsNoHash, getLinklistUri, bind, read, perform.
  match goal with
  | |- context [readContract env h ?c] => destruct (Hread h c) as [items ->]
  end.
  cbn [ret app]. eexists _, _. repeat split.
Qed.

End Answering.

End ProgressFacts.

(** C9: the result envelope of every operation of [LinkContract].  A
    mutating operation that returns has submitted a call and its result
    carries the hash of the receipt it obtained; the unlink variants and
    [setLinklistUri] do so with [undefined] as data.  A read-only operation
    that returns has submitted nothing and its result has no
    [transactionHash].  And the operations do return: on a chain client
    that is on the deployment network, accepts every call and answers every
    wait with a receipt that holds the event the operation looks for, each
    mutating operation, given a link type that fits the tag and well-formed
    addresses, returns a result with the receipt's hash; on a client that
    answers the reads, each read-only operation returns a result without
    one. *)
Theorem result_envelope :
  ((forall f t lt d ov, carriesReceiptHash (LinkContract.linkCharacter f t lt d ov)) /\
   (forall f ids addrs lt d ov,
      carriesReceiptHash (LinkContract.linkCharactersInBatch f ids addrs lt d ov)) /\
   (forall f a lt ov, carriesReceiptHash (LinkContract.createThenLinkCharacter f a lt ov)) /\
   (forall f a lt d ov, carriesReceiptHash (LinkContract.linkAddress f a lt d ov)) /\
   (forall f u lt d ov, carriesReceiptHash (LinkContract.linkAnyUri f u lt d ov)) /\
   (forall f a t lt d ov, carriesReceiptHash (LinkContract.linkErc721 f a t lt d ov)) /\
   (forall f t n lt d ov, carriesReceiptHash (LinkContract.linkNote f t n lt d ov)) /\
   (forall f l lt d ov, carriesReceiptHash (LinkContract.linkLinklist f l lt d ov))) /\
  ((forall f t lt ov,
      carriesReceiptHash (LinkContract.unlinkCharacter f t lt ov) /\
      dataUndefined (LinkContract.unlinkCharacter f t lt ov)) /\
   (forall f a lt ov,
      carriesReceiptHash (LinkContract.unlinkAddress f a lt ov) /\
      dataUndefined (LinkContract.unlinkAddress f a lt ov)) /\
   (forall f u lt ov,
      carriesReceiptHash (LinkContract.unlinkAnyUri f u lt ov) /\
      dataUndefined (LinkContract.unlinkAnyUri f u lt ov)) /\
   (forall f a t lt ov,
      carriesReceiptHash (LinkContract.unlinkErc721 f a t lt ov) /\
      dataUndefined (LinkContract.unlinkErc721 f a t lt ov)) /\
   (forall f t n lt ov,
      carriesReceiptHash (LinkContract.unlinkNote f t n lt ov) /\
      dataUndefined (LinkContract.unlinkNote f t n lt ov)) /\
   (forall f l lt ov,
      carriesReceiptHash (LinkContract.unlinkLinklist f l lt ov) /\
      dataUndefined (LinkContract.unlinkLinklist f l lt ov)) /\
   (forall f uri,
      carriesReceiptHash (LinkContract.setLinklistUri f uri) /\
      dataUndefined (LinkContract.setLinklistUri f uri))) /\
  ((forall hash, carriesNoHash (LinkContract.getLinklistIdByTransaction hash)) /\
   (forall f lt ov, carriesNoHash (LinkContract.getLinkingCharacterIds f lt ov)) /\
   (forall f lt ov, carriesNoHash (LinkContract.getLinkingCharacters f lt ov)) /\
   (forall f, carriesNoHash (LinkContract.getLinklistUri f))) /\
  (forall env h,
     accepting env ->
     (forall f t lt d ov,
        (length (AddressCodec.toHex lt) <= 32)%nat ->
        emits env "LinkCharacter" 1 ->
        returnsReceiptHash env h (LinkContract.linkCharacter f t lt d ov)) /\
     (forall f ids addrs lt d ov,
        forallb (isAddress env) addrs = true ->
        (length (AddressCodec.toHex lt) <= 32)%nat ->
        emitsSome env "LinkCharacter" ->
        returnsReceiptHash env h
          (LinkContract.linkCharactersInBatch f ids addrs lt d ov)) /\
     (forall f a lt ov,
        isAddress env a = true ->
        (length (AddressCodec.toHex lt) <= 32)%nat ->
        emits env "CharacterCreated" 1 ->
        emits env "LinkCharacter" 1 ->
        returnsReceiptHash env h
          (LinkContract.createThenLinkCharacter f a lt ov)) /\
     (forall f a lt d ov,
        (length (AddressCodec.toHex lt) <= 32)%nat ->
        emits env "LinkAddress" 1 ->
        returnsReceiptHash env h (LinkContract.linkAddress f a lt d ov)) /\
     (forall f u lt d ov,
        (length (AddressCodec.toHex lt) <= 32)%nat ->
        emits env "LinkAnyUri" 1 ->
        returnsReceiptHash env h (LinkContract.linkAnyUri f u lt d ov)) /\
     (forall f a t lt d ov,
        (length (AddressCodec.toHex lt) <= 32)%nat ->
        emits env "LinkAnyUri" 1 ->
        returnsReceiptHash env h (LinkContract.linkErc721 f a t lt d ov)) /\
     (forall f t n lt d ov,
        (length (AddressCodec.toHex lt) <= 32)%nat ->
        emits env "LinkNote" 1 ->
        returnsReceiptHash env h (LinkContract.linkNote f t n lt d ov)) /\
     (forall f l lt d ov,
        (length (AddressCodec.toHex lt) <= 32)%nat ->
        emits env "LinkNote" 1 ->
        returnsReceiptHash env h (LinkContract.linkLinklist f l lt d ov)) /\
     (forall f t lt ov,
        (length (AddressCodec.toHex lt) <= 32)%nat ->
        returnsReceiptHash env h (LinkContract.unlinkCharacter f t lt ov)) /\
     (forall f a lt ov,
        (length (AddressCodec.toHex lt) <= 32)%nat ->
        returnsReceiptHash env h (LinkContract.unlinkAddress f a lt ov)) /\
     (forall f u lt ov,
        (length (AddressCodec.toHex lt) <= 32)%nat ->
        returnsReceiptHash env h (LinkContract.unlinkAnyUri f u lt ov)) /\
     (forall f a t lt ov,
        (length (AddressCodec.toHex lt) <= 32)%nat ->
        returnsReceiptHash env h (LinkContract.unlinkErc721 f a t lt ov)) /\
     (forall f t n lt ov,
        (length (AddressCodec.toHex lt) <= 32)%nat ->
        returnsReceiptHash env h (LinkContract.unlinkNote f t n lt ov)) /\
     (forall f l lt ov,
        (length (AddressCodec.toHex lt) <= 32)%nat ->
        returnsReceiptHash env h (LinkContract.unlinkLinklist f l lt ov)) /\
     (forall f uri,
        returnsReceiptHash env h (LinkContract.setLinklistUri f uri))) /\
  (forall env h,
     answering env ->
     (forall hash,
        returnsNoHash env h (LinkContract.getLinklistIdByTransaction hash)) /\
     (forall f lt ov,
        (length (AddressCodec.toHex lt) <= 32)%nat ->
        returnsNoHash env h (LinkContract.getLinkingCharacterIds f lt ov)) /\
     (forall f lt ov,
        (length (AddressCodec.toHex lt) <= 32)%nat ->
        returnsNoHash env h (LinkContract.getLinkingCharacters f lt ov)) /\
     (forall f, returnsNoHash env h (LinkContract.getLinklistUri f))).
Proof.
  split; [| split; [| split; [| split]]].
  - repeat match goal with |- _ /\ _ => split end.
    + exact LinkFacts.linkCharacter_carries.
    + exact LinkFacts.linkCharactersInBatch_carries.
    + exact LinkFacts.createThenLinkCharacter_carries.
    + exact LinkFacts.linkAddress_carries.
    + exact LinkFacts.linkAnyUri_carries.
    + exact LinkFacts.linkErc721_carries.
    + exact LinkFacts.linkNote_carries.
    + exact LinkFacts.linkLinklist_carries.
  - repeat match goal with |- _ /\ _ => split end.
    + exact LinkFacts.unlinkCharacter_envelope.
    + exact LinkFacts.unlinkAddress_envelope.
    + exact LinkFacts.unlinkAnyUri_envelope.
    + exact LinkFacts.unlinkErc721_envelope.
    + exact LinkFacts.unlinkNote_envelope.
    + exact LinkFacts.unlinkLinklist_envelope.
    + exact LinkFacts.setLinklistUri_envelope.
  - repeat match goal with |- _ /\ _ => split end.
    + exact LinkFacts.getLinklistIdByTransaction_noHash.
    + exact LinkFacts.getLinkingCharacterIds_noHash.
    + exact LinkFacts.getLinkingCharacters_noHash.
    + exact LinkFacts.getLinklistUri_noHash.
  - intros env h Hacc.
    repeat match goal with |- _ /\ _ => split end; intros.
    + eapply ProgressFacts.returns_linklistId;
        [apply ProgressFacts.linkCharacter_proceeds |]; assumption.
    + eapply ProgressFacts.returns_first_linklistId;
        [apply ProgressFacts.linkCharactersInBatch_proceeds |]; assumption.
    + eapply ProgressFacts.returns_createdAndLinked;
        [apply ProgressFacts.createThenLinkCharacter_proceeds | |]; assumption.
    + eapply ProgressFacts.returns_linklistId;
        [apply ProgressFacts.linkAddress_proceeds |]; assumption.
    + eapply ProgressFacts.returns_linklistId;
        [apply ProgressFacts.linkAnyUri_proceeds |]; assumption.
    + eapply ProgressFacts.returns_linklistId;
        [apply ProgressFacts.linkErc721_proceeds |]; assumption.
    + eapply ProgressFacts.returns_linklistId;
        [apply ProgressFacts.linkNote_proceeds |]; assumption.
    + eapply ProgressFacts.returns_linklistId;
        [apply ProgressFacts.linkLinklist_proceeds |]; assumption.
    + apply ProgressFacts.returns_receiptOnly.
      apply ProgressFacts.unlinkCharacter_proceeds; assumption.
    + apply ProgressFacts.returns_receiptOnly.
      apply ProgressFacts.unlinkAddress_proceeds; assumption.
    + apply ProgressFacts.returns_receiptOnly.
      apply ProgressFacts.unlinkAnyUri_proceeds; assumption.
    + apply ProgressFacts.returns_receiptOnly.
      apply ProgressFacts.unlinkErc721_proceeds; assumption.
    + apply ProgressFacts.returns_receiptOnly.
      apply ProgressFacts.unlinkNote_proceeds; assumption.
    + apply ProgressFacts.returns_receiptOnly.
      apply ProgressFacts.unlinkLinklist_proceeds; assumption.
    + apply ProgressFacts.returns_receiptOnly.
      apply ProgressFacts.setLinklistUri_proceeds; assumption.
  - intros env h Hans.
    repeat match goal with |- _ /\ _ => split end; intros.
    + apply ProgressFacts.getLinklistIdByTransaction_returns; assumption.
    + apply ProgressFacts.getLinkingCharacterIds_returns; assumption.
    + apply ProgressFacts.getLinkingCharacters_returns; assumption.
    + apply ProgressFacts.getLinklistUri_returns; assumption.
Qed.

Lemma result_envelope_unlink_and_read :
  ((existsb isSubmit
      (snd (LinkContract.unlinkCharacter 1 2 Scenario.follow Scenario.noOverrides
              (Scenario.chain []) [])) = true /\
    exists receipt,
      awaited (Scenario.chain []) []
        (snd (LinkContract.unlinkCharacter 1 2 Scenario.follow
                Scenario.noOverrides (Scenario.chain []) [])) receipt /\
      transactionHash {| data := VUndefined; transactionHash := Some "0xabc" |}
      = Some (Receipt.transactionHash receipt)) /\
   (existsb isSubmit
      (snd (LinkContract.getLinklistIdByTransaction "0xabc"
              (Scenario.chain [Scenario.linkEvent "LinkCharacter" 5]) [])) = false /\
    transactionHash {| data := VBigInt 5; transactionHash := None |} = None)) /\
  (returnsReceiptHash (Scenario.chain Scenario.everyLink) []
     (LinkContract.linkCharacter 1 2 Scenario.follow VUndefined
                                 Scenario.noOverrides) /\
   returnsReceiptHash (Scenario.chain Scenario.everyLink) []
     (LinkContract.linkCharactersInBatch 1 [2; 3] [Scenario.someAddress]
        Scenario.follow VUndefined Scenario.noOverrides) /\
   returnsReceiptHash (Scenario.chain Scenario.everyLink) []
     (LinkContract.createThenLinkCharacter 1 Scenario.someAddress
        Scenario.follow Scenario.noOverrides) /\
   returnsReceiptHash (Scenario.chain Scenario.everyLink) []
     (LinkContract.linkAddress 1 Scenario.someAddress Scenario.follow
        VUndefined Scenario.noOverrides) /\
   returnsReceiptHash (Scenario.chain Scenario.everyLink) []
     (LinkContract.linkAnyUri 1 "https://example.com" Scenario.follow
        VUndefined Scenario.noOverrides) /\
   returnsReceiptHash (Scenario.chain Scenario.everyLink) []
     (LinkContract.linkErc721 1 Scenario.someAddress 9 Scenario.follow
        VUndefined Scenario.noOverrides) /\
   returnsReceiptHash (Scenario.chain Scenario.everyLink) []
     (LinkContract.linkNote 1 2 3 Scenario.follow VUndefined
        Scenario.noOverrides) /\
   returnsReceiptHash (Scenario.chain Scenario.everyLink) []
     (LinkContract.linkLinklist 1 2 Scenario.follow VUndefined
        Scenario.noOverrides) /\
   returnsReceiptHash (Scenario.chain []) []
     (LinkContract.unlinkCharacter 1 2 Scenario.follow Scenario.noOverrides) /\
   returnsReceiptHash (Scenario.chain []) []
     (LinkContract.unlinkAddress 1 Scenario.someAddress Scenario.follow
        Scenario.noOverrides) /\
   returnsReceiptHash (Scenario.chain []) []
     (LinkContract.unlinkAnyUri 1 "https://example.com" Scenario.follow
        Scenario.noOverrides) /\
   returnsReceiptHash (Scenario.chain []) []
     (LinkContract.unlinkErc721 1 Scenario.someAddress 9 Scenario.follow
        Scenario.noOverrides) /\
   returnsReceiptHash (Scenario.chain []) []
     (LinkContract.unlinkNote 1 2 3 Scenario.follow Scenario.noOverrides) /\
   returnsReceiptHash (Scenario.chain []) []
     (LinkContract.unlinkLinklist 1 2 Scenario.follow Scenario.noOverrides) /\
   returnsReceiptHash (Scenario.chain []) []
     (LinkContract.setLinklistUri 1 "ipfs://QmTMD6sLA7M4iegKDhbdMPBZ4HLi5fjW27w2J16gqc5Cb7")) /\
  (returnsNoHash Stores.linked [] (LinkContract.getLinklistIdByTransaction "0xabc") /\
   returnsNoHash Stores.linked []
     (LinkContract.getLinkingCharacterIds 1 Scenario.follow Scenario.noOverrides) /\
   returnsNoHash Stores.linked []
     (LinkContract.getLinkingCharacters 1 Scenario.follow Scenario.noOverrides) /\
   returnsNoHash Stores.linked [] (LinkContract.getLinklistUri 1)).
Proof.
  destruct result_envelope
    as (_ & (Hunlink & _) & (Hread & _) & Hreturns & Hreads).
  assert (Hacc : forall logs, accepting (Scenario.chain logs)).
  { intros logs. repeat split; intros; eexists; reflexivity. }
  assert (Hone : forall name,
             EventLogMatcher.countNamed name Scenario.everyLink = 1%nat ->
             emits (Scenario.chain Scenario.everyLink) name 1).
  { intros name Hc h hash receipt E. injection E as <-. exact Hc. }
  assert (Hsome : emitsSome (Scenario.chain Scenario.everyLink) "LinkCharacter").
  { intros h hash receipt E. injection E as <-. vm_compute. lia. }
  assert (Hfit : (length (AddressCodec.toHex Scenario.follow) <= 32)%nat).
  { vm_compute. lia. }
  assert (Hans : answering Stores.linked).
  { repeat split; intros; eexists; try split; reflexivity. }
  split; [split | split].
  - apply (proj1 (Hunlink 1 2 Scenario.follow Scenario.noOverrides)
                 (Scenario.chain []) []).
    reflexivity.
  - apply (Hread "0xabc" (Scenario.chain [Scenario.linkEvent "LinkCharacter" 5]) []).
    reflexivity.
  - pose proof (Hreturns (Scenario.chain Scenario.everyLink) []
                         (Hacc Scenario.everyLink))
      as (H1 & H2 & H3 & H4 & H5 & H6 & H7 & H8 & _).
    pose proof (Hreturns (Scenario.chain []) [] (Hacc []))
      as (_ & _ & _ & _ & _ & _ & _ & _ & U1 & U2 & U3 & U4 & U5 & U6 & U7).
    repeat match goal with |- _ /\ _ => split end.
    + apply H1; [exact Hfit | apply Hone; reflexivity].
    + apply H2; [reflexivity | exact Hfit | exact Hsome].
    + apply H3; [reflexivity | exact Hfit | apply Hone; reflexivity
                 | apply Hone; reflexivity].
    + apply H4; [exact Hfit | apply Hone; reflexivity].
    + apply H5; [exact Hfit | apply Hone; reflexivity].
    + apply H6; [exact Hfit | apply Hone; reflexivity].
    + apply H7; [exact Hfit | apply Hone; reflexivity].
    + apply H8; [exact Hfit | apply Hone; reflexivity].
    + apply U1; exact Hfit.
    + apply U2; exact Hfit.
    + apply U3; exact Hfit.
    + apply U4; exact Hfit.
    + apply U5; exact Hfit.
    + apply U6; exact Hfit.
    + apply U7.
  - pose proof (Hreads Stores.linked [] Hans) as (R1 & R2 & R3 & R4).
    repeat match goal with |- _ /\ _ => split end.
    + apply R1.
    + apply R2; exact Hfit.
    + apply R3; exact Hfit.
    + apply R4.
Defined.

(** C10: [linkErc721] takes its linklist id from the event named
    [LinkAnyUri], and [linkLinklist] from the event named [LinkNote].  Once
    the receipt is obtained the outcome is what the strict match of that
    name gives, so a receipt without an event of that name, whatever other
    link events it holds, makes the operation fail with [EventNotFound].
    And the operations get that far: on a chain client that is on the
    deployment network, accepts every call and answers every wait with a
    receipt, each of them, given a link type that fits the tag, submits its
    call and then fails with [EventNotFound] when the receipts hold no event
    of that name, and returns the linklist id of the event of that name,
    with the receipt's hash, when they hold one. *)
Theorem linkErc721_linkLinklist_event_names (env : Env) (h : History) :
  (forall outcome es receipt f a t lt d ov,
     LinkContract.linkErc721 f a t lt d ov env h = (outcome, es) ->
     awaited env h es receipt ->
     outcome = linklistIdOf "LinkAnyUri" true receipt /\
     (EventLogMatcher.countNamed "LinkAnyUri" (Receipt.logs receipt) = 0%nat ->
      outcome = inl EventNotFound)) /\
  (forall outcome es receipt f l lt d ov,
     LinkContract.linkLinklist f l lt d ov env h = (outcome, es) ->
     awaited env h es receipt ->
     outcome = linklistIdOf "LinkNote" true receipt /\
     (EventLogMatcher.countNamed "LinkNote" (Receipt.logs receipt) = 0%nat ->
      outcome = inl EventNotFound)) /\
  (accepting env ->
   forall f a t lt d ov,
     (length (AddressCodec.toHex lt) <= 32)%nat ->
     (emits env "LinkAnyUri" 0 ->
      exists es,
        LinkContract.linkErc721 f a t lt d ov env h = (inl EventNotFound, es) /\
        existsb isSubmit es = true) /\
     (emits env "LinkAnyUri" 1 ->
      exists es receipt e,
        LinkContract.linkErc721 f a t lt d ov env h
        = (inr {| data := lookup_field "linklistId" (args e);
                  transactionHash := Some (Receipt.transactionHash receipt) |},
           es) /\
        awaited env h es receipt /\
        In e (Receipt.logs receipt) /\ eventName e = "LinkAnyUri")) /\
  (accepting env ->
   forall f l lt d ov,
     (length (AddressCodec.toHex lt) <= 32)%nat ->
     (emits env "LinkNote" 0 ->
      exists es,
        LinkContract.linkLinklist f l lt d ov env h = (inl EventNotFound, es) /\
        existsb isSubmit es = true) /\
     (emits env "LinkNote" 1 ->
      exists es receipt e,
        LinkContract.linkLinklist f l lt d ov env h
        = (inr {| data := lookup_field "linklistId" (args e);
                  transactionHash := Some (Receipt.transactionHash receipt) |},
           es) /\
        awaited env h es receipt /\
        In e (Receipt.logs receipt) /\ eventName e = "LinkNote")).
Proof.
  split; [| split; [| split]].
  - intros outcome es receipt f a t lt d ov E Ha.
    pose proof (RunFacts.writesThen_outcome _ _ _ _ _ _ _
                  (LinkFacts.linkErc721_writesThen _ _ _ _ _ _) E Ha) as Ho.
    split; [exact Ho |]. intros Hc. rewrite Ho. unfold linklistIdOf.
    rewrite MatcherFacts.parseLog_none by exact Hc. reflexivity.
  - intros outcome es receipt f l lt d ov E Ha.
    pose proof (RunFacts.writesThen_outcome _ _ _ _ _ _ _
                  (LinkFacts.linkLinklist_writesThen _ _ _ _ _) E Ha) as Ho.
    split; [exact Ho |]. intros Hc. rewrite Ho. unfold linklistIdOf.
    rewrite MatcherFacts.parseLog_none by exact Hc. reflexivity.
  - intros Hacc f a t lt d ov Hfit.
    destruct (ProgressFacts.linkErc721_proceeds env h Hacc f a t lt d ov Hfit)
      as (es & receipt & E & Hs & Ha).
    destruct (ProgressFacts.awaited_answer _ _ _ _ Ha) as (h' & hash & Hw).
    unfold linklistIdOf in E. split; intros Hem.
    + exists es. rewrite E.
      rewrite MatcherFacts.parseLog_none by exact (Hem _ _ _ Hw).
      split; [reflexivity | exact Hs].
    + destruct (ProgressFacts.parseLog_one "LinkAnyUri" true _ (Hem _ _ _ Hw))
        as (e & Hin & Hn & Hp).
      exists es, receipt, e. rewrite E, Hp.
      repeat split; assumption.
  - intros Hacc f l lt d ov Hfit.
    destruct (ProgressFacts.linkLinklist_proceeds env h Hacc f l lt d ov Hfit)
      as (es & receipt & E & Hs & Ha).
    destruct (ProgressFacts.awaited_answer _ _ _ _ Ha) as (h' & hash & Hw).
    unfold linklistIdOf in E. split; intros Hem.
    + exists es. rewrite E.
      rewrite MatcherFacts.parseLog_none by exact (Hem _ _ _ Hw).
      split; [reflexivity | exact Hs].
    + destruct (ProgressFacts.parseLog_one "LinkNote" true _ (Hem _ _ _ Hw))
        as (e & Hin & Hn & Hp).
      exists es, receipt, e. rewrite E, Hp.
      repeat split; assumption.
Qed.

Lemma linkErc721_misses_LinkERC721_event :
  (exists es,
     LinkContract.linkErc721 1 Scenario.someAddress 9 Scenario.follow VUndefined
       Scenario.noOverrides
       (Scenario.chain [Scenario.linkEvent "LinkERC721" 5]) []
     = (inl EventNotFound, es) /\
     existsb isSubmit es = true) /\
  (exists es,
     LinkContract.linkLinklist 1 2 Scenario.follow VUndefined
       Scenario.noOverrides
       (Scenario.chain [Scenario.linkEvent "LinkLinklist" 5]) []
     = (inl EventNotFound, es) /\
     existsb isSubmit es = true) /\
  (exists es receipt e,
     LinkContract.linkErc721 1 Scenario.someAddress 9 Scenario.follow VUndefined
       Scenario.noOverrides
       (Scenario.chain [Scenario.linkEvent "LinkERC721" 5;
                        Scenario.linkEvent "LinkAnyUri" 7]) []
     = (inr {| data := lookup_field "linklistId" (args e);
               transactionHash := Some (Receipt.transactionHash receipt) |},
        es) /\
     awaited (Scenario.chain [Scenario.linkEvent "LinkERC721" 5;
                              Scenario.linkEvent "LinkAnyUri" 7]) [] es receipt /\
     In e (Receipt.logs receipt) /\ eventName e = "LinkAnyUri") /\
  (exists es receipt e,
     LinkContract.linkLinklist 1 2 Scenario.follow VUndefined
       Scenario.noOverrides
       (Scenario.chain [Scenario.linkEvent "LinkLinklist" 5;
                        Scenario.linkEvent "LinkNote" 8]) []
     = (inr {| data := lookup_field "linklistId" (args e);
               transactionHash := Some (Receipt.transactionHash receipt) |},
        es) /\
     awaited (Scenario.chain [Scenario.linkEvent "LinkLinklist" 5;
                              Scenario.linkEvent "LinkNote" 8]) [] es receipt /\
     In e (Receipt.logs receipt) /\ eventName e = "LinkNote") /\
  (@inl Error Result EventNotFound
   = linklistIdOf "LinkNote" true
       (Receipt.mk "0xabc" [Scenario.linkEvent "LinkLinklist" 5]) /\
   (EventLogMatcher.countNamed "LinkNote" [Scenario.linkEvent "LinkLinklist" 5]
    = 0%nat ->
    @inl Error Result EventNotFound = inl EventNotFound)).
Proof.
  assert (Hacc : forall logs, accepting (Scenario.chain logs)).
  { intros logs. repeat split; intros; eexists; reflexivity. }
  assert (Hem : forall logs name n,
             EventLogMatcher.countNamed name logs = n ->
             emits (Scenario.chain logs) name n).
  { intros logs name n Hc h hash receipt E. injection E as <-. exact Hc. }
  assert (Hfit : (length (AddressCodec.toHex Scenario.follow) <= 32)%nat).
  { vm_compute. lia. }
  split; [| split; [| split; [| split]]].
  - apply (proj1 (proj2 (proj2
             (linkErc721_linkLinklist_event_names
                (Scenario.chain [Scenario.linkEvent "LinkERC721" 5]) [])))
             (Hacc _) 1 Scenario.someAddress 9 Scenario.follow VUndefined
             Scenario.noOverrides Hfit).
    apply Hem. reflexivity.
  - apply (proj2 (proj2 (proj2
             (linkErc721_linkLinklist_event_names
                (Scenario.chain [Scenario.linkEvent "LinkLinklist" 5]) [])))
             (Hacc _) 1 2 Scenario.follow VUndefined
             Scenario.noOverrides Hfit).
    apply Hem. reflexivity.
  - apply (proj1 (proj2 (proj2
             (linkErc721_linkLinklist_event_names
                (Scenario.chain [Scenario.linkEvent "LinkERC721" 5;
                                 Scenario.linkEvent "LinkAnyUri" 7]) [])))
             (Hacc _) 1 Scenario.someAddress 9 Scenario.follow VUndefined
             Scenario.noOverrides Hfit).
    apply Hem. reflexivity.
  - apply (proj2 (proj2 (proj2
             (linkErc721_linkLinklist_event_names
                (Scenario.chain [Scenario.linkEvent "LinkLinklist" 5;
                                 Scenario.linkEvent "LinkNote" 8]) [])))
             (Hacc _) 1 2 Scenario.follow VUndefined
             Scenario.noOverrides Hfit).
    apply Hem. reflexivity.
  - refine (proj1 (proj2
              (linkErc721_linkLinklist_event_names
                 (Scenario.chain [Scenario.linkEvent "LinkLinklist" 5]) []))
              (inl EventNotFound) _
              (Receipt.mk "0xabc" [Scenario.linkEvent "LinkLinklist" 5])
              1 2 Scenario.follow VUndefined Scenario.noOverrides _ _).
    + reflexivity.
    + match goal with
      | |- awaited _ _ ?es _ => exists (removelast es), "0xabc"
      end.
      split; reflexivity.
Defined.

(** * Further properties *)

(** ** The content resolver *)

Module ResolverFacts.
Import Ipfs.

Lemma lookup_assign_same k v fields :
  lookup_field k (assign_field k v fields) = v.
Proof.
  induction fields as [| [k' v'] rest IH]; cbn [assign_field lookup_field].
  - rewrite String.eqb_refl. reflexivity.
  - destruct (String.eqb k k') eqn:E; cbn [lookup_field].
    + rewrite String.eqb_refl. reflexivity.
    + rewrite E. exact IH.
Qed.

Lemma lookup_assign_other k k' v fields :
  k' <> k -> lookup_field k' (assign_field k v fields) = lookup_field k' fields.
Proof.
  intros Hne.
  induction fields as [| [k0 v0] rest IH]; cbn [assign_field lookup_field].
  - apply String.eqb_neq in Hne. rewrite Hne. reflexivity.
  - destruct (String.eqb k k0) eqn:E; cbn [lookup_field].
    + apply String.eqb_eq in E. subst k0.
      apply String.eqb_neq in Hne. rewrite Hne. reflexivity.
    + destruct (String.eqb k' k0); [reflexivity | exact IH].
Qed.

(** One run of the function that [uploadJson] retries. *)
Lemma attempt_run (json : Value) env h :
  (body <- ask (fun env => JSON_stringify env json) ;;
   text <- fetch "https://ipfs-relay.crossbell.io/json" "POST" body ;;
   res <- JSONparse text ;;
   ret res) env h
  = (match httpFetch env h "https://ipfs-relay.crossbell.io/json" "POST"
                     (JSON_stringify env json) with
     | inl e => inl e
     | inr text =>
       match JSON_parse env text with
       | Some res => inr res
       | None => inl (JsError "SyntaxError")
       end
     end,
     [Fetch "https://ipfs-relay.crossbell.io/json" "POST"
            (JSON_stringify env json)]).
Proof.
  unfold JSONparse, fetch, bind, ask, perform, ret, throw. cbn [app].
  rewrite app_nil_r.
  destruct (httpFetch env h _ _ _) as [e | text]; [reflexivity |].
  destruct (JSON_parse env text); reflexivity.
Qed.

(** The requests of [uploadJson]. *)
Lemma uploadJson_requests (json : Value) env h :
  exists n, (1 <= n <= 4)%nat /\
    snd (uploadJson json env h)
    = repeat (Fetch "https://ipfs-relay.crossbell.io/json" "POST"
                    (JSON_stringify env json)) n.
Proof.
  unfold uploadJson. apply IpfsFacts.retry_runs. intros h'.
  rewrite attempt_run. reflexivity.
Qed.

(** A second run that returns ends the retries. *)
Lemma retry_second {A} (fn : M A) (n : nat) env h e es a es' :
  fn env h = (inl e, es) ->
  fn env (h ++ es) = (inr a, es') ->
  retry fn (S n) env h = (inr a, es ++ es').
Proof.
  intros H1 H2. change (retry fn (S n)) with (try_catch fn (fun _ => retry fn n)).
  unfold try_catch. rewrite H1.
  rewrite (IpfsFacts.retry_returns_at_once fn n env (h ++ es) a es' H2).
  reflexivity.
Qed.

Lemma metadataToUri_returns metadata env h url es :
  metadataToUri metadata env h = (inr url, es) ->
  prefix "ipfs://" url = true /\ es = snd (uploadJson metadata env h).
Proof.
  unfold metadataToUri, bind.
  destruct (uploadJson metadata env h) as [[e | res] es1]; [discriminate |].
  cbn [snd].
  destruct (get "url" res) as [| | | | url' | | |];
    cbn [throw TypeError ret]; try discriminate.
  destruct (prefix "ipfs://" url') eqn:P; cbn [throw ret]; [| discriminate].
  intros E. injection E as <- <-. rewrite app_nil_r. split; [exact P | reflexivity].
Qed.

End ResolverFacts.

(** X1: [parseMetadataOrUri] never alters a string URI.  Whenever it returns
    on a string, the URI of the result is that string; it makes at most one
    call, none at all unless asked to retrieve the metadata, and never
    uploads. *)
Theorem parseMetadataOrUri_passes_uri_through
        (type uri : string) (retrieveMetadataIfNeeded : bool)
        (env : Env) (h : History) :
  (forall parsed es,
     Ipfs.parseMetadataOrUri type (Ipfs.Uri uri) retrieveMetadataIfNeeded env h
     = (inr parsed, es) ->
     Ipfs.uri parsed = uri) /\
  (retrieveMetadataIfNeeded = false ->
   Ipfs.parseMetadataOrUri type (Ipfs.Uri uri) retrieveMetadataIfNeeded env h
   = (inr {| Ipfs.metadata := VUndefined; Ipfs.uri := uri |}, [])) /\
  (length (snd (Ipfs.parseMetadataOrUri type (Ipfs.Uri uri)
                  retrieveMetadataIfNeeded env h)) <= 1)%nat /\
  (forall url body,
     ~ In (Fetch url "POST" body)
          (snd (Ipfs.parseMetadataOrUri type (Ipfs.Uri uri)
                  retrieveMetadataIfNeeded env h))).
Proof.
  assert (Hcalls :
            snd (Ipfs.uriToMetadata uri env h) = [IpfsFetch uri] \/
            snd (Ipfs.uriToMetadata uri env h) = [Fetch uri "GET" ""] \/
            snd (Ipfs.uriToMetadata uri env h)
            = [LoggerError ("Wrong IPFS url: " ++ uri)]).
  { remember (snd (Ipfs.uriToMetadata uri env h)) as es eqn:E.
    unfold Ipfs.uriToMetadata in E.
    unfold bind at 1, ask at 1 in E. cbn [app] in E.
    destruct (isIpfsUrl env uri).
    - unfold bind at 1, ask at 1 in E. cbn [app] in E.
      destruct (isIpfs_url env uri); cbn [negb] in E.
      + left.
        unfold JSONparse, try_catch, bind, perform, ask, ret, throw in E.
        destruct (ipfsFetch env _ uri) as [e | text]; [exact E |].
        destruct (JSON_parse env text); exact E.
      + right. right. exact E.
    - right. left.
      unfold JSONparse, fetch, try_catch, bind, perform, ask, ret, throw in E.
      destruct (httpFetch env _ uri _ _) as [e | text]; [exact E |].
      destruct (JSON_parse env text); exact E. }
  destruct uri as [| c uri'].
  { cbn [Ipfs.parseMetadataOrUri ret snd length].
    split; [| split; [| split]].
    - intros parsed es E. injection E as <- _. reflexivity.
    - reflexivity.
    - lia.
    - intros url body []. }
  destruct retrieveMetadataIfNeeded; cbn [Ipfs.parseMetadataOrUri];
    set (uri := String c uri') in *.
  - unfold bind.
    destruct (Ipfs.uriToMetadata uri env h) as [[e | m] es1]; cbn [snd] in *.
    + split; [| split; [| split]].
      * intros parsed es E. discriminate E.
      * intros E. discriminate E.
      * destruct Hcalls as [-> | [-> | ->]]; cbn; lia.
      * intros url body Hin.
        destruct Hcalls as [-> | [-> | ->]]; destruct Hin as [Hin | []];
          discriminate Hin.
    + cbn [ret snd]. rewrite app_nil_r. split; [| split; [| split]].
      * intros parsed es E. injection E as <- _. reflexivity.
      * intros E. discriminate E.
      * destruct Hcalls as [-> | [-> | ->]]; cbn; lia.
      * intros url body Hin.
        destruct Hcalls as [-> | [-> | ->]]; destruct Hin as [Hin | []];
          discriminate Hin.
  - unfold bind, ret.
    cbn [app snd length]. split; [| split; [| split]].
    + intros parsed es E. injection E as <- _. reflexivity.
    + reflexivity.
    + lia.
    + intros url body [].
Qed.

Lemma parseMetadataOrUri_passes_uri_through_example :
  Ipfs.parseMetadataOrUri "note" (Ipfs.Uri Stores.pinned) false
                          (Scenario.chain []) []
  = (inr {| Ipfs.metadata := VUndefined; Ipfs.uri := Stores.pinned |}, []).
Proof.
  apply (parseMetadataOrUri_passes_uri_through
           "note" Stores.pinned false (Scenario.chain []) []).
  reflexivity.
Defined.

(** X2: [parseMetadataOrUri] on a metadata object.  Whenever it returns, the
    URI starts with ipfs://; a type tag that the object carried is kept and
    a missing one is set to the given type; no other property changes; and
    the object that was uploaded, in one to four POST requests, is the
    tagged object that is returned. *)
Theorem parseMetadataOrUri_tags_and_publishes
        (type : string) (fields : list (string * Value))
        (retrieveMetadataIfNeeded : bool) (env : Env) (h : History)
        (parsed : Ipfs.Parsed) (es : list Effect) :
  Ipfs.parseMetadataOrUri type (Ipfs.Metadata (VObject fields))
                          retrieveMetadataIfNeeded env h
  = (inr parsed, es) ->
  prefix "ipfs://" (Ipfs.uri parsed) = true /\
  (truthy (lookup_field "type" fields) = true ->
   Ipfs.metadata parsed = VObject fields) /\
  (truthy (lookup_field "type" fields) = false ->
   get "type" (Ipfs.metadata parsed) = VString type) /\
  (forall k, k <> "type" ->
             get k (Ipfs.metadata parsed) = lookup_field k fields) /\
  (exists n, (1 <= n <= 4)%nat /\
     es = repeat (Fetch "https://ipfs-relay.crossbell.io/json" "POST"
                        (JSON_stringify env (Ipfs.metadata parsed))) n).
Proof.
  cbn [Ipfs.parseMetadataOrUri get]. unfold bind.
  set (tagged := if negb (truthy (lookup_field "type" fields))
                 then set "type" (VString type) (VObject fields)
                 else VObject fields).
  destruct (Ipfs.metadataToUri tagged env h) as [[e | url] es1] eqn:Em;
    [discriminate |].
  cbn [ret]. rewrite app_nil_r. intros E. injection E as <- <-.
  cbn [Ipfs.uri Ipfs.metadata].
  destruct (ResolverFacts.metadataToUri_returns _ _ _ _ _ Em) as [Hp Hes].
  split; [exact Hp |].
  split; [| split; [| split]].
  - intros Ht. unfold tagged. rewrite Ht. reflexivity.
  - intros Ht. unfold tagged. rewrite Ht. cbn [negb set get].
    apply ResolverFacts.lookup_assign_same.
  - intros k Hk. unfold tagged.
    destruct (truthy (lookup_field "type" fields)); cbn [negb set get];
      [reflexivity |].
    apply ResolverFacts.lookup_assign_other. exact Hk.
  - rewrite Hes. apply ResolverFacts.uploadJson_requests.
Qed.

Lemma parseMetadataOrUri_tags_and_publishes_example :
  prefix "ipfs://" Stores.pinned = true /\
  (truthy (lookup_field "type" [("content", VString "hello")]) = true ->
   VObject [("content", VString "hello"); ("type", VString "note")]
   = VObject [("content", VString "hello")]) /\
  (truthy (lookup_field "type" [("content", VString "hello")]) = false ->
   get "type" (VObject [("content", VString "hello"); ("type", VString "note")])
   = VString "note") /\
  (forall k, k <> "type" ->
     get k (VObject [("content", VString "hello"); ("type", VString "note")])
     = lookup_field k [("content", VString "hello")]) /\
  (exists n, (1 <= n <= 4)%nat /\
     [Fetch "https://ipfs-relay.crossbell.io/json" "POST" "{}"]
     = repeat (Fetch "https://ipfs-relay.crossbell.io/json" "POST"
                 (JSON_stringify (Stores.relay [])
                    (VObject [("content", VString "hello");
                              ("type", VString "note")]))) n).
Proof.
  apply (parseMetadataOrUri_tags_and_publishes
           "note" [("content", VString "hello")] false (Stores.relay []) []
           {| Ipfs.metadata :=
                VObject [("content", VString "hello"); ("type", VString "note")];
              Ipfs.uri := Stores.pinned |}
           [Fetch "https://ipfs-relay.crossbell.io/json" "POST" "{}"]).
  reflexivity.
Defined.

(** X3: a relay answer that is JSON but holds no IPFS URL is not retried.
    When the first request is answered with JSON whose [url] is missing or
    does not start with ipfs://, [metadataToUri] throws after that single
    request. *)
Theorem metadataToUri_rejects_without_retry
        (metadata : Value) (env : Env) (h : History)
        (text : string) (res : Value) :
  httpFetch env h "https://ipfs-relay.crossbell.io/json" "POST"
            (JSON_stringify env metadata) = inr text ->
  JSON_parse env text = Some res ->
  (forall url, get "url" res = VString url -> prefix "ipfs://" url = false) ->
  exists msg,
    (msg = "upload to IPFS failed" \/ msg = "TypeError") /\
    Ipfs.metadataToUri metadata env h
    = (inl (JsError msg),
       [Fetch "https://ipfs-relay.crossbell.io/json" "POST"
              (JSON_stringify env metadata)]).
Proof.
  intros Hf Hp Hurl.
  assert (Hup : Ipfs.uploadJson metadata env h
                = (inr res,
                   [Fetch "https://ipfs-relay.crossbell.io/json" "POST"
                          (JSON_stringify env metadata)])).
  { unfold Ipfs.uploadJson. apply IpfsFacts.retry_returns_at_once.
    rewrite ResolverFacts.attempt_run, Hf, Hp. reflexivity. }
  unfold Ipfs.metadataToUri, bind. rewrite Hup.
  destruct (get "url" res) as [| | | | url | | |] eqn:Eu;
    cbn [throw TypeError ret app];
    try (exists "upload to IPFS failed"; split; [left |]; reflexivity);
    try (exists "TypeError"; split; [right |]; reflexivity).
  rewrite (Hurl url eq_refl). cbn [throw app].
  exists "upload to IPFS failed". split; [left |]; reflexivity.
Qed.

Lemma metadataToUri_rejects_without_retry_example :
  exists msg,
    (msg = "upload to IPFS failed" \/ msg = "TypeError") /\
    Ipfs.metadataToUri (VObject []) Stores.misdirecting []
    = (inl (JsError msg),
       [Fetch "https://ipfs-relay.crossbell.io/json" "POST" "{}"]).
Proof.
  apply (metadataToUri_rejects_without_retry
           (VObject []) Stores.misdirecting [] "{http}"
           (VObject [("url", VString "https://example.com/1.json")])).
  - reflexivity.
  - reflexivity.
  - intros url E. injection E as <-. reflexivity.
Defined.

(** X4: an answer that is not JSON counts as a failed attempt and is
    retried like a failed request.  When the first attempt fails either way
    and the second request is answered with JSON, [uploadJson] returns that
    JSON after exactly two requests. *)
Theorem uploadJson_retries_unparsable
        (json : Value) (env : Env) (h : History) (text : string) (res : Value) :
  match httpFetch env h "https://ipfs-relay.crossbell.io/json" "POST"
                  (JSON_stringify env json) with
  | inl _ => True
  | inr garbled => JSON_parse env garbled = None
  end ->
  httpFetch env
            (h ++ [Fetch "https://ipfs-relay.crossbell.io/json" "POST"
                         (JSON_stringify env json)])
            "https://ipfs-relay.crossbell.io/json" "POST"
            (JSON_stringify env json) = inr text ->
  JSON_parse env text = Some res ->
  Ipfs.uploadJson json env h
  = (inr res,
     [Fetch "https://ipfs-relay.crossbell.io/json" "POST"
            (JSON_stringify env json);
      Fetch "https://ipfs-relay.crossbell.io/json" "POST"
            (JSON_stringify env json)]).
Proof.
  intros H1 H2 Hp. unfold Ipfs.uploadJson.
  destruct (httpFetch env h "https://ipfs-relay.crossbell.io/json" "POST"
                      (JSON_stringify env json)) as [e | garbled] eqn:Hf.
  - rewrite (ResolverFacts.retry_second _ 2 env h e
               [Fetch "https://ipfs-relay.crossbell.io/json" "POST"
                      (JSON_stringify env json)] res
               [Fetch "https://ipfs-relay.crossbell.io/json" "POST"
                      (JSON_stringify env json)]).
    + reflexivity.
    + rewrite ResolverFacts.attempt_run, Hf. reflexivity.
    + rewrite ResolverFacts.attempt_run, H2, Hp. reflexivity.
  - rewrite (ResolverFacts.retry_second _ 2 env h (JsError "SyntaxError")
               [Fetch "https://ipfs-relay.crossbell.io/json" "POST"
                      (JSON_stringify env json)] res
               [Fetch "https://ipfs-relay.crossbell.io/json" "POST"
                      (JSON_stringify env json)]).
    + reflexivity.
    + rewrite ResolverFacts.attempt_run, Hf, H1. reflexivity.
    + rewrite ResolverFacts.attempt_run, H2, Hp. reflexivity.
Qed.

Lemma uploadJson_retries_unparsable_example :
  Ipfs.uploadJson (VObject []) Stores.flaky []
  = (inr (VObject [("url", VString Stores.pinned)]),
     [Fetch "https://ipfs-relay.crossbell.io/json" "POST" "{}";
      Fetch "https://ipfs-relay.crossbell.io/json" "POST" "{}"]).
Proof.
  apply (uploadJson_retries_unparsable
           (VObject []) Stores.flaky [] "{url}"
           (VObject [("url", VString Stores.pinned)]));
    reflexivity.
Defined.

(** X5: the errors of [uriToMetadata].  Off IPFS, a failed request and a
    body that is not JSON both surface as "Failed to fetch metadata from
    uri", the first with the response undefined, the second with the body;
    the error of the request itself is dropped.  On a well-formed IPFS URI a
    failed [ipfsFetch] surfaces its own error unchanged, and a body that is
    not JSON surfaces as "Failed to parse metadata from uri". *)
Theorem uriToMetadata_errors (env : Env) (h : History) (uri : string) :
  (isIpfsUrl env uri = false ->
   (forall err,
      httpFetch env h uri "GET" "" = inl err ->
      Ipfs.uriToMetadata uri env h
      = (inl (JsError ("Failed to fetch metadata from uri: " ++ uri
                       ++ " . Response: undefined")),
         [Fetch uri "GET" ""])) /\
   (forall text,
      httpFetch env h uri "GET" "" = inr text ->
      JSON_parse env text = None ->
      Ipfs.uriToMetadata uri env h
      = (inl (JsError ("Failed to fetch metadata from uri: " ++ uri
                       ++ " . Response: " ++ text)),
         [Fetch uri "GET" ""]))) /\
  (isIpfsUrl env uri = true -> isIpfs_url env uri = true ->
   (forall err,
      ipfsFetch env h uri = inl err ->
      Ipfs.uriToMetadata uri env h = (inl err, [IpfsFetch uri])) /\
   (forall text,
      ipfsFetch env h uri = inr text ->
      JSON_parse env text = None ->
      Ipfs.uriToMetadata uri env h
      = (inl (JsError ("Failed to parse metadata from uri: " ++ uri)),
         [IpfsFetch uri]))).
Proof.
  unfold Ipfs.uriToMetadata. split.
  - intros Hi. split.
    + intros err Hf.
      unfold JSONparse, fetch, try_catch, bind, perform, ask, ret, throw.
      rewrite Hi, (app_nil_r h), Hf. reflexivity.
    + intros text Hf Hp.
      unfold JSONparse, fetch, try_catch, bind, perform, ask, ret, throw.
      rewrite Hi, (app_nil_r h), Hf, Hp. reflexivity.
  - intros Hi Hv. split.
    + intros err Hf.
      unfold JSONparse, try_catch, bind, perform, ask, ret, throw.
      rewrite Hi, Hv. cbn [negb]. rewrite !(app_nil_r h), Hf. reflexivity.
    + intros text Hf Hp.
      unfold JSONparse, try_catch, bind, perform, ask, ret, throw.
      rewrite Hi, Hv. cbn [negb]. rewrite !(app_nil_r h), Hf, Hp.
      reflexivity.
Qed.

Lemma uriToMetadata_errors_example :
  Ipfs.uriToMetadata "https://example.com/1.json" Stores.garbled []
  = (inl (JsError "Failed to fetch metadata from uri: https://example.com/1.json . Response: <html>"),
     [Fetch "https://example.com/1.json" "GET" ""]) /\
  Ipfs.uriToMetadata (Stores.pinned ++ "/1.json") (Scenario.chain []) []
  = (inl (JsError "fetch failed"), [IpfsFetch (Stores.pinned ++ "/1.json")]).
Proof.
  split.
  - apply (uriToMetadata_errors Stores.garbled [] "https://example.com/1.json");
      reflexivity.
  - apply (uriToMetadata_errors (Scenario.chain []) []
                                (Stores.pinned ++ "/1.json"));
      reflexivity.
Defined.

(** ** More facts about runs *)

Module GuardFacts.
Import RunFacts.

(** *** Calls that a method never makes *)

Lemma never_ret {A} p (a : A) : never p (ret a).
Proof. intros env h. reflexivity. Qed.

Lemma never_throw {A} p (e : Error) : never p (@throw A e).
Proof. intros env h. reflexivity. Qed.

Lemma never_liftE {A} p (r : Error + A) : never p (liftE r).
Proof. intros env h. reflexivity. Qed.

Lemma never_ask {A} p (f : Env -> A) : never p (ask f).
Proof. intros env h. reflexivity. Qed.

Lemma never_perform {A} p (e : Effect) (answer : Env -> History -> Error + A) :
  p e = false -> never p (perform e answer).
Proof. intros He env h. cbn. rewrite He. reflexivity. Qed.

Lemma never_bind {A B} p (m : M A) (k : A -> M B) :
  never p m -> (forall a, never p (k a)) -> never p (bind m k).
Proof.
  intros Hm Hk env h. unfold bind. specialize (Hm env h).
  destruct (m env h) as [[e | a] es]; cbn in *; [exact Hm |].
  specialize (Hk a env (h ++ es)).
  destruct (k a env (h ++ es)) as [r es']. cbn in *.
  rewrite existsb_app, Hm, Hk. reflexivity.
Qed.

Lemma never_try_catch {A} p (m : M A) (handler : Error -> M A) :
  never p m -> (forall e, never p (handler e)) -> never p (try_catch m handler).
Proof.
  intros Hm Hk env h. unfold try_catch. specialize (Hm env h).
  destruct (m env h) as [[e | a] es]; cbn in *; [| exact Hm].
  specialize (Hk e env (h ++ es)).
  destruct (handler e env (h ++ es)) as [r es']. cbn in *.
  rewrite existsb_app, Hm, Hk. reflexivity.
Qed.

Lemma never_retry {A} p (fn : M A) (retries : nat) :
  never p fn -> never p (retry fn retries).
Proof.
  intros Hfn. induction retries as [| n IH]; cbn [retry]; [exact Hfn |].
  apply never_try_catch; [exact Hfn | intros _; exact IH].
Qed.

Lemma never_promiseAll {A B} p (f : A -> M B) (l : list A) :
  (forall a, never p (f a)) -> never p (promiseAll f l).
Proof.
  intros Hf. induction l as [| a l IH]; cbn [promiseAll].
  - apply never_ret.
  - intros env h. pose proof (Hf a env h) as Ha.
    destruct (f a env h) as [r es]. pose proof (IH env (h ++ es)) as Hl.
    destruct (promiseAll f l env (h ++ es)) as [rs es'].
    cbn [snd] in *. rewrite existsb_app, Ha, Hl. reflexivity.
Qed.

Lemma never_forEachM {A} p (f : A -> M unit) (l : list A) :
  (forall a, never p (f a)) -> never p (forEachM f l).
Proof.
  intros Hf. induction l as [| a l IH]; cbn [forEachM].
  - apply never_ret.
  - apply never_bind; [apply Hf | intros _; exact IH].
Qed.

Lemma never_asArray p (v : Value) : never p (asArray v).
Proof. destruct v; first [apply never_ret | apply never_throw]. Qed.

Lemma never_JSONparse p text : never p (JSONparse text).
Proof.
  unfold JSONparse. apply never_bind; [apply never_ask |].
  intros [v |]; [apply never_ret | apply never_throw].
Qed.

Lemma never_padToHex p linkType : never p (padToHex linkType).
Proof.
  unfold padToHex. apply never_bind; [apply never_liftE |].
  intros b. apply never_ret.
Qed.

Lemma never_validateAddress p address : never p (validateAddress address).
Proof.
  unfold validateAddress. apply never_bind; [apply never_ask |].
  intros [|]; [apply never_ret | apply never_throw].
Qed.

Ltac never_step :=
  first
    [ apply never_ret | apply never_throw | apply never_liftE
    | apply never_ask | apply never_asArray | apply never_JSONparse
    | apply never_padToHex | apply never_validateAddress
    | apply never_perform; reflexivity
    | apply never_retry
    | apply never_promiseAll; intros ?
    | apply never_forEachM; intros ?
    | apply never_try_catch; [| intros ?]
    | apply never_bind; [| intros ?]
    | match goal with
      | |- never _ (if ?b then _ else _) => destruct b
      | |- never _ (match ?v with _ => _ end) => destruct v
      end ].

Ltac never_calls := solve [ repeat never_step ].

(** The resolver calls nothing but the content store and the logger. *)
Lemma never_parseMetadataOrUri p type metadataOrUri flag :
  (forall url method body, p (Fetch url method body) = false) ->
  (forall uri, p (IpfsFetch uri) = false) ->
  (forall msg, p (LoggerError msg) = false) ->
  never p (Ipfs.parseMetadataOrUri type metadataOrUri flag).
Proof.
  intros Hf Hi Hl.
  assert (Hfetch : forall url method body, never p (fetch url method body)).
  { intros. unfold fetch. apply never_perform. apply Hf. }
  assert (Hup : forall json, never p (Ipfs.uploadJson json)).
  { intros. unfold Ipfs.uploadJson. apply never_retry.
    apply never_bind; [apply never_ask | intros ?].
    apply never_bind; [apply Hfetch | intros ?].
    apply never_bind; [apply never_JSONparse | intros ?]. apply never_ret. }
  assert (Hto : forall uri, never p (Ipfs.uriToMetadata uri)).
  { intros. unfold Ipfs.uriToMetadata.
    apply never_bind; [apply never_ask | intros [|]].
    - apply never_bind; [apply never_ask | intros [|]]; cbn [negb].
      + apply never_bind; [apply never_perform; apply Hi | intros ?].
        apply never_try_catch; [apply never_JSONparse | intros ?].
        apply never_throw.
      + apply never_bind; [apply never_perform; apply Hl | intros ?].
        apply never_ret.
    - apply never_bind.
      + apply never_try_catch; [apply Hfetch | intros ?]. apply never_throw.
      + intros ?. apply never_try_catch; [apply never_JSONparse | intros ?].
        apply never_throw. }
  destruct metadataOrUri as [uri | metadata]; cbn [Ipfs.parseMetadataOrUri].
  - destruct uri as [| c uri']; [apply never_ret |].
    apply never_bind; [| intros ?; apply never_ret].
    destruct flag; [apply Hto | apply never_ret].
  - apply never_bind; [| intros ?; apply never_ret].
    unfold Ipfs.metadataToUri. apply never_bind; [apply Hup | intros res].
    destruct (get "url" res); try apply never_throw.
    destruct (prefix "ipfs://" s); [apply never_ret | apply never_throw].
Qed.

(** *** Methods that throw before they call *)

Lemma callsNothing_ask {A} (f : Env -> A) : callsNothing (ask f).
Proof. intros env h. reflexivity. Qed.

Lemma callsNothing_validateAddress address :
  callsNothing (validateAddress address).
Proof.
  intros env h. unfold validateAddress, bind, ask.
  destruct (isAddress env address); reflexivity.
Qed.

Lemma callsNothing_forEachM {A} (f : A -> M unit) (l : list A) :
  (forall a, callsNothing (f a)) -> callsNothing (forEachM f l).
Proof.
  intros Hf. induction l as [| a l IH]; intros env h; [reflexivity |].
  cbn [forEachM]. unfold bind. specialize (Hf a env h).
  destruct (f a env h) as [[e | []] es]; cbn [snd] in *; subst es;
    [reflexivity |].
  specialize (IH env (h ++ [])).
  destruct (forEachM f l env (h ++ [])) as [r es']. cbn [snd] in *.
  subst es'. reflexivity.
Qed.

Lemma throwsAtOnce_padToHex {A} linkType (k : Value -> M A) :
  (32 < length (AddressCodec.toHex linkType))%nat ->
  throwsAtOnce (bind (padToHex linkType) k).
Proof.
  intros Hlen env h. exists ValueTooLong.
  unfold bind, padToHex, bind, liftE, AddressCodec.encodeLinkType,
    AddressCodec.pad, AddressCodec.width.
  destruct (Nat.ltb_spec 32 (length (AddressCodec.toHex linkType)));
    [reflexivity | lia].
Qed.

Lemma throwsAtOnce_bind {A B} (m : M A) (k : A -> M B) :
  callsNothing m -> (forall a, throwsAtOnce (k a)) ->
  throwsAtOnce (bind m k).
Proof.
  intros Hm Hk env h. unfold bind. specialize (Hm env h).
  destruct (m env h) as [[e | a] es]; cbn [snd] in Hm; subst es.
  - exists e. reflexivity.
  - destruct (Hk a env (h ++ [])) as [err ->]. exists err. reflexivity.
Qed.

(** Behind the network guard, a method that throws at once on [env] has
    thrown before any call but those of the guard. *)
Lemma guard_then_throw {A} (m : M A) env h :
  (forall h', exists err, m env h' = (inl err, [])) ->
  (exists err, fst (autoSwitchMainnet m env h) = inl err) /\
  forallb isNetwork (snd (autoSwitchMainnet m env h)) = true.
Proof.
  intros Hm. unfold autoSwitchMainnet, bind, perform, ask. cbn [app].
  destruct (currentNetworkId env h =? deploymentNetworkId env).
  - destruct (Hm ((h ++ [CurrentNetworkId]) ++ [])) as [err ->].
    split; [exists err |]; reflexivity.
  - destruct (switchNetwork env _ _).
    + destruct (Hm (((h ++ [CurrentNetworkId]) ++ [])
                      ++ [SwitchNetwork (deploymentNetworkId env)]))
        as [err ->].
      split; [exists err |]; reflexivity.
    + split; [exists WrongNetwork |]; reflexivity.
Qed.

Lemma guard_then_throw_on_network {A} (m : M A) env h e :
  (forall h', m env h' = (inl e, [])) ->
  currentNetworkId env h = deploymentNetworkId env ->
  autoSwitchMainnet m env h = (inl e, [CurrentNetworkId]).
Proof.
  intros Hm Hn. unfold autoSwitchMainnet, bind, perform, ask. cbn [app].
  rewrite Hn, Z.eqb_refl, Hm. reflexivity.
Qed.

Lemma rejected_guarded {A} (m : M A) :
  throwsAtOnce m -> rejectedBeforeCalls (autoSwitchMainnet m).
Proof. intros Hm env h. apply guard_then_throw. intros h'. apply Hm. Qed.

Lemma rejected_unguarded {A} (m : M A) :
  throwsAtOnce m -> rejectedBeforeCalls m.
Proof.
  intros Hm env h. destruct (Hm env h) as [err ->].
  split; [exists err |]; reflexivity.
Qed.

Ltac throws_at_once :=
  repeat first
    [ apply throwsAtOnce_padToHex; assumption
    | apply throwsAtOnce_bind;
      [ first [ apply callsNothing_forEachM; intros ?;
                apply callsNothing_validateAddress
              | apply callsNothing_validateAddress
              | apply callsNothing_ask ]
      | intros ? ] ].

Ltac rejected :=
  first [ apply rejected_guarded | apply rejected_unguarded ];
  throws_at_once.

End GuardFacts.

(** X6: a link type of more than 32 bytes never reaches a contract.  Every
    link, unlink and linking-read operation given such a link type throws,
    and has called nothing but the network guard: no call is submitted and
    nothing is read. *)
Theorem long_linkType_rejected_before_calls (linkType : Utf8.ustring) :
  (32 < length (AddressCodec.toHex linkType))%nat ->
  (forall f t d ov, rejectedBeforeCalls (LinkContract.linkCharacter f t linkType d ov)) /\
  (forall f ids addrs d ov,
     rejectedBeforeCalls (LinkContract.linkCharactersInBatch f ids addrs linkType d ov)) /\
  (forall f a ov, rejectedBeforeCalls (LinkContract.createThenLinkCharacter f a linkType ov)) /\
  (forall f t ov, rejectedBeforeCalls (LinkContract.unlinkCharacter f t linkType ov)) /\
  (forall f ov, rejectedBeforeCalls (LinkContract.getLinkingCharacterIds f linkType ov)) /\
  (forall f ov, rejectedBeforeCalls (LinkContract.getLinkingCharacters f linkType ov)) /\
  (forall f a d ov, rejectedBeforeCalls (LinkContract.linkAddress f a linkType d ov)) /\
  (forall f a ov, rejectedBeforeCalls (LinkContract.unlinkAddress f a linkType ov)) /\
  (forall f u d ov, rejectedBeforeCalls (LinkContract.linkAnyUri f u linkType d ov)) /\
  (forall f u ov, rejectedBeforeCalls (LinkContract.unlinkAnyUri f u linkType ov)) /\
  (forall f a t d ov, rejectedBeforeCalls (LinkContract.linkErc721 f a t linkType d ov)) /\
  (forall f a t ov, rejectedBeforeCalls (LinkContract.unlinkErc721 f a t linkType ov)) /\
  (forall f t n d ov, rejectedBeforeCalls (LinkContract.linkNote f t n linkType d ov)) /\
  (forall f t n ov, rejectedBeforeCalls (LinkContract.unlinkNote f t n linkType ov)) /\
  (forall f l d ov, rejectedBeforeCalls (LinkContract.linkLinklist f l linkType d ov)) /\
  (forall f l ov, rejectedBeforeCalls (LinkContract.unlinkLinklist f l linkType ov)).
Proof.
  intros Hlen.
  repeat match goal with |- _ /\ _ => split end.
  - intros f t d ov. unfold LinkContract.linkCharacter. GuardFacts.rejected.
  - intros f ids addrs d ov. unfold LinkContract.linkCharactersInBatch.
    GuardFacts.rejected.
  - intros f a ov. unfold LinkContract.createThenLinkCharacter.
    GuardFacts.rejected.
  - intros f t ov. unfold LinkContract.unlinkCharacter. GuardFacts.rejected.
  - intros f ov. unfold LinkContract.getLinkingCharacterIds.
    GuardFacts.rejected.
  - intros f ov. unfold LinkContract.getLinkingCharacters.
    GuardFacts.rejected.
  - intros f a d ov. unfold LinkContract.linkAddress. GuardFacts.rejected.
  - intros f a ov. unfold LinkContract.unlinkAddress. GuardFacts.rejected.
  - intros f u d ov. unfold LinkContract.linkAnyUri. GuardFacts.rejected.
  - intros f u ov. unfold LinkContract.unlinkAnyUri. GuardFacts.rejected.
  - intros f a t d ov. unfold LinkContract.linkErc721. GuardFacts.rejected.
  - intros f a t ov. unfold LinkContract.unlinkErc721. GuardFacts.rejected.
  - intros f t n d ov. unfold LinkContract.linkNote. GuardFacts.rejected.
  - intros f t n ov. unfold LinkContract.unlinkNote. GuardFacts.rejected.
  - intros f l d ov. unfold LinkContract.linkLinklist. GuardFacts.rejected.
  - intros f l ov. unfold LinkContract.unlinkLinklist. GuardFacts.rejected.
Qed.

Lemma long_linkType_rejected_example :
  (exists err,
     fst (LinkContract.linkCharacter 1 2 Stores.tooLong VUndefined
            Scenario.noOverrides (Scenario.chain []) []) = inl err) /\
  forallb isNetwork
    (snd (LinkContract.linkCharacter 1 2 Stores.tooLong VUndefined
            Scenario.noOverrides (Scenario.chain []) [])) = true.
Proof.
  refine (proj1 (long_linkType_rejected_before_calls Stores.tooLong _)
                1 2 VUndefined Scenario.noOverrides (Scenario.chain []) []).
  vm_compute. lia.
Defined.

Module SubmitFacts.
Import RunFacts GuardFacts.

Lemma forEachM_validateAddress_rejects (addresses : list Address) env h :
  forallb (isAddress env) addresses = false ->
  forEachM (fun address => validateAddress address) addresses env h
  = (inl InvalidAddress, []).
Proof.
  revert h. induction addresses as [| a l IH]; intros h Hv;
    [discriminate Hv |].
  cbn [forallb] in Hv. cbn [forEachM]. unfold bind at 1.
  unfold validateAddress at 1. unfold bind at 1, ask at 1.
  destruct (isAddress env a); cbn [andb] in Hv; cbn [ret throw app].
  - rewrite (IH _ Hv). reflexivity.
  - reflexivity.
Qed.

Lemma validateAddress_rejects (address : Address) env h :
  isAddress env address = false ->
  validateAddress address env h = (inl InvalidAddress, []).
Proof.
  intros Hv. unfold validateAddress, bind, ask. rewrite Hv. reflexivity.
Qed.

Lemma bind_throws {A B} (m : M A) (k : A -> M B) env e :
  (forall h, m env h = (inl e, [])) ->
  forall h, bind m k env h = (inl e, []).
Proof. intros Hm h. unfold bind. rewrite Hm. reflexivity. Qed.

Lemma filter_none {A} (p : A -> bool) (l : list A) :
  existsb p l = false -> filter p l = [].
Proof.
  induction l as [| a l IH]; [reflexivity |].
  cbn [existsb filter]. destruct (p a); [discriminate |]. exact IH.
Qed.

(** *** Methods that submit at most once *)

Lemma once_throw (e : Error) : submitsAtMostOnce (@throw Result e).
Proof. intros env h. cbn. split; lia. Qed.

Lemma once_bind {A} (m : M A) (k : A -> M Result) :
  never isSubmit m -> never isWait m ->
  (forall a, submitsAtMostOnce (k a)) ->
  submitsAtMostOnce (bind m k).
Proof.
  intros Hs Hw Hk env h. unfold bind.
  specialize (Hs env h). specialize (Hw env h).
  destruct (m env h) as [[e | a] es]; cbn [snd] in *.
  - rewrite (filter_none _ _ Hs), (filter_none _ _ Hw). cbn. split; lia.
  - specialize (Hk a env (h ++ es)).
    destruct (k a env (h ++ es)) as [r es']. cbn [snd] in *.
    rewrite !filter_app, (filter_none _ _ Hs), (filter_none _ _ Hw).
    exact Hk.
Qed.

(** The call, the wait for its receipt, and what is made of the receipt
    without any further call. *)
Lemma once_write_wait c f a ov (tail : Receipt.t -> M Result) :
  (forall receipt, callsNothing (tail receipt)) ->
  submitsAtMostOnce
    (bind (write c f a ov)
          (fun hash => bind (waitForTransactionReceipt hash) tail)).
Proof.
  intros Ht env h. unfold bind, write, waitForTransactionReceipt, perform.
  destruct (submit env h _) as [e | hash]; [cbn; split; lia |].
  destruct (waitForReceipt env _ hash) as [e | receipt]; [cbn; split; lia |].
  specialize (Ht receipt env ((h ++ [Submit (mkCall c f a ov)])
                                ++ [WaitForReceipt hash])).
  destruct (tail receipt env _) as [r es]. cbn [snd] in *. subst es.
  cbn. split; lia.
Qed.

Lemma once_autoSwitchMainnet (m : M Result) :
  submitsAtMostOnce m -> submitsAtMostOnce (autoSwitchMainnet m).
Proof.
  intros Hm. unfold autoSwitchMainnet.
  apply once_bind; [never_calls | never_calls |]. intros current.
  apply once_bind; [never_calls | never_calls |]. intros expected.
  destruct (current =? expected); [exact Hm |].
  apply once_bind; [never_calls | never_calls |].
  intros [|]; [exact Hm | apply once_throw].
Qed.

Lemma callsNothing_ret {A} (a : A) : callsNothing (ret a).
Proof. intros env h. reflexivity. Qed.

Lemma callsNothing_parseLog {A} logs name strict (k : EventRecord -> M A) :
  (forall e, callsNothing (k e)) ->
  callsNothing (bind (parseLog logs name strict) k).
Proof.
  intros Hk env h. unfold bind, parseLog, liftE.
  destruct (EventLogMatcher.parseLog logs name strict) as [e | ev];
    [reflexivity |].
  specialize (Hk ev env (h ++ [])).
  destruct (k ev env (h ++ [])) as [r es]. cbn [snd] in *. subst es.
  reflexivity.
Qed.

Lemma callsNothing_liftE {A B} (r : Error + A) (k : A -> M B) :
  (forall a, callsNothing (k a)) -> callsNothing (bind (liftE r) k).
Proof.
  intros Hk env h. unfold bind, liftE. destruct r as [e | a]; [reflexivity |].
  specialize (Hk a env (h ++ [])).
  destruct (k a env (h ++ [])) as [r es]. cbn [snd] in *. subst es.
  reflexivity.
Qed.

Ltac calls_nothing :=
  repeat first
    [ apply callsNothing_ret
    | apply callsNothing_parseLog; intros ?
    | apply callsNothing_liftE; intros ? ].

Ltac at_most_once :=
  try apply once_autoSwitchMainnet;
  repeat (apply once_bind; [never_calls | never_calls | intros ?]);
  apply once_write_wait; intros ?; calls_nothing.

(** *** The guard *)

Lemma guarded_autoSwitchMainnet {A} (m : M A) : guarded (autoSwitchMainnet m).
Proof.
  intros env h. unfold autoSwitchMainnet, bind, perform, ask. cbn [app].
  destruct (currentNetworkId env h =? deploymentNetworkId env).
  - destruct (m env _) as [r es]. reflexivity.
  - destruct (switchNetwork env _ _).
    + destruct (m env _) as [r es]. reflexivity.
    + reflexivity.
Qed.

End SubmitFacts.

(** X7: an address that is not well formed is never submitted.
    [linkCharactersInBatch] with such an address among [toAddresses], and
    [createThenLinkCharacter] with such a [toAddress], throw and have called
    nothing but the network guard; on the deployment network the error is
    [InvalidAddress], also when the link type is too long, since the
    addresses are validated first. *)
Theorem invalid_address_rejected_before_calls (env : Env) (h : History) :
  (forall f ids addrs lt d ov,
     forallb (isAddress env) addrs = false ->
     (exists err,
        fst (LinkContract.linkCharactersInBatch f ids addrs lt d ov env h)
        = inl err) /\
     forallb isNetwork
       (snd (LinkContract.linkCharactersInBatch f ids addrs lt d ov env h))
     = true /\
     (currentNetworkId env h = deploymentNetworkId env ->
      LinkContract.linkCharactersInBatch f ids addrs lt d ov env h
      = (inl InvalidAddress, [CurrentNetworkId]))) /\
  (forall f a lt ov,
     isAddress env a = false ->
     (exists err,
        fst (LinkContract.createThenLinkCharacter f a lt ov env h) = inl err) /\
     forallb isNetwork
       (snd (LinkContract.createThenLinkCharacter f a lt ov env h)) = true /\
     (currentNetworkId env h = deploymentNetworkId env ->
      LinkContract.createThenLinkCharacter f a lt ov env h
      = (inl InvalidAddress, [CurrentNetworkId]))).
Proof.
  split.
  - intros f ids addrs lt d ov Hv.
    unfold LinkContract.linkCharactersInBatch.
    match goal with
    | |- context [autoSwitchMainnet ?m] =>
      assert (Hm : forall h', m env h' = (inl InvalidAddress, []))
    end.
    { apply SubmitFacts.bind_throws. intros h'.
      apply SubmitFacts.forEachM_validateAddress_rejects. exact Hv. }
    split; [| split].
    + apply GuardFacts.guard_then_throw. intros h'.
      exists InvalidAddress. apply Hm.
    + apply GuardFacts.guard_then_throw. intros h'.
      exists InvalidAddress. apply Hm.
    + apply GuardFacts.guard_then_throw_on_network. exact Hm.
  - intros f a lt ov Hv.
    unfold LinkContract.createThenLinkCharacter.
    match goal with
    | |- context [autoSwitchMainnet ?m] =>
      assert (Hm : forall h', m env h' = (inl InvalidAddress, []))
    end.
    { apply SubmitFacts.bind_throws. intros h'.
      apply SubmitFacts.validateAddress_rejects. exact Hv. }
    split; [| split].
    + apply GuardFacts.guard_then_throw. intros h'.
      exists InvalidAddress. apply Hm.
    + apply GuardFacts.guard_then_throw. intros h'.
      exists InvalidAddress. apply Hm.
    + apply GuardFacts.guard_then_throw_on_network. exact Hm.
Qed.

Lemma invalid_address_rejected_example :
  LinkContract.linkCharactersInBatch 1 [2]
    ["0x0000000000000000000000000000000000000001"; "not an address"]
    Stores.tooLong VUndefined Scenario.noOverrides (Scenario.chain []) []
  = (inl InvalidAddress, [CurrentNetworkId]).
Proof.
  apply (invalid_address_rejected_before_calls (Scenario.chain []) []);
    reflexivity.
Defined.

(** X8: no operation submits twice.  Every run of every mutating operation
    of [LinkContract] and of [NoteContract], returning or throwing, submits
    at most one call and waits for at most one receipt: a failed submission
    or a failed wait is not retried. *)
Theorem mutating_operations_submit_at_most_once :
  (forall f t lt d ov, submitsAtMostOnce (LinkContract.linkCharacter f t lt d ov)) /\
  (forall f ids addrs lt d ov,
     submitsAtMostOnce (LinkContract.linkCharactersInBatch f ids addrs lt d ov)) /\
  (forall f a lt ov, submitsAtMostOnce (LinkContract.createThenLinkCharacter f a lt ov)) /\
  (forall f t lt ov, submitsAtMostOnce (LinkContract.unlinkCharacter f t lt ov)) /\
  (forall f a lt d ov, submitsAtMostOnce (LinkContract.linkAddress f a lt d ov)) /\
  (forall f a lt ov, submitsAtMostOnce (LinkContract.unlinkAddress f a lt ov)) /\
  (forall f u lt d ov, submitsAtMostOnce (LinkContract.linkAnyUri f u lt d ov)) /\
  (forall f u lt ov, submitsAtMostOnce (LinkContract.unlinkAnyUri f u lt ov)) /\
  (forall f a t lt d ov, submitsAtMostOnce (LinkContract.linkErc721 f a t lt d ov)) /\
  (forall f a t lt ov, submitsAtMostOnce (LinkContract.unlinkErc721 f a t lt ov)) /\
  (forall f t n lt d ov, submitsAtMostOnce (LinkContract.linkNote f t n lt d ov)) /\
  (forall f t n lt ov, submitsAtMostOnce (LinkContract.unlinkNote f t n lt ov)) /\
  (forall f l lt d ov, submitsAtMostOnce (LinkContract.linkLinklist f l lt d ov)) /\
  (forall f l lt ov, submitsAtMostOnce (LinkContract.unlinkLinklist f l lt ov)) /\
  (forall f uri, submitsAtMostOnce (LinkContract.setLinklistUri f uri)) /\
  (forall p n a, submitsAtMostOnce (NoteContract.mintNote p n a)) /\
  (forall t p m, submitsAtMostOnce (NoteContract.postNote t p m)).
Proof.
  repeat match goal with |- _ /\ _ => split end.
  - intros f t lt d ov. unfold LinkContract.linkCharacter.
    SubmitFacts.at_most_once.
  - intros f ids addrs lt d ov. unfold LinkContract.linkCharactersInBatch.
    SubmitFacts.at_most_once.
  - intros f a lt ov. unfold LinkContract.createThenLinkCharacter.
    SubmitFacts.at_most_once.
  - intros f t lt ov. unfold LinkContract.unlinkCharacter.
    SubmitFacts.at_most_once.
  - intros f a lt d ov. unfold LinkContract.linkAddress.
    SubmitFacts.at_most_once.
  - intros f a lt ov. unfold LinkContract.unlinkAddress.
    SubmitFacts.at_most_once.
  - intros f u lt d ov. unfold LinkContract.linkAnyUri.
    SubmitFacts.at_most_once.
  - intros f u lt ov. unfold LinkContract.unlinkAnyUri.
    SubmitFacts.at_most_once.
  - intros f a t lt d ov. unfold LinkContract.linkErc721.
    SubmitFacts.at_most_once.
  - intros f a t lt ov. unfold LinkContract.unlinkErc721.
    SubmitFacts.at_most_once.
  - intros f t n lt d ov. unfold LinkContract.linkNote.
    SubmitFacts.at_most_once.
  - intros f t n lt ov. unfold LinkContract.unlinkNote.
    SubmitFacts.at_most_once.
  - intros f l lt d ov. unfold LinkContract.linkLinklist.
    SubmitFacts.at_most_once.
  - intros f l lt ov. unfold LinkContract.unlinkLinklist.
    SubmitFacts.at_most_once.
  - intros f uri. unfold LinkContract.setLinklistUri.
    SubmitFacts.at_most_once.
  - intros p n a. unfold NoteContract.mintNote. SubmitFacts.at_most_once.
  - intros t p m. unfold NoteContract.postNote.
    apply SubmitFacts.once_bind;
      [ apply GuardFacts.never_parseMetadataOrUri; reflexivity
      | apply GuardFacts.never_parseMetadataOrUri; reflexivity
      | intros parsed ].
    SubmitFacts.at_most_once.
Qed.

(** X9: which operations sit behind the network guard.  Every run of a
    link or unlink operation starts with the guard's question for the
    active network, whereas [setLinklistUri], which also submits a call, and
    the four read operations never call the guard. *)
Theorem guarded_and_unguarded_operations :
  ((forall f t lt d ov, guarded (LinkContract.linkCharacter f t lt d ov)) /\
   (forall f ids addrs lt d ov,
      guarded (LinkContract.linkCharactersInBatch f ids addrs lt d ov)) /\
   (forall f a lt ov, guarded (LinkContract.createThenLinkCharacter f a lt ov)) /\
   (forall f t lt ov, guarded (LinkContract.unlinkCharacter f t lt ov)) /\
   (forall f a lt d ov, guarded (LinkContract.linkAddress f a lt d ov)) /\
   (forall f a lt ov, guarded (LinkContract.unlinkAddress f a lt ov)) /\
   (forall f u lt d ov, guarded (LinkContract.linkAnyUri f u lt d ov)) /\
   (forall f u lt ov, guarded (LinkContract.unlinkAnyUri f u lt ov)) /\
   (forall f a t lt d ov, guarded (LinkContract.linkErc721 f a t lt d ov)) /\
   (forall f a t lt ov, guarded (LinkContract.unlinkErc721 f a t lt ov)) /\
   (forall f t n lt d ov, guarded (LinkContract.linkNote f t n lt d ov)) /\
   (forall f t n lt ov, guarded (LinkContract.unlinkNote f t n lt ov)) /\
   (forall f l lt d ov, guarded (LinkContract.linkLinklist f l lt d ov)) /\
   (forall f l lt ov, guarded (LinkContract.unlinkLinklist f l lt ov))) /\
  ((forall f uri, never isNetwork (LinkContract.setLinklistUri f uri)) /\
   (forall hash, never isNetwork (LinkContract.getLinklistIdByTransaction hash)) /\
   (forall f lt ov, never isNetwork (LinkContract.getLinkingCharacterIds f lt ov)) /\
   (forall f lt ov, never isNetwork (LinkContract.getLinkingCharacters f lt ov)) /\
   (forall f, never isNetwork (LinkContract.getLinklistUri f))).
Proof.
  split.
  - repeat match goal with |- _ /\ _ => split end; intros;
      apply SubmitFacts.guarded_autoSwitchMainnet.
  - repeat match goal with |- _ /\ _ => split end.
    + intros f uri.
      unfold LinkContract.setLinklistUri, write, waitForTransactionReceipt.
      GuardFacts.never_calls.
    + intros hash.
      unfold LinkContract.getLinklistIdByTransaction, getTransactionReceipt,
        parseLog.
      GuardFacts.never_calls.
    + intros f lt ov. unfold LinkContract.getLinkingCharacterIds, read.
      GuardFacts.never_calls.
    + intros f lt ov. unfold LinkContract.getLinkingCharacters, read.
      GuardFacts.never_calls.
    + intros f. unfold LinkContract.getLinklistUri, read.
      GuardFacts.never_calls.
Qed.

Module ReceiptFacts.
Import RunFacts LinkFacts.

(** With one match, the strict and the lenient match agree. *)
Lemma parseLog_one_either (name : string) (events : list EventRecord) :
  EventLogMatcher.countNamed name events = 1%nat ->
  EventLogMatcher.parseLog events name false
  = EventLogMatcher.parseLog events name true.
Proof.
  rewrite MatcherFacts.countNamed_filter.
  unfold EventLogMatcher.parseLog, EventLogMatcher.matchEvents. cbn [negb].
  destruct (filter (EventLogMatcher.named name) events) as [| e [| e2 rest]];
    cbn [length]; intros Hc; try discriminate Hc.
  reflexivity.
Qed.

Lemma createThenLinkCharacter_writesThen f a lt ov :
  writesThen (LinkContract.createThenLinkCharacter f a lt ov)
             createdAndLinkedOf.
Proof.
  unfold LinkContract.createThenLinkCharacter. to_receipt.
  unfold bind, parseLog, liftE, ret, createdAndLinkedOf.
  destruct (EventLogMatcher.parseLog _ "CharacterCreated" _); [reflexivity |].
  destruct (EventLogMatcher.parseLog _ "LinkCharacter" _); reflexivity.
Qed.

(** [getLinklistIdByTransaction], run. *)
Lemma getLinklistIdByTransaction_run hash env h :
  LinkContract.getLinklistIdByTransaction hash env h
  = (match getReceipt env h hash with
     | inl err => inl err
     | inr receipt =>
       match EventLogMatcher.parseLog (Receipt.logs receipt)
                                      "LinkCharacter" true with
       | inl err => inl err
       | inr parser =>
         inr {| data := lookup_field "linklistId" (args parser);
                transactionHash := None |}
       end
     end,
     [GetReceipt hash]).
Proof.
  unfold LinkContract.getLinklistIdByTransaction, getTransactionReceipt,
    parseLog, bind, perform, liftE, ret.
  destruct (getReceipt env h hash) as [err | receipt]; [reflexivity |].
  destruct (EventLogMatcher.parseLog _ _ _); reflexivity.
Qed.

End ReceiptFacts.

(** X10: [createThenLinkCharacter] reads two events off one receipt.  Once
    the receipt is obtained: with one [CharacterCreated] and one
    [LinkCharacter] event it returns the character id of the first and the
    linklist id of the second under the receipt's hash; without a
    [CharacterCreated] event, or with one but without a [LinkCharacter]
    event, it fails with [EventNotFound].  And it gets that far: on a chain
    client that is on the deployment network, accepts every call and answers
    every wait with a receipt, given a well-formed address and a link type
    that fits the tag, it submits its call, obtains the receipt and ends in
    the same three ways. *)
Theorem createThenLinkCharacter_reads_two_events
        (env : Env) (h : History) (fromCharacterId : Z) (toAddress : Address)
        (linkType : Utf8.ustring) (overrides : Value) :
  (forall outcome es receipt,
     LinkContract.createThenLinkCharacter fromCharacterId toAddress linkType
       overrides env h = (outcome, es) ->
     awaited env h es receipt ->
     (EventLogMatcher.countNamed "CharacterCreated" (Receipt.logs receipt)
      = 1%nat ->
      EventLogMatcher.countNamed "LinkCharacter" (Receipt.logs receipt)
      = 1%nat ->
      exists created linked,
        In created (Receipt.logs receipt) /\
        eventName created = "CharacterCreated" /\
        In linked (Receipt.logs receipt) /\
        eventName linked = "LinkCharacter" /\
        outcome
        = inr {| data :=
                   VObject
                     [("toCharacterId",
                       lookup_field "characterId" (args created));
                      ("linklistId",
                       lookup_field "linklistId" (args linked))];
                 transactionHash := Some (Receipt.transactionHash receipt) |}) /\
     (EventLogMatcher.countNamed "CharacterCreated" (Receipt.logs receipt)
      = 0%nat ->
      outcome = inl EventNotFound) /\
     (EventLogMatcher.countNamed "CharacterCreated" (Receipt.logs receipt)
      = 1%nat ->
      EventLogMatcher.countNamed "LinkCharacter" (Receipt.logs receipt)
      = 0%nat ->
      outcome = inl EventNotFound)) /\
  (accepting env ->
   isAddress env toAddress = true ->
   (length (AddressCodec.toHex linkType) <= 32)%nat ->
   (emits env "CharacterCreated" 1 -> emits env "LinkCharacter" 1 ->
    exists es receipt created linked,
      LinkContract.createThenLinkCharacter fromCharacterId toAddress linkType
        overrides env h
      = (inr {| data :=
                  VObject
                    [("toCharacterId",
                      lookup_field "characterId" (args created));
                     ("linklistId",
                      lookup_field "linklistId" (args linked))];
                transactionHash := Some (Receipt.transactionHash receipt) |},
         es) /\
      existsb isSubmit es = true /\
      awaited env h es receipt /\
      In created (Receipt.logs receipt) /\
      eventName created = "CharacterCreated" /\
      In linked (Receipt.logs receipt) /\
      eventName linked = "LinkCharacter") /\
   (emits env "CharacterCreated" 0 ->
    exists es,
      LinkContract.createThenLinkCharacter fromCharacterId toAddress linkType
        overrides env h = (inl EventNotFound, es) /\
      existsb isSubmit es = true) /\
   (emits env "CharacterCreated" 1 -> emits env "LinkCharacter" 0 ->
    exists es,
      LinkContract.createThenLinkCharacter fromCharacterId toAddress linkType
        overrides env h = (inl EventNotFound, es) /\
      existsb isSubmit es = true)).
Proof.
  split.
  - intros outcome es receipt E Ha.
    pose proof (RunFacts.writesThen_outcome _ _ _ _ _ _ _
                  (ReceiptFacts.createThenLinkCharacter_writesThen _ _ _ _) E Ha)
      as Ho.
    rewrite Ho. unfold createdAndLinkedOf.
    split; [| split].
    + intros Hc Hl.
      destruct (ProgressFacts.parseLog_one _ true _ Hc) as (c & Hin & Hn & ->).
      destruct (ProgressFacts.parseLog_one _ true _ Hl) as (l & Hin' & Hn' & ->).
      exists c, l. repeat split; assumption.
    + intros Hc. rewrite MatcherFacts.parseLog_none by exact Hc. reflexivity.
    + intros Hc Hl.
      destruct (ProgressFacts.parseLog_one _ true _ Hc) as (c & _ & _ & ->).
      rewrite MatcherFacts.parseLog_none by exact Hl. reflexivity.
  - intros Hacc Hv Hfit.
    destruct (ProgressFacts.createThenLinkCharacter_proceeds
                env h Hacc fromCharacterId toAddress linkType overrides Hv Hfit)
      as (es & receipt & E & Hs & Ha).
    destruct (ProgressFacts.awaited_answer _ _ _ _ Ha) as (h' & hash & Hw).
    unfold createdAndLinkedOf in E.
    split; [| split].
    + intros Hc Hl.
      destruct (ProgressFacts.parseLog_one _ true _ (Hc _ _ _ Hw))
        as (c & Hin & Hn & Hpc).
      destruct (ProgressFacts.parseLog_one _ true _ (Hl _ _ _ Hw))
        as (l & Hin' & Hn' & Hpl).
      exists es, receipt, c, l. rewrite E, Hpc, Hpl.
      repeat split; assumption.
    + intros Hc. exists es. rewrite E.
      rewrite MatcherFacts.parseLog_none by exact (Hc _ _ _ Hw).
      split; [reflexivity | exact Hs].
    + intros Hc Hl. exists es. rewrite E.
      destruct (ProgressFacts.parseLog_one _ true _ (Hc _ _ _ Hw))
        as (c & _ & _ & ->).
      rewrite MatcherFacts.parseLog_none by exact (Hl _ _ _ Hw).
      split; [reflexivity | exact Hs].
Qed.

Lemma createThenLinkCharacter_reads_two_events_example :
  (exists es receipt created linked,
     LinkContract.createThenLinkCharacter 1 Scenario.someAddress
       Scenario.follow Scenario.noOverrides
       (Scenario.chain Scenario.everyLink) []
     = (inr {| data :=
                 VObject
                   [("toCharacterId",
                     lookup_field "characterId" (args created));
                    ("linklistId",
                     lookup_field "linklistId" (args linked))];
               transactionHash := Some (Receipt.transactionHash receipt) |},
        es) /\
     existsb isSubmit es = true /\
     awaited (Scenario.chain Scenario.everyLink) [] es receipt /\
     In created (Receipt.logs receipt) /\
     eventName created = "CharacterCreated" /\
     In linked (Receipt.logs receipt) /\
     eventName linked = "LinkCharacter") /\
  (exists es,
     LinkContract.createThenLinkCharacter 1 Scenario.someAddress
       Scenario.follow Scenario.noOverrides
       (Scenario.chain [Scenario.linkEvent "LinkCharacter" 5]) []
     = (inl EventNotFound, es) /\
     existsb isSubmit es = true) /\
  (exists es,
     LinkContract.createThenLinkCharacter 1 Scenario.someAddress
       Scenario.follow Scenario.noOverrides
       (Scenario.chain [Scenario.linkEvent "CharacterCreated" 3]) []
     = (inl EventNotFound, es) /\
     existsb isSubmit es = true) /\
  (exists created linked,
     In created Scenario.everyLink /\
     eventName created = "CharacterCreated" /\
     In linked Scenario.everyLink /\
     eventName linked = "LinkCharacter" /\
     @inr Error Result
          {| data := VObject [("toCharacterId", VBigInt 4);
                              ("linklistId", VBigInt 5)];
             transactionHash := Some "0xabc" |}
     = inr {| data :=
                VObject
                  [("toCharacterId",
                    lookup_field "characterId" (args created));
                   ("linklistId",
                    lookup_field "linklistId" (args linked))];
              transactionHash := Some "0xabc" |}).
Proof.
  assert (Hacc : forall logs, accepting (Scenario.chain logs)).
  { intros logs. repeat split; intros; eexists; reflexivity. }
  assert (Hem : forall logs name n,
             EventLogMatcher.countNamed name logs = n ->
             emits (Scenario.chain logs) name n).
  { intros logs name n Hc h hash receipt E. injection E as <-. exact Hc. }
  assert (Hfit : (length (AddressCodec.toHex Scenario.follow) <= 32)%nat).
  { vm_compute. lia. }
  split; [| split; [| split]].
  - apply (proj1 (proj2 (createThenLinkCharacter_reads_two_events
                    (Scenario.chain Scenario.everyLink) [] 1
                    Scenario.someAddress Scenario.follow Scenario.noOverrides)
                 (Hacc _) eq_refl Hfit));
      apply Hem; reflexivity.
  - apply (proj1 (proj2 (proj2 (createThenLinkCharacter_reads_two_events
                    (Scenario.chain [Scenario.linkEvent "LinkCharacter" 5]) [] 1
                    Scenario.someAddress Scenario.follow Scenario.noOverrides)
                 (Hacc _) eq_refl Hfit))).
    apply Hem. reflexivity.
  - apply (proj2 (proj2 (proj2 (createThenLinkCharacter_reads_two_events
                    (Scenario.chain [Scenario.linkEvent "CharacterCreated" 3])
                    [] 1
                    Scenario.someAddress Scenario.follow Scenario.noOverrides)
                 (Hacc _) eq_refl Hfit)));
      apply Hem; reflexivity.
  - refine (proj1 (proj1 (createThenLinkCharacter_reads_two_events
                     (Scenario.chain Scenario.everyLink) [] 1
                     Scenario.someAddress Scenario.follow Scenario.noOverrides)
                   _ _ (Receipt.mk "0xabc" Scenario.everyLink) _ _) _ _).
    + reflexivity.
    + match goal with
      | |- awaited _ _ ?es _ => exists (removelast es), "0xabc"
      end.
      split; reflexivity.
    + reflexivity.
    + reflexivity.
Defined.

(** X11: the result of [linkCharacter] can be recovered from the receipt.
    When [linkCharacter] has returned, [getLinklistIdByTransaction] on any
    hash whose receipt holds the same events returns the same linklist id,
    without a hash, after the single call that gets the receipt. *)
Theorem getLinklistIdByTransaction_recovers_linkCharacter
        (env : Env) (h : History) (fromCharacterId toCharacterId : Z)
        (linkType : Utf8.ustring) (data' overrides : Value)
        (r : Result) (es : list Effect) (receipt : Receipt.t)
        (h' : History) (hash : string) (receipt' : Receipt.t) :
  LinkContract.linkCharacter fromCharacterId toCharacterId linkType data'
    overrides env h = (inr r, es) ->
  awaited env h es receipt ->
  getReceipt env h' hash = inr receipt' ->
  Receipt.logs receipt' = Receipt.logs receipt ->
  LinkContract.getLinklistIdByTransaction hash env h'
  = (inr {| data := data r; transactionHash := None |}, [GetReceipt hash]).
Proof.
  intros E Ha Hg Hl.
  pose proof (RunFacts.writesThen_outcome _ _ _ _ _ _ _
                (LinkFacts.linkCharacter_writesThen _ _ _ _ _) E Ha) as Ho.
  rewrite ReceiptFacts.getLinklistIdByTransaction_run, Hg, Hl.
  unfold linklistIdOf in Ho.
  destruct (EventLogMatcher.parseLog (Receipt.logs receipt) "LinkCharacter" true)
    as [err | parser]; [discriminate Ho |].
  injection Ho as ->. reflexivity.
Qed.

Lemma getLinklistIdByTransaction_recovers_example :
  LinkContract.getLinklistIdByTransaction "0xabc"
    (Scenario.chain [Scenario.linkEvent "LinkCharacter" 5]) []
  = (inr {| data := VBigInt 5; transactionHash := None |},
     [GetReceipt "0xabc"]).
Proof.
  refine (getLinklistIdByTransaction_recovers_linkCharacter
            (Scenario.chain [Scenario.linkEvent "LinkCharacter" 5]) []
            1 2 Scenario.follow VUndefined Scenario.noOverrides
            {| data := VBigInt 5; transactionHash := Some "0xabc" |} _
            (Receipt.mk "0xabc" [Scenario.linkEvent "LinkCharacter" 5])
            [] "0xabc"
            (Receipt.mk "0xabc" [Scenario.linkEvent "LinkCharacter" 5])
            _ _ _ _).
  - reflexivity.
  - match goal with
    | |- awaited _ _ ?es _ => exists (removelast es), "0xabc"
    end.
    split; reflexivity.
  - reflexivity.
  - reflexivity.
Defined.

(** X12: the result of a batch link that emitted one [LinkCharacter] event
    can be recovered from the receipt.  When [linkCharactersInBatch] has
    returned and its receipt holds exactly one [LinkCharacter] event,
    [getLinklistIdByTransaction] on any hash whose receipt holds the same
    events returns the same linklist id, without a hash, after the single
    call that gets the receipt. *)
Theorem getLinklistIdByTransaction_after_batch
        (env : Env) (h : History) (fromCharacterId : Z)
        (toCharacterIds : list Z) (toAddresses : list Address)
        (linkType : Utf8.ustring) (data' overrides : Value)
        (r : Result) (es : list Effect) (receipt : Receipt.t)
        (h' : History) (hash : string) (receipt' : Receipt.t) :
  LinkContract.linkCharactersInBatch fromCharacterId toCharacterIds
    toAddresses linkType data' overrides env h = (inr r, es) ->
  awaited env h es receipt ->
  getReceipt env h' hash = inr receipt' ->
  Receipt.logs receipt' = Receipt.logs receipt ->
  EventLogMatcher.countNamed "LinkCharacter" (Receipt.logs receipt) = 1%nat ->
  LinkContract.getLinklistIdByTransaction hash env h'
  = (inr {| data := data r; transactionHash := None |}, [GetReceipt hash]).
Proof.
  intros E Ha Hg Hl Hc.
  pose proof (RunFacts.writesThen_outcome _ _ _ _ _ _ _
                (LinkFacts.linkCharactersInBatch_writesThen _ _ _ _ _ _) E Ha)
    as Ho.
  rewrite ReceiptFacts.getLinklistIdByTransaction_run, Hg, Hl.
  unfold linklistIdOf in Ho.
  rewrite (ReceiptFacts.parseLog_one_either _ _ Hc) in Ho.
  destruct (EventLogMatcher.parseLog (Receipt.logs receipt) "LinkCharacter" true)
    as [err | parser]; [discriminate Ho |].
  injection Ho as ->. reflexivity.
Qed.

Lemma getLinklistIdByTransaction_after_batch_example :
  LinkContract.getLinklistIdByTransaction "0xabc"
    (Scenario.chain [Scenario.linkEvent "LinkCharacter" 7]) []
  = (inr {| data := VBigInt 7; transactionHash := None |},
     [GetReceipt "0xabc"]).
Proof.
  refine (getLinklistIdByTransaction_after_batch
            (Scenario.chain [Scenario.linkEvent "LinkCharacter" 7]) []
            1 [2] [] Scenario.follow VUndefined Scenario.noOverrides
            {| data := VBigInt 7; transactionHash := Some "0xabc" |} _
            (Receipt.mk "0xabc" [Scenario.linkEvent "LinkCharacter" 7])
            [] "0xabc"
            (Receipt.mk "0xabc" [Scenario.linkEvent "LinkCharacter" 7])
            _ _ _ _ _).
  - reflexivity.
  - match goal with
    | |- awaited _ _ ?es _ => exists (removelast es), "0xabc"
    end.
    split; reflexivity.
  - reflexivity.
  - reflexivity.
  - reflexivity.
Defined.



(** ** Notes *)

Module NoteFacts.
Import RunFacts GuardFacts.

(** What [parseMetadataOrUri] returns as the URI. *)
Lemma parse_returns type metadataOrUri flag env h parsed es :
  Ipfs.parseMetadataOrUri type metadataOrUri flag env h = (inr parsed, es) ->
  match metadataOrUri with
  | Ipfs.Uri uri => Ipfs.uri parsed = uri
  | Ipfs.Metadata _ => prefix "ipfs://" (Ipfs.uri parsed) = true
  end.
Proof.
  destruct metadataOrUri as [uri | metadata]; cbn [Ipfs.parseMetadataOrUri].
  - destruct uri as [| c uri'].
    + intros E. injection E as <- _. reflexivity.
    + unfold bind.
      destruct ((if flag then Ipfs.uriToMetadata (String c uri')
                 else ret VUndefined) env h) as [[e | m] es1];
        [discriminate |].
      cbn [ret]. intros E. injection E as <- _. reflexivity.
  - unfold bind at 1.
    destruct (Ipfs.metadataToUri _ env h) as [[e | url] es1] eqn:Em;
      [discriminate |].
    cbn [ret]. intros E. injection E as <- _. cbn [Ipfs.uri].
    apply (ResolverFacts.metadataToUri_returns _ _ _ _ _ Em).
Qed.

(** [postNote], run: the calls of the resolver, then the call and the wait
    for its receipt. *)
Lemma postNote_calls toNumberToString profileId metadataOrUri env h :
  match Ipfs.parseMetadataOrUri "note" metadataOrUri false env h with
  | (inl e, es) =>
    NoteContract.postNote toNumberToString profileId metadataOrUri env h
    = (inl e, es)
  | (inr parsed, es) =>
    exists outcome rest,
      NoteContract.postNote toNumberToString profileId metadataOrUri env h
      = (outcome,
         es ++ Submit (postNoteCall env profileId (Ipfs.uri parsed)) :: rest) /\
      (rest = [] \/ exists tx, rest = [WaitForReceipt tx])
  end.
Proof.
  destruct (Ipfs.parseMetadataOrUri "note" metadataOrUri false env h)
    as [[e | parsed] es] eqn:Ep.
  { unfold NoteContract.postNote. unfold bind at 1. rewrite Ep. reflexivity. }
  unfold NoteContract.postNote. unfold bind at 1. rewrite Ep.
  unfold bind at 1, ask at 1. unfold bind at 1, write, perform. cbv beta.
  fold (postNoteCall env profileId (Ipfs.uri parsed)).
  match goal with
  | |- context [submit env ?hh ?c] => destruct (submit env hh c) as [e | tx]
  end.
  - exists (inl e), []. cbn [app]. split; [reflexivity | left; reflexivity].
  - unfold bind at 1, waitForTransactionReceipt, perform. cbv beta.
    match goal with
    | |- context [waitForReceipt env ?hh tx] =>
      destruct (waitForReceipt env hh tx) as [e | receipt]
    end.
    + exists (inl e), [WaitForReceipt tx]. cbn [app].
      split; [reflexivity | right; exists tx; reflexivity].
    + unfold bind, parseLog, liftE, ret.
      destruct (EventLogMatcher.parseLog _ _ _) as [e | log].
      * exists (inl e), [WaitForReceipt tx]. cbn [app].
        split; [reflexivity | right; exists tx; reflexivity].
      * destruct (toNumberToString _) as [e | noteId]; eexists _, _;
          cbn [app]; (split; [reflexivity | right; exists tx; reflexivity]).
Qed.

End NoteFacts.

Module NoteFacts2.
Import RunFacts GuardFacts.

Lemma existsb_false_In {A} (p : A -> bool) (l : list A) (x : A) :
  existsb p l = false -> In x l -> p x = false.
Proof.
  intros He Hin. destruct (p x) eqn:Px; [| reflexivity].
  assert (existsb p l = true) by (apply existsb_exists; exists x; split; assumption).
  congruence.
Qed.

Lemma parse_uri_quiet type uri env h :
  Ipfs.parseMetadataOrUri type (Ipfs.Uri uri) false env h
  = (inr {| Ipfs.metadata := VUndefined; Ipfs.uri := uri |}, []).
Proof. destruct uri; reflexivity. Qed.

(** What [postNote] makes of the receipt. *)
Lemma postNote_writesThen toNumberToString profileId metadataOrUri :
  writesThen
    (NoteContract.postNote toNumberToString profileId metadataOrUri)
    (fun receipt =>
       match EventLogMatcher.parseLog (Receipt.logs receipt) "postNote" true with
       | inl err => inl err
       | inr log =>
         match toNumberToString (lookup_field "noteId" (args log)) with
         | inl err => inl err
         | inr noteId =>
           inr {| data := VObject [("noteId", noteId)];
                  transactionHash := Some (Receipt.transactionHash receipt) |}
         end
       end).
Proof.
  unfold NoteContract.postNote.
  apply writesThen_bind.
  { apply (never_parseMetadataOrUri isWait); reflexivity. }
  intros parsed. LinkFacts.to_receipt.
  unfold bind, parseLog, liftE, ret.
  destruct (EventLogMatcher.parseLog _ _ _) as [e | log]; [reflexivity |].
  destruct (toNumberToString _); reflexivity.
Qed.

Lemma postNote_submits toNumberToString profileId metadataOrUri :
  submits (NoteContract.postNote toNumberToString profileId metadataOrUri).
Proof. unfold NoteContract.postNote. LinkFacts.does_submit. Qed.

Lemma mintNote_envelope profileId noteId toAddress :
  carriesReceiptHash (NoteContract.mintNote profileId noteId toAddress) /\
  dataUndefined (NoteContract.mintNote profileId noteId toAddress).
Proof. unfold NoteContract.mintNote. LinkFacts.solve_unlink. Qed.

End NoteFacts2.

(** X14: [postNote] publishes the content before it submits the note.  When
    the resolver throws, [postNote] throws the same error and nothing has
    been submitted.  A call that is submitted is the [postNote] call, and
    its content URI is the caller's string when a string was given, and
    starts with ipfs:// when a metadata object was given.  With a string,
    the content store is not contacted at all. *)
Theorem postNote_publishes_before_submitting
        (toNumberToString : Value -> Error + Value) (profileId : string)
        (metadataOrUri : Ipfs.MetadataOrUri) (env : Env) (h : History) :
  (forall e es,
     Ipfs.parseMetadataOrUri "note" metadataOrUri false env h = (inl e, es) ->
     NoteContract.postNote toNumberToString profileId metadataOrUri env h
     = (inl e, es) /\
     existsb isSubmit es = false) /\
  (forall c,
     In (Submit c)
        (snd (NoteContract.postNote toNumberToString profileId metadataOrUri
                env h)) ->
     exists uri,
       c = postNoteCall env profileId uri /\
       match metadataOrUri with
       | Ipfs.Uri given => uri = given
       | Ipfs.Metadata _ => prefix "ipfs://" uri = true
       end) /\
  (forall given,
     metadataOrUri = Ipfs.Uri given ->
     existsb isStoreRequest
       (snd (NoteContract.postNote toNumberToString profileId metadataOrUri
               env h)) = false).
Proof.
  pose proof (NoteFacts.postNote_calls toNumberToString profileId
                metadataOrUri env h) as Hcalls.
  pose proof (GuardFacts.never_parseMetadataOrUri isSubmit "note"
                metadataOrUri false (fun _ _ _ => eq_refl) (fun _ => eq_refl)
                (fun _ => eq_refl) env h) as Hquiet.
  destruct (Ipfs.parseMetadataOrUri "note" metadataOrUri false env h)
    as [[e | parsed] es] eqn:Ep; cbn [snd] in Hquiet.
  - rewrite Hcalls. cbn [snd]. split; [| split].
    + intros e' es' E. injection E as <- <-. split; [reflexivity | exact Hquiet].
    + intros c Hin.
      pose proof (NoteFacts2.existsb_false_In _ _ _ Hquiet Hin) as Hc.
      discriminate Hc.
    + intros given ->. rewrite NoteFacts2.parse_uri_quiet in Ep.
      discriminate Ep.
  - destruct Hcalls as (outcome & rest & -> & Hrest). cbn [snd].
    split; [| split].
    + intros e' es' E. discriminate E.
    + intros c Hin. apply in_app_or in Hin as [Hin | [Hin | Hin]].
      * pose proof (NoteFacts2.existsb_false_In _ _ _ Hquiet Hin) as Hc.
        discriminate Hc.
      * injection Hin as <-. exists (Ipfs.uri parsed).
        split; [reflexivity |].
        apply (NoteFacts.parse_returns _ _ _ _ _ _ _ Ep).
      * destruct Hrest as [-> | [tx ->]]; [destruct Hin |].
        destruct Hin as [Hin | []]. discriminate Hin.
    + intros given ->. rewrite NoteFacts2.parse_uri_quiet in Ep.
      injection Ep as <- <-. cbn [app existsb isStoreRequest orb].
      destruct Hrest as [-> | [tx ->]]; reflexivity.
Qed.

Lemma postNote_publishes_before_submitting_example :
  exists uri,
    postNoteCall (Stores.relay []) "1" Stores.pinned
    = postNoteCall (Stores.relay []) "1" uri /\
    prefix "ipfs://" uri = true.
Proof.
  refine (proj1 (proj2 (postNote_publishes_before_submitting
                          Stores.toNumberToString "1"
                          (Ipfs.Metadata (VObject [("content", VString "hello")]))
                          (Stores.relay []) []))
                (postNoteCall (Stores.relay []) "1" Stores.pinned) _).
  vm_compute. right. left. reflexivity.
Defined.

(** X15: the results of the note operations.  When [postNote] returns, it
    has submitted a call and obtained a receipt, and its result holds,
    under the receipt's hash, the note id that the single [postNote] event
    of the receipt carries, converted to text.  When [mintNote] returns, its
    result carries the hash of the receipt it obtained and [undefined] as
    data. *)
Theorem note_results :
  (forall toNumberToString profileId metadataOrUri env h r es,
     NoteContract.postNote toNumberToString profileId metadataOrUri env h
     = (inr r, es) ->
     existsb isSubmit es = true /\
     exists receipt log noteId,
       awaited env h es receipt /\
       EventLogMatcher.parseLog (Receipt.logs receipt) "postNote" true
       = inr log /\
       toNumberToString (lookup_field "noteId" (args log)) = inr noteId /\
       r = {| data := VObject [("noteId", noteId)];
              transactionHash := Some (Receipt.transactionHash receipt) |}) /\
  (forall profileId noteId toAddress,
     carriesReceiptHash (NoteContract.mintNote profileId noteId toAddress) /\
     dataUndefined (NoteContract.mintNote profileId noteId toAddress)).
Proof.
  split; [| exact NoteFacts2.mintNote_envelope].
  intros t p m env h r es E. split.
  - exact (NoteFacts2.postNote_submits t p m env h r es E).
  - destruct (NoteFacts2.postNote_writesThen t p m env h (inr r) es E)
      as [(receipt & Ha & Hr) | [_ [err He]]]; [| discriminate He].
    exists receipt.
    destruct (EventLogMatcher.parseLog (Receipt.logs receipt) "postNote" true)
      as [e | log]; [discriminate Hr |].
    destruct (t (lookup_field "noteId" (args log))) as [e | noteId] eqn:Et;
      [discriminate Hr |].
    injection Hr as ->. exists log, noteId. repeat split; assumption.
Qed.

Lemma note_results_example :
  existsb isSubmit
    (snd (NoteContract.postNote Stores.toNumberToString "1"
            (Ipfs.Uri Stores.pinned)
            (Stores.relay [mkEvent "postNote" [("noteId", VBigInt 2)]]) []))
  = true /\
  exists receipt log noteId,
    awaited (Stores.relay [mkEvent "postNote" [("noteId", VBigInt 2)]]) []
      (snd (NoteContract.postNote Stores.toNumberToString "1"
              (Ipfs.Uri Stores.pinned)
              (Stores.relay [mkEvent "postNote" [("noteId", VBigInt 2)]]) []))
      receipt /\
    EventLogMatcher.parseLog (Receipt.logs receipt) "postNote" true = inr log /\
    Stores.toNumberToString (lookup_field "noteId" (args log)) = inr noteId /\
    {| data := VObject [("noteId", VString "2")];
       transactionHash := Some "0xabc" |}
    = {| data := VObject [("noteId", noteId)];
         transactionHash := Some (Receipt.transactionHash receipt) |}.
Proof.
  apply (proj1 note_results Stores.toNumberToString "1"
               (Ipfs.Uri Stores.pinned)
               (Stores.relay [mkEvent "postNote" [("noteId", VBigInt 2)]]) []).
  reflexivity.
Defined.

(** ** The older resolver *)

Module LegacyFacts.

Lemma prefix_split (p s : string) :
  prefix p s = true -> s = (p ++ dropString (String.length p) s)%string.
Proof.
  revert s. induction p as [| a p IH]; intros s; [reflexivity |].
  destruct s as [| b s]; cbn [prefix]; [discriminate |].
  destruct (ascii_dec a b) as [-> | _]; [| discriminate].
  intros Hp. cbn [String.length dropString String.append]. f_equal.
  apply IH. exact Hp.
Qed.

Lemma gatewayUrl_ipfs (rest : string) :
  IpfsLegacy.gatewayUrl ("ipfs://" ++ rest)
  = ("https://cf-ipfs.com/ipfs/" ++ rest)%string.
Proof. destruct rest; reflexivity. Qed.

Lemma legacy_attempt (json : Value) env h :
  IpfsLegacy.uploadJson json env h
  = (match httpFetch env h "https://ipfs-relay.crossbell.io/json" "POST"
                     (JSON_stringify env json) with
     | inl e => inl e
     | inr text =>
       match JSON_parse env text with
       | Some res => inr res
       | None => inl (JsError "SyntaxError")
       end
     end,
     [Fetch "https://ipfs-relay.crossbell.io/json" "POST"
            (JSON_stringify env json)]).
Proof. apply ResolverFacts.attempt_run. Qed.

End LegacyFacts.

(** X16: the older [uriToMetadata] goes through the gateway.  Every run
    makes exactly one GET request; a URI ipfs://X is fetched from
    https://cf-ipfs.com/ipfs/X and any other URI from itself, so the URL
    that is fetched never starts with ipfs://; and when the request fails,
    the error names the URL that was fetched. *)
Theorem legacy_uriToMetadata_fetches_gateway
        (env : Env) (h : History) (uri : string) :
  (exists outcome,
     IpfsLegacy.uriToMetadata uri env h
     = (outcome, [Fetch (IpfsLegacy.gatewayUrl uri) "GET" ""])) /\
  (forall rest,
     uri = ("ipfs://" ++ rest)%string ->
     IpfsLegacy.gatewayUrl uri = ("https://cf-ipfs.com/ipfs/" ++ rest)%string) /\
  (prefix "ipfs://" uri = false -> IpfsLegacy.gatewayUrl uri = uri) /\
  prefix "ipfs://" (IpfsLegacy.gatewayUrl uri) = false /\
  (forall err,
     httpFetch env h (IpfsLegacy.gatewayUrl uri) "GET" "" = inl err ->
     IpfsLegacy.uriToMetadata uri env h
     = (inl (JsError ("Failed to fetch metadata from uri: "
                      ++ IpfsLegacy.gatewayUrl uri
                      ++ ". Response: undefined")),
        [Fetch (IpfsLegacy.gatewayUrl uri) "GET" ""])).
Proof.
  split; [| split; [| split; [| split]]].
  - unfold IpfsLegacy.uriToMetadata.
    unfold JSONparse, fetch, try_catch, bind, perform, ask, ret, throw.
    destruct (httpFetch env h _ _ _) as [e | text];
      [eexists; reflexivity |].
    destruct (JSON_parse env text); eexists; reflexivity.
  - intros rest ->. apply LegacyFacts.gatewayUrl_ipfs.
  - intros Hp. unfold IpfsLegacy.gatewayUrl. rewrite Hp. reflexivity.
  - destruct (prefix "ipfs://" uri) eqn:Hp.
    + rewrite (LegacyFacts.prefix_split _ _ Hp).
      rewrite LegacyFacts.gatewayUrl_ipfs. reflexivity.
    + unfold IpfsLegacy.gatewayUrl. rewrite Hp. exact Hp.
  - intros err Hf. unfold IpfsLegacy.uriToMetadata.
    unfold JSONparse, fetch, try_catch, bind, perform, ask, ret, throw.
    rewrite Hf. reflexivity.
Qed.

Lemma legacy_uriToMetadata_fetches_gateway_example :
  IpfsLegacy.gatewayUrl (Stores.pinned ++ "/1.json")
  = "https://cf-ipfs.com/ipfs/QmTMD6sLA7M4iegKDhbdMPBZ4HLi5fjW27w2J16gqc5Cb7/1.json"
  /\
  IpfsLegacy.uriToMetadata (Stores.pinned ++ "/1.json") (Scenario.chain []) []
  = (inl (JsError ("Failed to fetch metadata from uri: "
                   ++ IpfsLegacy.gatewayUrl (Stores.pinned ++ "/1.json")
                   ++ ". Response: undefined")),
     [Fetch (IpfsLegacy.gatewayUrl (Stores.pinned ++ "/1.json")) "GET" ""]).
Proof.
  split.
  - apply (proj1 (proj2 (legacy_uriToMetadata_fetches_gateway
                           (Scenario.chain []) [] (Stores.pinned ++ "/1.json")))
                  "QmTMD6sLA7M4iegKDhbdMPBZ4HLi5fjW27w2J16gqc5Cb7/1.json").
    reflexivity.
  - apply (proj2 (proj2 (proj2 (proj2
             (legacy_uriToMetadata_fetches_gateway
                (Scenario.chain []) [] (Stores.pinned ++ "/1.json")))))
             (JsError "fetch failed")).
    reflexivity.
Defined.

(** X17: publishing without and with retry.  The older [uploadJson] makes
    exactly one POST request, whatever the answer.  Whenever it returns, the
    current [uploadJson] returns the same JSON after the same single
    request, and so does [metadataToUri] with the URI; the two revisions
    differ only when the first attempt fails. *)
Theorem legacy_uploadJson_is_the_first_attempt
        (env : Env) (h : History) (json : Value) :
  snd (IpfsLegacy.uploadJson json env h)
  = [Fetch "https://ipfs-relay.crossbell.io/json" "POST"
           (JSON_stringify env json)] /\
  (forall res es,
     IpfsLegacy.uploadJson json env h = (inr res, es) ->
     Ipfs.uploadJson json env h = (inr res, es)) /\
  (forall url es,
     IpfsLegacy.metadataToUri json env h = (inr url, es) ->
     Ipfs.metadataToUri json env h = (inr url, es)).
Proof.
  split; [| split].
  - rewrite LegacyFacts.legacy_attempt. reflexivity.
  - intros res es E. unfold Ipfs.uploadJson.
    apply IpfsFacts.retry_returns_at_once. exact E.
  - intros url es. unfold IpfsLegacy.metadataToUri, Ipfs.metadataToUri.
    unfold bind at 1.
    destruct (IpfsLegacy.uploadJson json env h) as [[e | res] es1] eqn:El;
      [discriminate |].
    assert (Eu : Ipfs.uploadJson json env h = (inr res, es1)).
    { unfold Ipfs.uploadJson. apply IpfsFacts.retry_returns_at_once. exact El. }
    unfold bind. rewrite Eu. intros E. exact E.
Qed.

Lemma legacy_uploadJson_is_the_first_attempt_example :
  Ipfs.metadataToUri (VObject []) (Stores.relay []) []
  = (inr Stores.pinned,
     [Fetch "https://ipfs-relay.crossbell.io/json" "POST" "{}"]).
Proof.
  apply (legacy_uploadJson_is_the_first_attempt (Stores.relay []) []
                                                (VObject [])).
  reflexivity.
Defined.

(** ** The link-type tag *)

Module TagFacts.
Import Utf8 AddressCodec.

Lemma encode_cp_length (c : Z) :
  (1 <= length (encode_cp c) <= 4)%nat.
Proof.
  unfold encode_cp.
  destruct (c <? 0x80); [cbn; lia |].
  destruct (c <? 0x800); [cbn; lia |].
  destruct (c <? 0x10000); cbn; lia.
Qed.

Lemma encode_length (s : ustring) :
  (length s <= length (encode s) <= 4 * length s)%nat.
Proof.
  induction s as [| c s IH]; [cbn; lia |].
  cbn [encode flat_map]. fold (encode s). rewrite length_app.
  pose proof (encode_cp_length c). cbn [length]. lia.
Qed.

Lemma encode_ascii (s : ustring) :
  forallb (fun c => c <? 0x80) s = true -> encode s = s.
Proof.
  induction s as [| c s IH]; [reflexivity |].
  cbn [forallb]. intros H. apply andb_prop in H as [Hc Hs].
  cbn [encode flat_map]. fold (encode s). unfold encode_cp. rewrite Hc.
  cbn [app]. rewrite (IH Hs). reflexivity.
Qed.

Lemma decode_padded (s : ustring) (n : nat) :
  well_formed s = true -> endsWithNul s = false ->
  decode (strip_trailing_zeros (toHex s ++ repeat 0 n)) = Some s.
Proof.
  intros Hs Hn.
  rewrite CodecFacts.strip_app_zeros.
  rewrite CodecFacts.strip_id by (apply CodecFacts.encode_last; assumption).
  apply CodecFacts.decode_encode. exact Hs.
Qed.

End TagFacts.

(** X18: distinct link types get distinct tags, up to trailing U+0000
    characters.  Two strings of Unicode scalar values that do not end with
    U+0000 and encode to the same 32 bytes are equal; a string and the same
    string followed by U+0000 encode to the same 32 bytes. *)
Theorem encodeLinkType_injective (s1 s2 : Utf8.ustring) (tag : AddressCodec.Hex) :
  (Utf8.well_formed s1 = true -> Utf8.well_formed s2 = true ->
   AddressCodec.endsWithNul s1 = false ->
   AddressCodec.endsWithNul s2 = false ->
   AddressCodec.encodeLinkType s1 = inr tag ->
   AddressCodec.encodeLinkType s2 = inr tag ->
   s1 = s2) /\
  (AddressCodec.encodeLinkType (s1 ++ [0]) = inr tag ->
   AddressCodec.encodeLinkType s1 = inr tag).
Proof.
  split.
  - intros W1 W2 N1 N2 E1 E2.
    assert (Hfit : forall s,
               AddressCodec.encodeLinkType s = inr tag ->
               tag = AddressCodec.toHex s
                     ++ repeat 0 (32 - length (AddressCodec.toHex s))).
    { intros s E.
      unfold AddressCodec.encodeLinkType, AddressCodec.pad, AddressCodec.width
        in E.
      destruct (Nat.ltb_spec 32 (length (AddressCodec.toHex s)));
        congruence. }
    pose proof (TagFacts.decode_padded s1
                  (32 - length (AddressCodec.toHex s1)) W1 N1) as D1.
    pose proof (TagFacts.decode_padded s2
                  (32 - length (AddressCodec.toHex s2)) W2 N2) as D2.
    rewrite <- (Hfit s1 E1) in D1. rewrite <- (Hfit s2 E2) in D2.
    congruence.
  - unfold AddressCodec.encodeLinkType, AddressCodec.pad, AddressCodec.width.
    unfold AddressCodec.toHex, Utf8.encode. rewrite flat_map_app.
    cbn [flat_map]. change (Utf8.encode_cp 0) with [0]. cbn [app].
    fold (Utf8.encode s1). rewrite length_app. cbn [length].
    destruct (Nat.ltb_spec 32 (length (Utf8.encode s1) + 1)); [discriminate |].
    destruct (Nat.ltb_spec 32 (length (Utf8.encode s1))); [lia |].
    intros E. rewrite <- E. f_equal. rewrite <- app_assoc. f_equal.
    replace (32 - length (Utf8.encode s1))%nat
      with (S (32 - (length (Utf8.encode s1) + 1)))%nat by lia.
    reflexivity.
Qed.

Lemma encodeLinkType_injective_example :
  AddressCodec.encodeLinkType Scenario.follow
  = inr ([102; 111; 108; 108; 111; 119] ++ repeat 0 26).
Proof.
  apply (encodeLinkType_injective Scenario.follow Scenario.follow
           ([102; 111; 108; 108; 111; 119] ++ repeat 0 26)).
  reflexivity.
Defined.

(** X19: which link types fit.  A link type of at most 8 characters always
    encodes, one of more than 32 characters never does, and one made of
    ASCII characters encodes exactly when it has at most 32 characters, to
    its characters followed by zero bytes. *)
Theorem encodeLinkType_fits (s : Utf8.ustring) :
  ((length s <= 8)%nat ->
   exists tag, AddressCodec.encodeLinkType s = inr tag) /\
  ((32 < length s)%nat -> AddressCodec.encodeLinkType s = inl ValueTooLong) /\
  (forallb (fun c => c <? 0x80) s = true ->
   AddressCodec.encodeLinkType s
   = if (32 <? length s)%nat then inl ValueTooLong
     else inr (s ++ repeat 0 (32 - length s))).
Proof.
  unfold AddressCodec.encodeLinkType, AddressCodec.pad, AddressCodec.width,
    AddressCodec.toHex.
  pose proof (TagFacts.encode_length s) as Hl.
  split; [| split].
  - intros H8. destruct (Nat.ltb_spec 32 (length (Utf8.encode s))); [lia |].
    eexists. reflexivity.
  - intros H32. destruct (Nat.ltb_spec 32 (length (Utf8.encode s)));
      [reflexivity | lia].
  - intros Ha. rewrite (TagFacts.encode_ascii s Ha). reflexivity.
Qed.

Lemma encodeLinkType_fits_example :
  (exists tag, AddressCodec.encodeLinkType Scenario.follow = inr tag) /\
  AddressCodec.encodeLinkType Stores.tooLong = inl ValueTooLong.
Proof.
  split.
  - apply (encodeLinkType_fits Scenario.follow). cbn. lia.
  - apply (encodeLinkType_fits Stores.tooLong). cbn. lia.
Defined.
